(** * Red-black tree of aarondl/rbtree: a shallow embedding and its properties

    The Go package keeps its nodes in the garbage-collected heap and links
    them with raw pointers ([parent], [left], [right]); one shared sentinel
    node stands for every absent child, while the parent of the root is the
    Go [nil] pointer.  The embedding keeps that shape: a pointer is a natural
    number ([0] is Go's nil), the heap is a finite map from pointers to node
    records, and every method is a program of a small state-and-fault monad.
    Loops carry a fuel argument that the public methods take from the
    allocation counter. *)

From stdpp Require Import gmap strings list sorting.
From Stdlib Require Import ZArith Lia.

Local Open Scope Z_scope.
Local Open Scope nat_scope.

(** ** Data model *)

(** [type color bool] with the two constants [black] and [red]. *)
Inductive color := black | red.

#[global] Instance color_eq_dec : EqDecision color.
Proof. solve_decision. Defined.

(** Faults that end a method abnormally: a dereference of Go's nil pointer,
    an explicit [panic(msg)], an index past the end of a slice, and the
    exhaustion of the fuel of a loop. *)
Inductive fault :=
| NilDeref
| Panic (msg : string)
| IndexOutOfRange
| OutOfFuel.

Section Model.

Context {T : Type}.
(** The comparison function given to [New], and the zero value of [T] (the
    [Value] of the sentinel, which [New] leaves unset). *)
Variable compare : T → T → Z.
Variable zero : T.

(** [type Node[T any] struct]. *)
Record Node := mkNode {
  ncolor : color;
  parent : nat;
  left : nat;
  right : nat;
  Value : T
}.

(** [type RBTree[T any] struct] together with the heap its nodes live in:
    [root] and [nil_] are the two pointer fields, [heap] maps the allocated
    pointers to their nodes and [next] is the next pointer [alloc] hands
    out. *)
Record RBTree := mkTree {
  root : nat;
  nil_ : nat;
  heap : gmap nat Node;
  next : nat
}.

(** ** The monad of methods *)

Inductive result (A : Type) :=
| Ok (a : A) (s : RBTree)
| Fault (f : fault) (s : RBTree).
Arguments Ok {A} a s.
Arguments Fault {A} f s.

Definition M (A : Type) := RBTree → result A.

Definition ret {A} (a : A) : M A := λ s, Ok a s.
Definition bind {A B} (m : M A) (k : A → M B) : M B :=
  λ s, match m s with
       | Ok a s' => k a s'
       | Fault f s' => Fault f s'
       end.
Definition fail {A} (f : fault) : M A := λ s, Fault f s.

#[global] Instance M_bind : MBind M := λ A B k m, bind m k.

(** Pointer dereference and field access. *)
Definition load (p : nat) : M Node :=
  λ s, match heap s !! p with
       | Some n => Ok n s
       | None => Fault NilDeref s
       end.
Definition store (p : nat) (n : Node) : M unit :=
  λ s, Ok tt (mkTree (root s) (nil_ s) (<[p := n]> (heap s)) (next s)).
Definition alloc (n : Node) : M nat :=
  λ s, Ok (next s) (mkTree (root s) (nil_ s) (<[next s := n]> (heap s)) (S (next s))).

Definition get_root : M nat := λ s, Ok (root s) s.
Definition get_nil : M nat := λ s, Ok (nil_ s) s.
Definition set_root (p : nat) : M unit :=
  λ s, Ok tt (mkTree p (nil_ s) (heap s) (next s)).
Definition get_fuel : M nat := λ s, Ok (next s) s.

Definition get_color (p : nat) : M color := n ← load p; ret (ncolor n).
Definition get_parent (p : nat) : M nat := n ← load p; ret (parent n).
Definition get_left (p : nat) : M nat := n ← load p; ret (left n).
Definition get_right (p : nat) : M nat := n ← load p; ret (right n).
Definition get_Value (p : nat) : M T := n ← load p; ret (Value n).

Definition set_color (p : nat) (c : color) : M unit :=
  n ← load p; store p (mkNode c (parent n) (left n) (right n) (Value n)).
Definition set_parent (p q : nat) : M unit :=
  n ← load p; store p (mkNode (ncolor n) q (left n) (right n) (Value n)).
Definition set_left (p q : nat) : M unit :=
  n ← load p; store p (mkNode (ncolor n) (parent n) q (right n) (Value n)).
Definition set_right (p q : nat) : M unit :=
  n ← load p; store p (mkNode (ncolor n) (parent n) (left n) q (Value n)).

(** ** rbtree.go *)

(** [New]: the sentinel is the first allocated node. *)
Definition New : RBTree :=
  mkTree 1 1 {[ 1 := mkNode black 0 0 0 zero ]} 2.

(** [func (n *Node[T]) getColor() color]. *)
Definition getColor (n : nat) : M color :=
  if n =? 0 then ret black else get_color n.

(** [rotateLeft]: the guard compares [n.right] with the sentinel. *)
Definition rotateLeft (n : nat) : M unit :=
  nr ← get_right n;
  nl ← get_nil;
  if nr =? nl then fail (Panic "is this possible?") else
  newRoot ← get_right n;
  nrl ← get_left newRoot;
  set_right n nrl;;
  set_left newRoot n;;
  nr' ← get_right n;
  (if negb (nr' =? nl) then set_parent nr' n else ret tt);;
  np ← get_parent n;
  (if np =? 0 then set_root newRoot
   else
     npl ← get_left np;
     if npl =? n then set_left np newRoot else set_right np newRoot);;
  np' ← get_parent n;
  set_parent newRoot np';;
  set_parent n newRoot.

(** [rotateRight]: the guard compares [n.left] with Go's nil. *)
Definition rotateRight (n : nat) : M unit :=
  nlf ← get_left n;
  nl ← get_nil;
  if nlf =? 0 then fail (Panic "is this possible?") else
  newRoot ← get_left n;
  nlr ← get_right newRoot;
  set_left n nlr;;
  set_right newRoot n;;
  nl' ← get_left n;
  (if negb (nl' =? nl) then set_parent nl' n else ret tt);;
  np ← get_parent n;
  (if np =? 0 then set_root newRoot
   else
     npr ← get_right np;
     if npr =? n then set_right np newRoot else set_left np newRoot);;
  np' ← get_parent n;
  set_parent newRoot np';;
  set_parent n newRoot.

(** The loop of [insertFixup]. *)
Fixpoint insertFixup_loop (fuel : nat) (check : nat) : M unit :=
  match fuel with
  | 0 => fail OutOfFuel
  | S fuel =>
    p ← get_parent check;
    pc ← getColor p;
    match pc with
    | black => ret tt
    | red =>
      grandParent ← get_parent p;
      gl ← get_left grandParent;
      if p =? gl then
        uncle ← get_right grandParent;
        uc ← getColor uncle;
        match uc with
        | red =>
          set_color p black;;
          set_color uncle black;;
          set_color grandParent red;;
          insertFixup_loop fuel grandParent
        | black =>
          pr ← get_right p;
          check' ← (if check =? pr then rotateLeft p;; ret p else ret check);
          p' ← get_parent check';
          set_color p' black;;
          g' ← get_parent p';
          set_color g' red;;
          rotateRight g';;
          insertFixup_loop fuel check'
        end
      else
        uncle ← get_left grandParent;
        uc ← getColor uncle;
        match uc with
        | red =>
          set_color p black;;
          set_color uncle black;;
          set_color grandParent red;;
          insertFixup_loop fuel grandParent
        | black =>
          pl ← get_left p;
          check' ← (if check =? pl then rotateRight p;; ret p else ret check);
          p' ← get_parent check';
          set_color p' black;;
          g' ← get_parent p';
          set_color g' red;;
          rotateLeft g';;
          insertFixup_loop fuel check'
        end
    end
  end.

Definition insertFixup (check : nat) : M unit :=
  fuel ← get_fuel;
  insertFixup_loop fuel check;;
  r ← get_root;
  set_color r black.

(** The descent of [Insert]; [insert] is the node allocated before it. *)
Fixpoint Insert_loop (fuel : nat) (val : T) (insert current : nat) : M unit :=
  match fuel with
  | 0 => fail OutOfFuel
  | S fuel =>
    nl ← get_nil;
    if current =? nl then ret tt else
    cv ← get_Value current;
    let test := compare val cv in
    if (test <? 0)%Z then
      cl ← get_left current;
      if cl =? nl then
        set_parent insert current;;
        set_left current insert
      else Insert_loop fuel val insert cl
    else if (0 <? test)%Z then
      cr ← get_right current;
      if cr =? nl then
        set_parent insert current;;
        set_right current insert
      else Insert_loop fuel val insert cr
    else fail (Panic "duplicate value")
  end.

Definition Insert (val : T) : M nat :=
  r ← get_root;
  nl ← get_nil;
  if r =? nl then
    a ← alloc (mkNode black 0 nl nl val);
    set_root a;;
    ret a
  else
    insert ← alloc (mkNode red 0 nl nl val);
    fuel ← get_fuel;
    Insert_loop fuel val insert r;;
    insertFixup insert;;
    ret insert.

(** [Search]. *)
Fixpoint Search_loop (fuel : nat) (val : T) (current : nat) : M nat :=
  match fuel with
  | 0 => fail OutOfFuel
  | S fuel =>
    nl ← get_nil;
    if current =? nl then ret 0 else
    cv ← get_Value current;
    let test := compare val cv in
    if (test <? 0)%Z then
      cl ← get_left current; Search_loop fuel val cl
    else if (0 <? test)%Z then
      cr ← get_right current; Search_loop fuel val cr
    else ret current
  end.

Definition Search (val : T) : M nat :=
  r ← get_root;
  fuel ← get_fuel;
  Search_loop fuel val r.

Definition Has (val : T) : M bool :=
  n ← Search val;
  ret (negb (n =? 0)).

(** [transplant]. *)
Definition transplant (u v : nat) : M unit :=
  up ← get_parent u;
  (if up =? 0 then set_root v
   else
     upl ← get_left up;
     if u =? upl then set_left up v else set_right up v);;
  up' ← get_parent u;
  set_parent v up'.

(** The loop of [deleteFixup]; it returns the node the loop ends on.  The
    result of [both] is [black] exactly when the two-sided test of case 2
    holds (the second colour is read only when the first is black). *)
Fixpoint deleteFixup_loop (fuel : nat) (n : nat) : M nat :=
  match fuel with
  | 0 => fail OutOfFuel
  | S fuel =>
    r ← get_root;
    if n =? r then ret n else
    c ← getColor n;
    match c with
    | red => ret n
    | black =>
      p ← get_parent n;
      pl ← get_left p;
      if n =? pl then
        sibling ← get_right p;
        sc ← getColor sibling;
        sibling ← (match sc with
                   | red =>
                     set_color sibling black;;
                     set_color p red;;
                     rotateLeft p;;
                     p' ← get_parent n;
                     get_right p'
                   | black => ret sibling
                   end);
        sl ← get_left sibling;
        slc ← getColor sl;
        both ← (match slc with
                | black => sr ← get_right sibling; getColor sr
                | red => ret red
                end);
        match both with
        | black =>
          set_color sibling red;;
          p' ← get_parent n;
          deleteFixup_loop fuel p'
        | red =>
          sr ← get_right sibling;
          src ← getColor sr;
          sibling ← (match src with
                     | black =>
                       sl' ← get_left sibling;
                       set_color sl' black;;
                       set_color sibling red;;
                       rotateRight sibling;;
                       p' ← get_parent n;
                       get_right p'
                     | red => ret sibling
                     end);
          p' ← get_parent n;
          pc ← get_color p';
          set_color sibling pc;;
          set_color p' black;;
          sr' ← get_right sibling;
          set_color sr' black;;
          rotateLeft p';;
          r' ← get_root;
          deleteFixup_loop fuel r'
        end
      else
        sibling ← get_left p;
        sc ← getColor sibling;
        sibling ← (match sc with
                   | red =>
                     set_color sibling black;;
                     set_color p red;;
                     rotateRight p;;
                     p' ← get_parent n;
                     get_left p'
                   | black => ret sibling
                   end);
        sr ← get_right sibling;
        src ← getColor sr;
        both ← (match src with
                | black => sl ← get_left sibling; getColor sl
                | red => ret red
                end);
        match both with
        | black =>
          set_color sibling red;;
          p' ← get_parent n;
          deleteFixup_loop fuel p'
        | red =>
          sl ← get_left sibling;
          slc ← getColor sl;
          sibling ← (match slc with
                     | black =>
                       sr' ← get_right sibling;
                       set_color sr' black;;
                       set_color sibling red;;
                       rotateLeft sibling;;
                       p' ← get_parent n;
                       get_left p'
                     | red => ret sibling
                     end);
          p' ← get_parent n;
          pc ← get_color p';
          set_color sibling pc;;
          set_color p' black;;
          sl' ← get_left sibling;
          set_color sl' black;;
          rotateRight p';;
          r' ← get_root;
          deleteFixup_loop fuel r'
        end
    end
  end.

Definition deleteFixup (n : nat) : M unit :=
  fuel ← get_fuel;
  n' ← deleteFixup_loop fuel n;
  set_color n' black.

(** [for minimum.left != r.nil { minimum = minimum.left }]. *)
Fixpoint leftmost (fuel : nat) (minimum : nat) : M nat :=
  match fuel with
  | 0 => fail OutOfFuel
  | S fuel =>
    ml ← get_left minimum;
    nl ← get_nil;
    if ml =? nl then ret minimum else leftmost fuel ml
  end.

Fixpoint rightmost (fuel : nat) (node : nat) : M nat :=
  match fuel with
  | 0 => fail OutOfFuel
  | S fuel =>
    nr ← get_right node;
    nl ← get_nil;
    if nr =? nl then ret node else rightmost fuel nr
  end.

Definition DeleteNode (n : nat) : M bool :=
  if n =? 0 then ret false else
  originalColor ← get_color n;
  nlf ← get_left n;
  nl ← get_nil;
  '(odd, originalColor) ←
    (if nlf =? nl then
       odd ← get_right n;
       transplant n odd;;
       ret (odd, originalColor)
     else
       nrt ← get_right n;
       if nrt =? nl then
         odd ← get_left n;
         transplant n odd;;
         ret (odd, originalColor)
       else
         fuel ← get_fuel;
         minimum ← leftmost fuel nrt;
         originalColor ← get_color minimum;
         odd ← get_right minimum;
         mp ← get_parent minimum;
         (if mp =? n then
            (if negb (odd =? 0) then set_parent odd minimum else ret tt)
          else
            mr ← get_right minimum;
            transplant minimum mr;;
            nr' ← get_right n;
            set_right minimum nr';;
            mr' ← get_right minimum;
            set_parent mr' minimum);;
         transplant n minimum;;
         nl' ← get_left n;
         set_left minimum nl';;
         ml' ← get_left minimum;
         set_parent ml' minimum;;
         nc ← get_color n;
         set_color minimum nc;;
         ret (odd, originalColor));
  (match originalColor with
   | black => deleteFixup odd
   | red => ret tt
   end);;
  ret true.

Definition Delete (val : T) : M bool :=
  n ← Search val;
  DeleteNode n.

(** [Successor] and [Predecessor]. *)
Fixpoint climb_right (fuel : nat) (node succ : nat) : M nat :=
  match fuel with
  | 0 => fail OutOfFuel
  | S fuel =>
    if succ =? 0 then ret succ else
    sr ← get_right succ;
    if node =? sr then
      sp ← get_parent succ;
      climb_right fuel succ sp
    else ret succ
  end.

Fixpoint climb_left (fuel : nat) (node pred : nat) : M nat :=
  match fuel with
  | 0 => fail OutOfFuel
  | S fuel =>
    if pred =? 0 then ret pred else
    pl ← get_left pred;
    if node =? pl then
      pp ← get_parent pred;
      climb_left fuel pred pp
    else ret pred
  end.

Definition Successor (node : nat) : M nat :=
  if node =? 0 then ret 0 else
  nr ← get_right node;
  nl ← get_nil;
  fuel ← get_fuel;
  if negb (nr =? nl) then leftmost fuel nr
  else
    succ ← get_parent node;
    climb_right fuel node succ.

Definition Predecessor (node : nat) : M nat :=
  if node =? 0 then ret 0 else
  nlf ← get_left node;
  nl ← get_nil;
  fuel ← get_fuel;
  if negb (nlf =? nl) then rightmost fuel nlf
  else
    pred ← get_parent node;
    climb_left fuel node pred.

(** ** iterator.go *)

(** [type IterationMethod int] and its four constants. *)
Definition IterationMethod := Z.
Definition InOrder : IterationMethod := 0%Z.
Definition PreOrder : IterationMethod := 1%Z.
Definition PostOrder : IterationMethod := 2%Z.
Definition LevelOrder : IterationMethod := 3%Z.

Section Iterators.

(** The consumer: [yield] is a closure over some state [C]; it returns
    whether the traversal goes on. *)
Context {C : Type}.
Variable yield : T → C → bool * C.

(** [for current != i.tree.nil { push current; current = current.left }]. *)
Fixpoint inOrder_descend (fuel : nat) (current : nat) (stack : list nat)
  : M (list nat) :=
  match fuel with
  | 0 => fail OutOfFuel
  | S fuel =>
    nl ← get_nil;
    if current =? nl then ret stack else
    cl ← get_left current;
    inOrder_descend fuel cl (stack ++ [current])
  end.

Fixpoint inOrder_loop (fuel : nat) (current : nat) (stack : list nat) (c : C)
  : M C :=
  match fuel with
  | 0 => fail OutOfFuel
  | S fuel =>
    nl ← get_nil;
    if negb (current =? nl) || (0 <? length stack) then
      fuel' ← get_fuel;
      stack ← inOrder_descend fuel' current stack;
      match last stack with
      | None => fail IndexOutOfRange
      | Some current =>
        let stack := removelast stack in
        v ← get_Value current;
        let '(continue, c) := yield v c in
        if continue then
          cr ← get_right current;
          inOrder_loop fuel cr stack c
        else ret c
      end
    else ret c
  end.

Definition inOrderIter (c : C) : M C :=
  r ← get_root;
  fuel ← get_fuel;
  inOrder_loop fuel r [] c.

Fixpoint preOrder_loop (fuel : nat) (stack : list nat) (c : C) : M C :=
  match fuel with
  | 0 => fail OutOfFuel
  | S fuel =>
    match last stack with
    | None => ret c
    | Some node =>
      let stack := removelast stack in
      v ← get_Value node;
      let '(continue, c) := yield v c in
      if continue then
        nl ← get_nil;
        nr ← get_right node;
        let stack := if negb (nr =? nl) then stack ++ [nr] else stack in
        nlf ← get_left node;
        let stack := if negb (nlf =? nl) then stack ++ [nlf] else stack in
        preOrder_loop fuel stack c
      else ret c
    end
  end.

Definition preOrderIter (c : C) : M C :=
  r ← get_root;
  nl ← get_nil;
  if r =? nl then ret c else
  fuel ← get_fuel;
  preOrder_loop fuel [r] c.

Fixpoint postOrder_loop (fuel : nat) (current : nat) (stack : list nat)
    (lastVisit : nat) (c : C) : M C :=
  match fuel with
  | 0 => fail OutOfFuel
  | S fuel =>
    nl ← get_nil;
    if (0 <? length stack) || negb (current =? nl) then
      if negb (current =? nl) then
        cl ← get_left current;
        postOrder_loop fuel cl (stack ++ [current]) lastVisit c
      else
        match last stack with
        | None => fail IndexOutOfRange
        | Some peekNode =>
          pr ← get_right peekNode;
          if negb (pr =? nl) && negb (lastVisit =? pr) then
            postOrder_loop fuel pr stack lastVisit c
          else
            v ← get_Value peekNode;
            let '(continue, c) := yield v c in
            if continue then
              postOrder_loop fuel current (removelast stack) peekNode c
            else ret c
        end
    else ret c
  end.

Definition postOrderIter (c : C) : M C :=
  r ← get_root;
  nl ← get_nil;
  if r =? nl then ret c else
  fuel ← get_fuel;
  postOrder_loop (3 * fuel) r [] 0 c.

Fixpoint levelOrder_loop (fuel : nat) (queue : list nat) (c : C) : M C :=
  match fuel with
  | 0 => fail OutOfFuel
  | S fuel =>
    match queue with
    | [] => ret c
    | node :: queue =>
      v ← get_Value node;
      let '(continue, c) := yield v c in
      if continue then
        nl ← get_nil;
        nlf ← get_left node;
        let queue := if negb (nlf =? nl) then queue ++ [nlf] else queue in
        nr ← get_right node;
        let queue := if negb (nr =? nl) then queue ++ [nr] else queue in
        levelOrder_loop fuel queue c
      else ret c
    end
  end.

Definition levelOrderIter (c : C) : M C :=
  r ← get_root;
  nl ← get_nil;
  if r =? nl then ret c else
  fuel ← get_fuel;
  levelOrder_loop fuel [r] c.

(** [Iterate]: the method is chosen before the traversal starts. *)
Definition Iterate (method : IterationMethod) (c : C) : M C :=
  match method with
  | 0%Z => inOrderIter c
  | 1%Z => preOrderIter c
  | 2%Z => postOrderIter c
  | 3%Z => levelOrderIter c
  | _ => fail (Panic "unknown iteration method")
  end.

End Iterators.

(** The consumer of the tests ([runIterator]): it appends every value to a
    slice and never stops the traversal. *)
Definition collect (v : T) (out : list T) : bool * list T := (true, out ++ [v]).

End Model.

Arguments Ok {T A} a s.
Arguments Fault {T A} f s.

Arguments mkNode {T} ncolor parent left right Value.
Arguments mkTree {T} root nil_ heap next.

(** * The vocabulary of the proofs

    The heap of a state is read as a binary tree whose nodes carry their
    addresses; a position in the tree is a subtree together with the path
    from it to the root. *)

(** ** Trees with addresses, and paths *)

Section Trees.

Context {T : Type}.

(** A tree whose nodes remember the pointer they live at. *)
Inductive tree :=
| E
| N (a : nat) (c : color) (l : tree) (v : T) (r : tree).

(** One step of a path from a subtree up to the root: the node above and
    the sibling subtree. *)
Inductive frame :=
| FL (a : nat) (c : color) (v : T) (r : tree)
| FR (a : nat) (c : color) (l : tree) (v : T).

(** The pointer to a tree: the address of its root, or the sentinel [nl]
    for the empty tree. *)
Definition ptr (nl : nat) (t : tree) : nat :=
  match t with E => nl | N a _ _ _ _ => a end.

(** The colour of the root; the empty tree counts as black. *)
Definition color_of (t : tree) : color :=
  match t with E => black | N _ c _ _ _ => c end.

(** The addresses and the values of a tree, from left to right. *)
Fixpoint addrs (t : tree) : list nat :=
  match t with
  | E => []
  | N a _ l _ r => addrs l ++ a :: addrs r
  end.

Fixpoint elems (t : tree) : list T :=
  match t with
  | E => []
  | N _ _ l v r => elems l ++ v :: elems r
  end.

(** A path is the list of its steps, the innermost first; [plug t k] is
    the whole tree, with [t] in the hole of [k]. *)
Definition fill (f : frame) (t : tree) : tree :=
  match f with
  | FL a c v r => N a c t v r
  | FR a c l v => N a c l v t
  end.

Fixpoint plug (t : tree) (k : list frame) : tree :=
  match k with
  | [] => t
  | f :: k => plug (fill f t) k
  end.

(** The node of a step: its address and its colour; the address of the
    node just above the hole (Go's nil above the root). *)
Definition faddr (f : frame) : nat :=
  match f with FL a _ _ _ => a | FR a _ _ _ => a end.

Definition fcolor (f : frame) : color :=
  match f with FL _ c _ _ => c | FR _ c _ _ => c end.

Definition top (k : list frame) : nat :=
  match k with [] => 0 | f :: _ => faddr f end.

(** Pointers and values of a path, split into what lies before and what
    lies after the hole in the in-order sequence. *)
Fixpoint kaddrs_l (k : list frame) : list nat :=
  match k with
  | [] => []
  | FL _ _ _ _ :: k => kaddrs_l k
  | FR a _ l _ :: k => kaddrs_l k ++ addrs l ++ [a]
  end.

Fixpoint kaddrs_r (k : list frame) : list nat :=
  match k with
  | [] => []
  | FL a _ _ r :: k => a :: addrs r ++ kaddrs_r k
  | FR _ _ _ _ :: k => kaddrs_r k
  end.

Fixpoint kelems_l (k : list frame) : list T :=
  match k with
  | [] => []
  | FL _ _ _ _ :: k => kelems_l k
  | FR _ _ l v :: k => kelems_l k ++ elems l ++ [v]
  end.

Fixpoint kelems_r (k : list frame) : list T :=
  match k with
  | [] => []
  | FL _ _ v r :: k => v :: elems r ++ kelems_r k
  | FR _ _ _ _ :: k => kelems_r k
  end.

(** All the addresses of a path. *)
Definition kaddrs (k : list frame) : list nat := kaddrs_l k ++ kaddrs_r k.

(** The sibling subtree of a step, and the cell of its node when the
    hole holds the pointer [child] and the node above is [par]. *)
Definition fsib (f : frame) : tree :=
  match f with FL _ _ _ r => r | FR _ _ l _ => l end.

Definition fcell (nl : nat) (f : frame) (child par : nat) : @Node T :=
  match f with
  | FL _ c v r => mkNode c par child (ptr nl r) v
  | FR _ c l v => mkNode c par (ptr nl l) child v
  end.

(** The pointer at the root when [child] is the pointer in the hole. *)
Fixpoint kroot (child : nat) (k : list frame) : nat :=
  match k with
  | [] => child
  | f :: k => kroot (faddr f) k
  end.

(** [repr h nl t par]: every node of [t] sits in [h] at its pointer, with
    the colour, value and child pointers of the tree (the sentinel [nl]
    for an empty child) and with the pointer of the node above as parent
    ([par] for the root of [t]). *)
Fixpoint repr (h : gmap nat (@Node T)) (nl : nat) (t : tree) (par : nat) : Prop :=
  match t with
  | E => True
  | N a c l v r =>
    h !! a = Some (mkNode c par (ptr nl l) (ptr nl r) v)
    ∧ repr h nl l a ∧ repr h nl r a
  end.

(** The same for a path: [child] is the pointer in the hole. *)
Fixpoint reprk (h : gmap nat (@Node T)) (nl : nat) (k : list frame) (child : nat) : Prop :=
  match k with
  | [] => True
  | f :: k =>
    h !! faddr f = Some (fcell nl f child (top k))
    ∧ repr h nl (fsib f) (faddr f) ∧ reprk h nl k (faddr f)
  end.

(** [agree ms h h']: the heaps differ at most at the pointers of [ms]. *)
Definition agree (ms : list nat) (h h' : gmap nat (@Node T)) : Prop :=
  ∀ a, a ∉ ms → h' !! a = h !! a.

End Trees.

Arguments E {T}.

(** ** States that hold a tree *)

Section Representation.

Context {T : Type}.
Variable zero : T.
Implicit Types (s : @RBTree T) (t l r : @tree T) (k : list (@frame T)).

(** [Rep s t]: the heap of [s] holds exactly the tree [t] below [root],
    every absent child is the (black, childless) sentinel, node pointers
    are pairwise different, and nothing is allocated at Go's nil or past
    the allocation counter. *)
Record Rep s t : Prop := mkRep {
  rep_root : root s = ptr (nil_ s) t;
  rep_tree : repr (heap s) (nil_ s) t 0;
  rep_nodup : NoDup (addrs t);
  rep_nil : ∃ sp, heap s !! nil_ s = Some (mkNode black sp 0 0 zero);
  rep_nil_fresh : nil_ s ∉ addrs t;
  rep_null : heap s !! 0 = None;
  rep_next : ∀ a, next s ≤ a → heap s !! a = None
}.

(** The parent field of the sentinel (scratch space of [transplant]). *)
Definition nilpar s : nat :=
  match heap s !! nil_ s with Some n => parent n | None => 0 end.

(** What the node-level steps leave alone. *)
Definition same s s' : Prop :=
  nil_ s' = nil_ s ∧ next s' = next s ∧ nilpar s' = nilpar s.

(** The state after a store at [p]. *)
Definition upd s (p : nat) (n : @Node T) : RBTree :=
  mkTree (root s) (nil_ s) (<[p := n]> (heap s)) (next s).

End Representation.

(** ** Shapes *)

Section Shapes.

Context {T : Type}.
Implicit Types (t l r : @tree T) (k : list (@frame T)).

(** [rbt t n]: no red node of [t] has a red child, and every path from the
    root of [t] down to an absent child meets [n] black nodes. *)
Fixpoint rbt t (n : nat) : Prop :=
  match t with
  | E => n = 0
  | N _ red l _ r => color_of l = black ∧ color_of r = black ∧ rbt l n ∧ rbt r n
  | N _ black l _ r =>
    match n with
    | 0 => False
    | S m => rbt l m ∧ rbt r m
    end
  end.

(** The same tree with a black root. *)
Definition blacken t : tree :=
  match t with
  | E => E
  | N a _ l v r => N a black l v r
  end.

(** The node just above the hole is black (or there is none). *)
Definition head_black k : Prop :=
  match k with [] => True | f :: _ => fcolor f = black end.

(** There is a node just above the hole, and it is black. *)
Definition top_black k : Prop :=
  match k with [] => False | f :: _ => fcolor f = black end.

(** [ctx_ok k n]: the path [k] is that of a red-black tree with a black
    root whose hole wants a subtree of black height [n]; nothing is asked
    of the colour in the hole. *)
Fixpoint ctx_ok k (n : nat) : Prop :=
  match k with
  | [] => True
  | f :: k' =>
    rbt (fsib f) n ∧
    match fcolor f with
    | black => ctx_ok k' (S n)
    | red => color_of (fsib f) = black ∧ top_black k' ∧ ctx_ok k' n
    end
  end.

(** What the fix-up expects of the node it starts from: a black subtree
    one black node short, or a red node that only needs blackening. *)
Definition deficit t (n : nat) : Prop :=
  match color_of t with
  | black => rbt t n
  | red => rbt (blacken t) (S n)
  end.

(** The number of nodes on the longest way down. *)
Fixpoint height t : nat :=
  match t with
  | E => 0
  | N _ _ l _ r => S (Nat.max (height l) (height r))
  end.

(** The leftmost node of a tree and the path that leads to it. *)
Fixpoint lm_node t : tree :=
  match t with
  | N _ _ (N _ _ _ _ _ as l) _ _ => lm_node l
  | _ => t
  end.

Fixpoint lm_path t k : list (@frame T) :=
  match t with
  | N a c (N _ _ _ _ _ as l) v r => lm_path l (FL a c v r :: k)
  | _ => k
  end.

(** A path that only goes through left children. *)
Definition all_left k : Prop :=
  Forall (λ f, match f with FL _ _ _ _ => True | _ => False end) k.

(** The rightmost node of a tree. *)
Fixpoint rm_node t : tree :=
  match t with
  | N _ _ _ _ (N _ _ _ _ _ as r) => rm_node r
  | _ => t
  end.

(** The stack of the iterator holds the nodes whose left subtree is being
    visited: the [FL] frames of the path, the outermost first. *)
Fixpoint fl_addrs k : list nat :=
  match k with
  | [] => []
  | FL a _ _ _ :: k => a :: fl_addrs k
  | FR _ _ _ _ :: k => fl_addrs k
  end.

(** The path that the inner loop builds below [t]. *)
Fixpoint spine t k : list (@frame T) :=
  match t with
  | E => k
  | N a c l v r => spine l (FL a c v r :: k)
  end.

End Shapes.

(** ** The comparator and the order of the values *)

(** What the tree asks of [compare]: its sign is that of a strict total
    order up to the equivalence [compare a b = 0]. *)
Record comparator {T : Type} (compare : T → T → Z) : Prop := mkComparator {
  compare_anti : ∀ a b, (compare a b < 0 ↔ 0 < compare b a)%Z;
  compare_trans : ∀ a b c, (compare a b ≤ 0 → compare b c ≤ 0 → compare a c ≤ 0)%Z
}.

Section Orders.

Context {T : Type}.
Variable compare : T → T → Z.
Implicit Types (t l r : @tree T) (k : list (@frame T)) (v u x y : T) (es : list T).

(** [x] is smaller than [y]; a list in strictly ascending order. *)
Definition klt x y : Prop := (compare x y < 0)%Z.

Definition sorted (es : list T) : Prop := StronglySorted klt es.

(** The least and the greatest value of a list, and two values that
    follow each other in the order. *)
Definition minimum es x : Prop := x ∈ es ∧ ∀ z, z ∈ es → ¬ klt z x.

Definition maximum es x : Prop := x ∈ es ∧ ∀ z, z ∈ es → ¬ klt x z.

Definition adjacent es x y : Prop :=
  x ∈ es ∧ y ∈ es ∧ klt x y ∧ ∀ z, z ∈ es → ¬ (klt x z ∧ klt z y).

(** The place [Insert] finds for [v]: the path to the absent child where
    the descent ends, or nothing when it meets a value equal to [v]. *)
Fixpoint ins_path (v : T) t k : option (list (@frame T)) :=
  match t with
  | E => Some k
  | N a c l x r =>
    if (compare v x <? 0)%Z then ins_path v l (FL a c x r :: k)
    else if (0 <? compare v x)%Z then ins_path v r (FR a c l x :: k)
    else None
  end.

(** The node [Search] ends on: the first node of the descent whose value
    equals [v] for the comparator, with the path to it. *)
Fixpoint find_path (v : T) t k : option (@tree T * list (@frame T)) :=
  match t with
  | E => None
  | N a c l x r =>
    if (compare v x <? 0)%Z then find_path v l (FL a c x r :: k)
    else if (0 <? compare v x)%Z then find_path v r (FR a c l x :: k)
    else Some (t, k)
  end.

(** The pointer [Search] returns. *)
Definition found (o : option (@tree T * list (@frame T))) : nat :=
  match o with
  | Some (t, _) => ptr 0 t
  | None => 0
  end.

End Orders.

(** ** The invariants of the data model *)

Section Invariants.

Context {T : Type}.
Variable compare : T → T → Z.
Variable zero : T.
Implicit Types (s : @RBTree T) (t l r : @tree T).
Local Abbreviation Rep := (Rep zero).
Local Abbreviation klt := (klt compare).

(** 1. Search-tree order: at every node the values of the left subtree
    are smaller and those of the right subtree are greater. *)
Fixpoint bst t : Prop :=
  match t with
  | E => True
  | N _ _ l v r =>
    Forall (λ x, klt x v) (elems l) ∧ Forall (klt v) (elems r) ∧ bst l ∧ bst r
  end.

(** 2. and 3. The root and the sentinel are black, as the memory has them. *)
Definition black_root s : Prop := ∃ n, heap s !! root s = Some n ∧ ncolor n = black.

Definition black_sentinel s : Prop := ∃ n, heap s !! nil_ s = Some n ∧ ncolor n = black.

(** 4. No red node has a red child. *)
Fixpoint no_red_red t : Prop :=
  match t with
  | E => True
  | N _ c l _ r =>
    (c = red → color_of l = black ∧ color_of r = black) ∧ no_red_red l ∧ no_red_red r
  end.

(** 5. The numbers of black nodes met on the paths from the root of [t]
    down to an absent child, one number for each path; they are all the
    same, at every node. *)
Fixpoint black_counts t : list nat :=
  match t with
  | E => [0]
  | N _ c l _ r =>
    map (λ n, match c with black => S n | red => n end)
        (black_counts l ++ black_counts r)
  end.

Fixpoint uniform_black t : Prop :=
  match t with
  | E => True
  | N _ _ l _ r =>
    (∀ x y, x ∈ black_counts t → y ∈ black_counts t → x = y)
    ∧ uniform_black l ∧ uniform_black r
  end.

(** 6. No two nodes hold values that are equal for the comparator. *)
Definition no_duplicates t : Prop :=
  ∀ i j x y, i ≠ j → elems t !! i = Some x → elems t !! j = Some y → compare x y ≠ 0%Z.

(** The six together, for the tree that the state holds. *)
Definition invariants s : Prop :=
  ∃ t, Rep s t ∧ bst t ∧ black_root s ∧ black_sentinel s
    ∧ no_red_red t ∧ uniform_black t ∧ no_duplicates t.

End Invariants.

(** ** What the proofs carry along *)

Section States.

Context {T : Type}.
Variable compare : T → T → Z.
Variable zero : T.
Implicit Types (s : @RBTree T) (t l r : @tree T) (k : list (@frame T)).
Local Abbreviation Rep := (Rep zero).
Local Abbreviation sorted := (sorted compare).

(** The state of a tree that holds the values [present]. *)
Definition Good s (present : list T) : Prop :=
  ∃ t m, Rep s t ∧ rbt t m ∧ color_of t = black ∧ sorted (elems t) ∧ elems t ≡ₚ present.

(** [a] is a node of the tree and holds [x]. *)
Definition is_node s t (a : nat) (x : T) : Prop :=
  (a ∈ addrs t) ∧ ∃ n, heap s !! a = Some n ∧ Value n = x.

(** The result of unlinking a node when no fix-up is due, or after it. *)
Definition del_post s (s' : @RBTree T) (t' : @tree T) (es : list T) : Prop :=
  Rep s' t' ∧ (∃ m', rbt t' m') ∧ color_of t' = black ∧ elems t' = es
  ∧ nil_ s' = nil_ s ∧ next s' = next s.

End States.

(** ** Sequences of [Insert] and [Delete] calls *)

Inductive op {T : Type} : Type :=
  | OpInsert (v : T)
  | OpDelete (v : T).
Arguments op : clear implicits.

Section Histories.

Context {T : Type}.
Variable compare : T → T → Z.
Implicit Types (s : @RBTree T) (present vs : list T) (o : op T) (ops : list (op T)).

(** One call, and a sequence of calls; what a call returns is dropped. *)
Definition run_op o : M unit :=
  match o with
  | OpInsert v => Insert compare v ≫= λ _, ret tt
  | OpDelete v => Delete compare v ≫= λ _, ret tt
  end.

Fixpoint run ops : M unit :=
  match ops with
  | [] => ret tt
  | o :: ops => run_op o ≫= λ _, run ops
  end.

(** The values a tree holds, call after call. *)
Definition model_step present o : list T :=
  match o with
  | OpInsert v => v :: present
  | OpDelete v => filter (λ x, compare v x ≠ 0%Z) present
  end.

Definition model ops : list T := fold_left model_step ops [].

(** A sequence of calls never inserts a value equal to one that the tree
    holds at that point. *)
Fixpoint valid_ops present ops : Prop :=
  match ops with
  | [] => True
  | o :: ops =>
    match o with
    | OpInsert v => Forall (λ u, compare v u ≠ 0%Z) present
    | OpDelete _ => True
    end ∧ valid_ops (model_step present o) ops
  end.

(** The values of a list are pairwise different for the comparator. *)
Fixpoint distinct (vs : list T) : Prop :=
  match vs with
  | [] => True
  | v :: vs => Forall (λ u, compare u v ≠ 0%Z) vs ∧ distinct vs
  end.

(** Both are decidable. *)
#[global] Instance valid_ops_dec present ops : Decision (valid_ops present ops).
Proof.
  revert present. induction ops as [|o ops IH]; intros present; simpl.
  - apply _.
  - destruct o; apply and_dec; try apply _.
Defined.

#[global] Instance distinct_dec vs : Decision (distinct vs).
Proof. induction vs as [|v vs IH]; simpl; apply _. Defined.

End Histories.

(** ** Consumers of a traversal *)

Section Consumers.

Context {T C : Type}.
Variable yield : T → C → bool * C.
Implicit Types (c : C).

(** What a traversal that meets the values [vs] makes of the consumer:
    it stops as soon as [yield] says so. *)
Fixpoint visit (vs : list T) c : C :=
  match vs with
  | [] => c
  | v :: vs => let '(continue, c') := yield v c in if continue then visit vs c' else c'
  end.

End Consumers.

(** ** A tree of integers *)

(** [cmp.Compare] on integers, the comparator of the tests. *)
Definition cmp_Compare (a b : Z) : Z :=
  match (a ?= b)%Z with
  | Lt => (-1)%Z
  | Eq => 0%Z
  | Gt => 1%Z
  end.

(** The tree after [Insert(2); Insert(1); Insert(3)]: the root at address
    2, its children at 3 and 4, the sentinel at 1. *)
Definition example_ops : list (op Z) := [OpInsert 2%Z; OpInsert 1%Z; OpInsert 3%Z].

Definition example_state : @RBTree Z :=
  mkTree 2 1
    (<[4 := mkNode red 2 1 1 3%Z]>
       (<[3 := mkNode red 2 1 1 1%Z]>
          (<[2 := mkNode black 0 3 4 2%Z]>
             {[1 := mkNode black 0 0 0 0%Z]}))) 5.

Definition example_tree : @tree Z :=
  N 2 black (N 3 red E 1%Z E) 2%Z (N 4 red E 3%Z E).

(** A node that no tree holds, next to an empty tree. *)
Definition foreign_state : @RBTree Z :=
  mkTree 1 1 (<[2 := mkNode black 0 0 0 7%Z]> {[1 := mkNode black 0 0 0 0%Z]}) 3.

(** The value a run returns, if it returns. *)
Definition value_of {T A : Type} (r : @result T A) : option A :=
  match r with
  | Ok a _ => Some a
  | Fault _ _ => None
  end.

(** [Insert] of 1 to 10, then [Iterate(method)] with the consumer of the tests. *)
Definition one_to_ten : list Z := [1; 2; 3; 4; 5; 6; 7; 8; 9; 10]%Z.

Definition iterate_one_to_ten (method : IterationMethod) : option (list Z) :=
  value_of ((run cmp_Compare (map OpInsert one_to_ten)
               ≫= λ _, Iterate collect method []) (New 0%Z)).

(** ** Lists without repetition, by segments *)

(** The lists [segs], one after the other, repeat no address. *)
Definition ND (segs : list (list nat)) : Prop := NoDup (concat segs).

(** ** The state a run ends in *)

(** The state when a method returns, or when it panics. *)
Definition final {T A : Type} (r : @result T A) : @RBTree T :=
  match r with
  | Ok _ s => s
  | Fault _ s => s
  end.

(** ** What a method leaves as it is *)

Section Preservation.

Context {T : Type}.
Implicit Types (s : @RBTree T).

(** [keeps R m]: whatever the state [m] starts in, the state it ends in,
    by returning or by panicking, is related to it by [R]. *)
Definition keeps (R : relation (@RBTree T)) {A : Type} (m : M A) : Prop :=
  ∀ s, R s (final (m s)).

(** Nothing is allocated at or past the allocation counter: the next
    node of [alloc] is a new one. *)
Definition well_allocated s : Prop := ∀ a, next s ≤ a → heap s !! a = None.

(** From [s] to [s'] every node stays allocated and keeps its value (and
    the allocator stays sound). *)
(** Every node of [s] is still a node of [s'], with the value it had. *)
Definition values_kept s s' : Prop :=
  ∀ a n, heap s !! a = Some n → ∃ n', heap s' !! a = Some n' ∧ Value n' = Value n.

Definition same_values s s' : Prop :=
  well_allocated s → well_allocated s' ∧ next s ≤ next s' ∧ values_kept s s'.

End Preservation.

(** ** The orders of the traversals *)

Section Traversals.
Context {T : Type}.
Implicit Types (t l r u : @tree T) (us : list (@tree T)) (k : list (@frame T)).

(** A node, then its left subtree, then its right subtree. *)
Fixpoint preorder t : list T :=
  match t with
  | E => []
  | N _ _ l v r => v :: preorder l ++ preorder r
  end.

(** The left subtree, then the right one, then the node. *)
Fixpoint postorder t : list T :=
  match t with
  | E => []
  | N _ _ l v r => postorder l ++ postorder r ++ [v]
  end.

(** The values at depth [n], from left to right; the traversal by levels
    goes through the depths from the root down. *)
Fixpoint level (n : nat) t {struct t} : list T :=
  match t with
  | E => []
  | N _ _ l v r =>
    match n with
    | 0 => [v]
    | S n => level n l ++ level n r
    end
  end.

Definition levelorder t : list T :=
  concat (map (λ n, level n t) (seq 0 (height t))).

(** The same for a row of trees: the stack of the pre-order iterator and
    the queue of the level-order iterator hold the roots of such a row. *)
Definition nonempty t : list (@tree T) :=
  match t with E => [] | N _ _ _ _ _ => [t] end.

Definition children t : list (@tree T) :=
  match t with E => [] | N _ _ l _ r => nonempty l ++ nonempty r end.

Definition root_value t : list T :=
  match t with E => [] | N _ _ _ v _ => [v] end.

Definition kids us : list (@tree T) := concat (map children us).
Definition root_values us : list T := concat (map root_value us).
Definition preorders us : list T := concat (map preorder us).
Definition levels (n : nat) us : list T := concat (map (level n) us).
Fixpoint heights us : nat :=
  match us with
  | [] => 0
  | u :: us => Nat.max (height u) (heights us)
  end.
Definition levelorders us : list T :=
  concat (map (λ n, levels n us) (seq 0 (heights us))).
Fixpoint sizes us : nat :=
  match us with
  | [] => 0
  | u :: us => length (addrs u) + sizes us
  end.

(** What the post-order iterator still owes for the nodes of a path: the
    right subtree and the node for a step from the left, the node for a
    step from the right; the pointers of these nodes; and the number of
    rounds of the loop they take. *)
Fixpoint postorder_rest k : list T :=
  match k with
  | [] => []
  | FL _ _ v r :: k => postorder r ++ v :: postorder_rest k
  | FR _ _ _ v :: k => v :: postorder_rest k
  end.

Fixpoint pending k : list nat :=
  match k with
  | [] => []
  | FL a _ _ r :: k => a :: addrs r ++ pending k
  | FR a _ _ _ :: k => a :: pending k
  end.

Fixpoint rounds k : nat :=
  match k with
  | [] => 0
  | FL _ _ _ r :: k => 3 * length (addrs r) + 2 + rounds k
  | FR _ _ _ _ :: k => 1 + rounds k
  end.

(** What [lastVisit] is when the subtree [u] has just been left: its
    root, or for an empty subtree a pointer that is none of the nodes to
    come. *)
Definition left_behind u k (lv : nat) : Prop :=
  match u with
  | E => lv ∉ pending k
  | N b _ _ _ _ => lv = b
  end.

End Traversals.

(** [located s u]: the tree of [s] has [u] as one of its subtrees. *)
Definition located {T : Type} (zero : T) (s : @RBTree T) (u : @tree T) : Prop :=
  ∃ k, Rep zero s (plug u k).

(** ** The stack of the in-order iterator

    [Iterate] returns the method value [iterator.Iterate]: the function
    it returns holds on to the iterator record, and [i.stack] is what the
    last run has left there.  [inOrder_resume] is the loop of
    [inOrderIter.Iterate] once more, together with the stack it ends on;
    [inOrderIter_stack] is one run of the returned function on the stack
    of the run before (the empty stack for the first run). *)

Section Resumption.
Context {T C : Type}.
Variable yield : T → C → bool * C.

Fixpoint inOrder_resume (fuel : nat) (current : nat) (stack : list nat) (c : C)
  : M (list nat * C) :=
  match fuel with
  | 0 => fail OutOfFuel
  | S fuel =>
    nl ← get_nil;
    if negb (current =? nl) || (0 <? length stack) then
      fuel' ← get_fuel;
      stack ← inOrder_descend fuel' current stack;
      match last stack with
      | None => fail IndexOutOfRange
      | Some current =>
        let stack := removelast stack in
        v ← get_Value current;
        let '(continue, c) := yield v c in
        if continue then
          cr ← get_right current;
          inOrder_resume fuel cr stack c
        else ret (stack, c)
      end
    else ret (stack, c)
  end.

Definition inOrderIter_stack (stack : list nat) (c : C) : M (list nat * C) :=
  r ← get_root;
  fuel ← get_fuel;
  inOrder_resume ((1 + length stack) * fuel) r stack c.

(** Whether the consumer ends a traversal of [vs] before its end. *)
Fixpoint stops (vs : list T) (c : C) : bool :=
  match vs with
  | [] => false
  | v :: vs => let '(continue, c') := yield v c in if continue then stops vs c' else true
  end.

End Resumption.

(** The nodes on the leftmost branch of a tree, the lowest first; and
    what a stack of nodes still stands for: for each node its value and
    the values of its right subtree. *)
Fixpoint left_spine {T : Type} (t : @tree T) : list (@tree T) :=
  match t with
  | E => []
  | N _ _ l _ _ => left_spine l ++ [t]
  end.

Definition pending_values {T : Type} (p : @tree T) : list T :=
  match p with
  | E => []
  | N _ _ _ v r => v :: elems r
  end.

Definition pendings {T : Type} (ps : list (@tree T)) : list T :=
  concat (map pending_values ps).

(** * The methods, run on a state that holds a tree

    Every method is followed on a state [s] with [Rep s t]: the pointers it
    reads are those of [t], and what it writes gives a state that holds the
    tree the method is meant to build. *)

(** ** Pairwise different pointers

    The pointers of a tree are kept as one duplicate-free list, cut into
    segments (single pointers and the pointer lists of whole subtrees).  Two
    different segments share no pointer; the tactic [nd] proves such facts
    by looking the two segments up. *)

Lemma ND_disjoint segs i j l1 l2 x :
  ND segs → segs !! i = Some l1 → segs !! j = Some l2 → (i =? j) = false →
  x ∈ l1 → x ∈ l2 → False.
Proof.
  unfold ND. intros Hnd Hi Hj Hij%Nat.eqb_neq H1 H2.
  assert (Hlt : ∀ segs i j l1 l2, NoDup (concat segs) → segs !! i = Some l1 →
            segs !! j = Some l2 → i < j → x ∈ l1 → x ∈ l2 → False).
  { clear. induction segs as [|l segs IH]; intros i j l1 l2 Hnd Hi Hj Hlt H1 H2; [done|].
    simpl in Hnd. apply NoDup_app in Hnd as (_ & Hdis & Hnd).
    destruct j as [|j]; [lia|]. destruct i as [|i]; simpl in *.
    - injection Hi as ->. apply (Hdis x H1).
      apply list_elem_of_In, in_concat. exists l2. split.
      + apply list_elem_of_In. by eapply list_elem_of_lookup_2.
      + by apply list_elem_of_In.
    - eapply (IH i j); eauto. lia. }
  destruct (decide (i < j)); [by eapply (Hlt segs i j)|].
  eapply (Hlt segs j i); eauto. lia.
Qed.

Lemma ND_neq segs i j x y :
  ND segs → segs !! i = Some [x] → segs !! j = Some [y] → (i =? j) = false → x ≠ y.
Proof.
  intros Hnd Hi Hj Hij ->. eapply (ND_disjoint segs i j); eauto; apply list_elem_of_here.
Qed.

Lemma ND_notin segs i j x l :
  ND segs → segs !! i = Some [x] → segs !! j = Some l → (i =? j) = false → x ∉ l.
Proof.
  intros Hnd Hi Hj Hij Hin. eapply (ND_disjoint segs i j); eauto. apply list_elem_of_here.
Qed.

Lemma ND_disj segs i j l1 l2 :
  ND segs → segs !! i = Some l1 → segs !! j = Some l2 → (i =? j) = false →
  ∀ x, x ∈ l1 → x ∉ l2.
Proof. intros Hnd Hi Hj Hij x H1 H2. eapply (ND_disjoint segs i j); eauto. Qed.

Lemma ND_nodup segs i l : ND segs → segs !! i = Some l → NoDup l.
Proof.
  unfold ND. revert i. induction segs as [|l' segs IH]; intros i Hnd Hi; [done|].
  simpl in Hnd. apply NoDup_app in Hnd as (? & _ & ?).
  destruct i; simpl in *; [by injection Hi as <-|by eapply IH].
Qed.

Lemma disj_nil (l : list nat) : ∀ x, x ∈ l → x ∉ @nil nat.
Proof. intros x _ H. by apply elem_of_nil in H. Qed.

Lemma disj_cons (l ms : list nat) (a : nat) :
  a ∉ l → (∀ x, x ∈ l → x ∉ ms) → ∀ x, x ∈ l → x ∉ a :: ms.
Proof. intros Ha Hms x Hx [->|Hin]%elem_of_cons; [done|by eapply Hms]. Qed.

Lemma notin_nil (x : nat) : x ∉ @nil nat.
Proof. apply not_elem_of_nil. Qed.

Lemma notin_cons (x a : nat) ms : x ≠ a → x ∉ ms → x ∉ a :: ms.
Proof. intros ? ? [->|?]%elem_of_cons; done. Qed.

Lemma notin_app (x : nat) l1 l2 : x ∉ l1 → x ∉ l2 → x ∉ l1 ++ l2.
Proof. intros ? ? [?|?]%elem_of_app; done. Qed.

Lemma disj_app_l (l1 l2 ms : list nat) :
  (∀ x, x ∈ l1 → x ∉ ms) → (∀ x, x ∈ l2 → x ∉ ms) → ∀ x, x ∈ l1 ++ l2 → x ∉ ms.
Proof. intros H1 H2 x [?|?]%elem_of_app; auto. Qed.

Lemma disj_cons_l (a : nat) (l ms : list nat) :
  a ∉ ms → (∀ x, x ∈ l → x ∉ ms) → ∀ x, x ∈ a :: l → x ∉ ms.
Proof. intros H1 H2 x [->|?]%elem_of_cons; auto. Qed.

(** The segments of a list expression. *)
Ltac segs_cat ra rb :=
  lazymatch ra with
  | ?x :: ?rest => let r := segs_cat rest rb in constr:(x :: r)
  | _ => rb
  end.

Ltac segs_of L :=
  lazymatch L with
  | ?a ++ ?b =>
    let ra := segs_of a in
    let rb := segs_of b in
    segs_cat ra rb
  | ?a :: ?b => let rb := segs_of b in constr:([a] :: rb)
  | [] => constr:(@nil (list nat))
  | ?x => constr:([x])
  end.

Ltac seg_index x segs :=
  lazymatch segs with
  | x :: _ => constr:(0)
  | _ :: ?rest => let n := seg_index x rest in constr:(S n)
  end.

(** [nd_reify H]: turns [H : NoDup L] into [H : ND segs]. *)
Ltac nd_reify H :=
  lazymatch type of H with
  | NoDup ?L =>
    let segs := segs_of L in
    let Heq := fresh in
    assert (Heq : L = concat segs)
      by (cbn [concat]; repeat (rewrite <- ?app_assoc, ?app_nil_r; cbn [app]); reflexivity);
    rewrite Heq in H; clear Heq;
    change (NoDup (concat segs)) with (ND segs) in H
  end.

Ltac nd_atom :=
  lazymatch goal with
  | H : ND ?segs |- ?x ≠ ?y =>
    let i := seg_index constr:([x]) segs in
    let j := seg_index constr:([y]) segs in
    exact (ND_neq segs i j x y H eq_refl eq_refl eq_refl)
  | H : ND ?segs |- ?x ∉ ?l =>
    let i := seg_index constr:([x]) segs in
    let j := seg_index l segs in
    exact (ND_notin segs i j x l H eq_refl eq_refl eq_refl)
  | H : ND ?segs |- ∀ y, y ∈ ?l1 → y ∉ ?l2 =>
    let i := seg_index l1 segs in
    let j := seg_index l2 segs in
    exact (ND_disj segs i j l1 l2 H eq_refl eq_refl eq_refl)
  | H : ND ?segs |- NoDup ?l =>
    let i := seg_index l segs in
    exact (ND_nodup segs i l H eq_refl)
  end.

Ltac nd :=
  lazymatch goal with
  | |- _ ∉ [] => apply notin_nil
  | |- _ ∉ _ :: _ => apply notin_cons; nd
  | |- _ ∉ _ ++ _ => apply notin_app; nd
  | |- ∀ y, y ∈ _ → y ∉ [] => apply disj_nil
  | |- ∀ y, y ∈ _ ++ _ → y ∉ _ => apply disj_app_l; nd
  | |- ∀ y, y ∈ _ :: _ → y ∉ _ => apply disj_cons_l; nd
  | |- ∀ y, y ∈ [] → y ∉ _ => let H := fresh in intros ? H; by apply elem_of_nil in H
  | |- ∀ y, y ∈ _ → y ∉ _ :: _ => apply disj_cons; nd
  | |- _ => nd_atom
  end.

(** Equalities between concatenations, up to associativity. *)
Ltac list_norm :=
  repeat first [ rewrite <- app_assoc | rewrite <- app_comm_cons
               | rewrite app_nil_r | rewrite app_nil_l ].
Ltac solve_list_eq := simpl; list_norm; reflexivity.

Lemma NoDup_sub (l k : list nat) : l ⊆+ k → NoDup k → NoDup l.
Proof.
  intros (k' & Hk')%submseteq_Permutation Hnd.
  rewrite Hk' in Hnd. by apply NoDup_app in Hnd as (? & _).
Qed.

(** The pointers of a changed tree are among old ones: they are still
    pairwise different, and different from the sentinel. *)
Lemma fresh_sub (nl : nat) (new big : list nat) :
  NoDup (nl :: big) → new ⊆+ big → NoDup new ∧ nl ∉ new.
Proof.
  intros [Hnl Hnd]%NoDup_cons Hsub. split; [by eapply NoDup_sub|].
  intros Hin. apply Hnl. by eapply elem_of_submseteq.
Qed.

(** ** The tree a heap represents *)

Section Abstract.

Context {T : Type}.
Variable zero : T.
Implicit Types (t l r : @tree T) (f : @frame T) (k : list (@frame T)).
Implicit Types (h : gmap nat (@Node T)).

Lemma addrs_plug t k : addrs (plug t k) = kaddrs_l k ++ addrs t ++ kaddrs_r k.
Proof.
  revert t; induction k as [|[a c v r|a c l v] k IH]; intros t; simpl.
  - by rewrite app_nil_r.
  - rewrite IH. simpl. by rewrite <- !app_assoc.
  - rewrite IH. simpl. by rewrite <- !app_assoc.
Qed.

Lemma elems_plug t k : elems (plug t k) = kelems_l k ++ elems t ++ kelems_r k.
Proof.
  revert t; induction k as [|[a c v r|a c l v] k IH]; intros t; simpl.
  - by rewrite app_nil_r.
  - rewrite IH. simpl. by rewrite <- !app_assoc.
  - rewrite IH. simpl. by rewrite <- !app_assoc.
Qed.

Lemma plug_nil t : plug t [] = t.
Proof. done. Qed.

Lemma plug_cons t f k : plug t (f :: k) = plug (fill f t) k.
Proof. done. Qed.

Lemma plug_app t k1 k2 : plug t (k1 ++ k2) = plug (plug t k1) k2.
Proof. revert t; induction k1 as [|f k1 IH]; intros t; simpl; auto. Qed.

(** ** Representation of a tree in the heap *)

Lemma ptr_plug nl t k : ptr nl (plug t k) = kroot (ptr nl t) k.
Proof.
  revert t; induction k as [|f k IH]; intros t; [done|].
  simpl. rewrite IH. by destruct f.
Qed.

Lemma repr_plug h nl t k :
  repr h nl (plug t k) 0 ↔ repr h nl t (top k) ∧ reprk h nl k (ptr nl t).
Proof.
  revert t; induction k as [|[a c v r|a c l v] k IH]; intros t; simpl.
  - tauto.
  - rewrite IH. simpl. tauto.
  - rewrite IH. simpl. tauto.
Qed.

Lemma agree_refl ms h : agree ms h h.
Proof. by intros a _. Qed.

Lemma agree_insert ms h h' a n :
  a ∈ ms → agree ms h h' → agree ms h (<[a:=n]> h').
Proof.
  intros Hin Hag b Hb. rewrite lookup_insert_ne; [by apply Hag|].
  intros ->. done.
Qed.

Lemma repr_frame ms h h' nl t par :
  agree ms h h' → (∀ a, a ∈ addrs t → a ∉ ms) →
  repr h nl t par → repr h' nl t par.
Proof.
  intros Hag.
  revert par; induction t as [|a c l IHl v r IHr]; intros par Hdis; simpl; [done|].
  intros (Ha & Hl & Hr). split_and!.
  - rewrite Hag; [done|]. apply Hdis. simpl. set_solver.
  - apply IHl; [|done]. intros b Hb. apply Hdis. simpl. set_solver.
  - apply IHr; [|done]. intros b Hb. apply Hdis. simpl. set_solver.
Qed.

Lemma kaddrs_cons f k a :
  a ∈ kaddrs (f :: k) ↔ a = faddr f ∨ a ∈ addrs (fsib f) ∨ a ∈ kaddrs k.
Proof.
  unfold kaddrs. destruct f; simpl;
    rewrite ?elem_of_app, ?elem_of_cons, ?elem_of_app, ?elem_of_cons, ?elem_of_nil; tauto.
Qed.

Lemma reprk_frame ms h h' nl k child :
  agree ms h h' → (∀ a, a ∈ kaddrs k → a ∉ ms) →
  reprk h nl k child → reprk h' nl k child.
Proof.
  intros Hag.
  revert child; induction k as [|f k IH]; intros child Hdis; simpl; [done|].
  intros (Ha & Hr & Hk). split_and!.
  - rewrite Hag; [done|]. apply Hdis, kaddrs_cons. auto.
  - eapply repr_frame; [done| |done]. intros b Hb. apply Hdis, kaddrs_cons. auto.
  - apply IH; [|done]. intros b Hb. apply Hdis, kaddrs_cons. auto.
Qed.

Lemma ptr_neq nl t (a : nat) : a ≠ nl → a ∉ addrs t → a ≠ ptr nl t.
Proof. destruct t; simpl; [done|]. intros _ Hin ->. apply Hin. set_solver. Qed.

Lemma kaddrs_cons_perm f k :
  kaddrs (f :: k) ≡ₚ faddr f :: addrs (fsib f) ++ kaddrs k.
Proof. unfold kaddrs. destruct f; simpl; solve_Permutation. Qed.

Lemma addrs_plug_perm t k : addrs (plug t k) ≡ₚ addrs t ++ kaddrs k.
Proof. rewrite addrs_plug. unfold kaddrs. solve_Permutation. Qed.

Lemma addrs_plug_eq t t' k :
  addrs t' = addrs t → addrs (plug t' k) = addrs (plug t k).
Proof. intros H. by rewrite !addrs_plug, H. Qed.

Lemma elems_plug_eq t t' k :
  elems t' = elems t → elems (plug t' k) = elems (plug t k).
Proof. intros H. by rewrite !elems_plug, H. Qed.

End Abstract.

Arguments kaddrs : simpl never.
Arguments plug : simpl never.

Section Rep.

Context {T : Type}.
Variable zero : T.
Implicit Types (s : @RBTree T) (t l r : @tree T) (k : list (@frame T)).
Local Abbreviation Rep := (Rep zero).

Lemma same_refl s : same s s.
Proof. done. Qed.

Lemma same_trans s1 s2 s3 : same s1 s2 → same s2 s3 → same s1 s3.
Proof. unfold same. intros (?&?&?) (?&?&?). split_and!; congruence. Qed.

Lemma repr_in_heap h nl t par a :
  repr h nl t par → a ∈ addrs t → is_Some (h !! a).
Proof.
  revert par; induction t as [|b c l IHl v r IHr]; intros par; simpl.
  - intros _ Hin. by apply elem_of_nil in Hin.
  - intros (Hb & Hl & Hr) Hin.
    apply elem_of_app in Hin as [Hin|Hin]; [by eapply IHl|].
    apply elem_of_cons in Hin as [->|Hin]; [by eexists|by eapply IHr].
Qed.

Lemma Rep_in_heap s t a : Rep s t → a ∈ addrs t → is_Some (heap s !! a).
Proof. intros H. eapply repr_in_heap, H. Qed.

Lemma Rep_nil_neq s t : Rep s t → nil_ s ≠ 0.
Proof.
  intros H Heq. destruct (rep_nil _ _ _ H) as [sp Hsp].
  rewrite Heq, (rep_null _ _ _ H) in Hsp. done.
Qed.

Lemma Rep_addr_neq0 s t a : Rep s t → a ∈ addrs t → a ≠ 0.
Proof.
  intros H Hin ->. destruct (Rep_in_heap _ _ _ H Hin) as [n Hn].
  rewrite (rep_null _ _ _ H) in Hn. done.
Qed.

Lemma Rep_addr_lt s t a : Rep s t → a ∈ addrs t → a < next s.
Proof.
  intros H Hin. destruct (Rep_in_heap _ _ _ H Hin) as [n Hn].
  destruct (decide (a < next s)) as [|Hge]; [done|].
  rewrite (rep_next _ _ _ H) in Hn; [done|lia].
Qed.

Lemma Rep_nil_lt s t : Rep s t → nil_ s < next s.
Proof.
  intros H. destruct (rep_nil _ _ _ H) as [sp Hsp].
  destruct (decide (nil_ s < next s)) as [|Hge]; [done|].
  rewrite (rep_next _ _ _ H) in Hsp; [done|lia].
Qed.

(** The cell of a node anywhere in the tree. *)
Lemma Rep_lookup s a c l v r k :
  Rep s (plug (N a c l v r) k) →
  heap s !! a = Some (mkNode c (top k) (ptr (nil_ s) l) (ptr (nil_ s) r) v).
Proof.
  intros H. pose proof (rep_tree _ _ _ H) as Ht.
  apply repr_plug in Ht as [Ht _]. simpl in Ht. tauto.
Qed.

Lemma Rep_in_plug s a c l v r k : Rep s (plug (N a c l v r) k) → a ∈ addrs (plug (N a c l v r) k).
Proof. intros _. rewrite addrs_plug. simpl. set_solver. Qed.

Lemma Rep_footprint s t k :
  Rep s (plug t k) → NoDup (nil_ s :: 0 :: addrs t ++ kaddrs k).
Proof.
  intros H. rewrite <- addrs_plug_perm.
  apply NoDup_cons. split.
  - apply not_elem_of_cons. split; [by eapply Rep_nil_neq|apply H].
  - apply NoDup_cons. split; [|apply H].
    intros Hin. by eapply Rep_addr_neq0.
Qed.

End Rep.

(** ** Running the node-level steps *)

Section Exec.

Context {T : Type}.
Variable zero : T.
Implicit Types (s : @RBTree T) (t l r : @tree T) (k : list (@frame T)).

(** The laws of [bind] that the proofs run programs with. *)
Lemma bind_ok {A B} (m : M A) (f : A → M B) s a s' :
  m s = Ok a s' → (m ≫= f) s = f a s'.
Proof. unfold mbind, M_bind, bind. by intros ->. Qed.

Lemma bind_fault {A B} (m : M A) (f : A → M B) s e s' :
  m s = Fault e s' → (m ≫= f) s = Fault e s'.
Proof. unfold mbind, M_bind, bind. by intros ->. Qed.

Lemma bind_via {A B} (m m' : M A) (f : A → M B) s s' :
  m s = m' s' → (m ≫= f) s = (m' ≫= f) s'.
Proof. unfold mbind, M_bind, bind. by intros ->. Qed.

Lemma bind_inv {A B} (m : M A) (f : A → M B) s b s' :
  (m ≫= f) s = Ok b s' → ∃ a s1, m s = Ok a s1 ∧ f a s1 = Ok b s'.
Proof. unfold mbind, M_bind, bind. destruct (m s); [eauto|done]. Qed.

Lemma bind_assoc {A B C} (m : M A) (f : A → M B) (g : B → M C) s :
  ((m ≫= f) ≫= g) s = (m ≫= λ a, f a ≫= g) s.
Proof. unfold mbind, M_bind, bind. by destruct (m s). Qed.

(** Field reads and writes at an allocated pointer. *)
Lemma load_ok s p n : heap s !! p = Some n → load p s = Ok n s.
Proof. unfold load. by intros ->. Qed.

Lemma get_color_ok s p n : heap s !! p = Some n → get_color p s = Ok (ncolor n) s.
Proof. intros H. unfold get_color. by rewrite (bind_ok _ _ _ _ _ (load_ok _ _ _ H)). Qed.
Lemma get_parent_ok s p n : heap s !! p = Some n → get_parent p s = Ok (parent n) s.
Proof. intros H. unfold get_parent. by rewrite (bind_ok _ _ _ _ _ (load_ok _ _ _ H)). Qed.
Lemma get_left_ok s p n : heap s !! p = Some n → get_left p s = Ok (left n) s.
Proof. intros H. unfold get_left. by rewrite (bind_ok _ _ _ _ _ (load_ok _ _ _ H)). Qed.
Lemma get_right_ok s p n : heap s !! p = Some n → get_right p s = Ok (right n) s.
Proof. intros H. unfold get_right. by rewrite (bind_ok _ _ _ _ _ (load_ok _ _ _ H)). Qed.
Lemma get_Value_ok s p n : heap s !! p = Some n → get_Value p s = Ok (Value n) s.
Proof. intros H. unfold get_Value. by rewrite (bind_ok _ _ _ _ _ (load_ok _ _ _ H)). Qed.

Lemma set_color_ok s p n c :
  heap s !! p = Some n →
  set_color p c s = Ok tt (upd s p (mkNode c (parent n) (left n) (right n) (Value n))).
Proof. intros H. unfold set_color. by rewrite (bind_ok _ _ _ _ _ (load_ok _ _ _ H)). Qed.
Lemma set_parent_ok s p n q :
  heap s !! p = Some n →
  set_parent p q s = Ok tt (upd s p (mkNode (ncolor n) q (left n) (right n) (Value n))).
Proof. intros H. unfold set_parent. by rewrite (bind_ok _ _ _ _ _ (load_ok _ _ _ H)). Qed.
Lemma set_left_ok s p n q :
  heap s !! p = Some n →
  set_left p q s = Ok tt (upd s p (mkNode (ncolor n) (parent n) q (right n) (Value n))).
Proof. intros H. unfold set_left. by rewrite (bind_ok _ _ _ _ _ (load_ok _ _ _ H)). Qed.
Lemma set_right_ok s p n q :
  heap s !! p = Some n →
  set_right p q s = Ok tt (upd s p (mkNode (ncolor n) (parent n) (left n) q (Value n))).
Proof. intros H. unfold set_right. by rewrite (bind_ok _ _ _ _ _ (load_ok _ _ _ H)). Qed.

Lemma getColor_ok s p n :
  p ≠ 0 → heap s !! p = Some n → getColor p s = Ok (ncolor n) s.
Proof.
  intros Hp H. unfold getColor.
  destruct (Nat.eqb_spec p 0); [done|]. by apply get_color_ok.
Qed.

Lemma eqb_false (a b : nat) : a ≠ b → (a =? b) = false.
Proof. apply Nat.eqb_neq. Qed.

End Exec.

(** [hlookup] finds the cell of a pointer in a heap built by stores, given
    the cells of the heap underneath and an [ND] fact for the pointers. *)
Ltac hlookup :=
  cbn [heap root nil_ next upd];
  repeat first
    [ apply lookup_insert_eq
    | rewrite lookup_insert_ne by nd ];
  eassumption.

Ltac solve_agree :=
  cbn [heap root nil_ next upd];
  repeat (apply agree_insert; [repeat first [apply list_elem_of_here | apply list_elem_of_further]|]);
  apply agree_refl.

(** One step of a program: the monadic operation at the head of the goal
    is run on the current state. *)
Ltac hassoc :=
  repeat lazymatch goal with
  | |- context [ ((?m ≫= ?f) ≫= ?g) ?s ] => rewrite (bind_assoc m f g s)
  end.

Ltac hstep :=
  hassoc;
  lazymatch goal with
  | |- context [ (get_nil ≫= ?f) ?s ] =>
      change ((get_nil ≫= f) s) with (f (nil_ s) s); cbn beta
  | |- context [ (get_root ≫= ?f) ?s ] =>
      change ((get_root ≫= f) s) with (f (root s) s); cbn beta
  | |- context [ (get_fuel ≫= ?f) ?s ] =>
      change ((get_fuel ≫= f) s) with (f (next s) s); cbn beta
  | |- context [ (ret ?a ≫= ?f) ?s ] =>
      change ((ret a ≫= f) s) with (f a s); cbn beta
  | |- context [ (set_root ?p ≫= ?f) ?s ] =>
      change ((set_root p ≫= f) s) with (f tt (mkTree p (nil_ s) (heap s) (next s))); cbn beta
  | |- context [ (get_color ?p ≫= ?f) ?s ] =>
      erewrite (bind_ok (get_color p) f s) by (apply get_color_ok; hlookup)
  | |- context [ (get_parent ?p ≫= ?f) ?s ] =>
      erewrite (bind_ok (get_parent p) f s) by (apply get_parent_ok; hlookup)
  | |- context [ (get_left ?p ≫= ?f) ?s ] =>
      erewrite (bind_ok (get_left p) f s) by (apply get_left_ok; hlookup)
  | |- context [ (get_right ?p ≫= ?f) ?s ] =>
      erewrite (bind_ok (get_right p) f s) by (apply get_right_ok; hlookup)
  | |- context [ (get_Value ?p ≫= ?f) ?s ] =>
      erewrite (bind_ok (get_Value p) f s) by (apply get_Value_ok; hlookup)
  | |- context [ (set_color ?p ?c ≫= ?f) ?s ] =>
      erewrite (bind_ok (set_color p c) f s) by (apply set_color_ok; hlookup)
  | |- context [ (set_parent ?p ?c ≫= ?f) ?s ] =>
      erewrite (bind_ok (set_parent p c) f s) by (apply set_parent_ok; hlookup)
  | |- context [ (set_left ?p ?c ≫= ?f) ?s ] =>
      erewrite (bind_ok (set_left p c) f s) by (apply set_left_ok; hlookup)
  | |- context [ (set_right ?p ?c ≫= ?f) ?s ] =>
      erewrite (bind_ok (set_right p c) f s) by (apply set_right_ok; hlookup)
  end; cbn beta iota delta [ncolor parent left right Value].

Section Primitives.

Context {T : Type}.
Variable zero : T.
Implicit Types (s : @RBTree T) (t l r : @tree T) (k : list (@frame T)).
Local Abbreviation Rep := (Rep zero).

(** A change of links and colours inside the tree: the heap differs at
    allocated pointers [ms] only (neither Go's nil nor the sentinel), and
    the pointers in order stay. *)
Lemma Rep_modify s s' t t' ms :
  Rep s t →
  nil_ s' = nil_ s → next s' = next s →
  agree ms (heap s) (heap s') →
  nil_ s ∉ ms → 0 ∉ ms → Forall (λ a, is_Some (heap s !! a)) ms →
  addrs t' = addrs t →
  root s' = ptr (nil_ s) t' →
  repr (heap s') (nil_ s) t' 0 →
  Rep s' t' ∧ same s s'.
Proof.
  intros H Hnil Hnext Hag Hmn Hm0 Hms Had Hroot Hrep.
  assert (Hn : heap s' !! nil_ s = heap s !! nil_ s) by by apply Hag.
  split.
  - constructor; rewrite ?Hnil, ?Had, ?Hnext; try done; try apply H.
    + rewrite Hn. apply H.
    + rewrite Hag; [apply H|done].
    + intros a Ha. rewrite Hag; [by apply H|].
      intros Hin. rewrite Forall_forall in Hms. destruct (Hms a Hin) as [n Hn'].
      rewrite (rep_next _ _ _ H) in Hn'; done.
  - unfold same, nilpar. by rewrite Hnil, Hn.
Qed.

(** ** Reading through [Rep] *)

(** Field reads at a node of the tree. *)
Lemma get_color_Rep s a c l v r k :
  Rep s (plug (N a c l v r) k) → get_color a s = Ok c s.
Proof. intros H. by rewrite (get_color_ok _ _ _ (Rep_lookup _ _ _ _ _ _ _ _ H)). Qed.
Lemma get_parent_Rep s a c l v r k :
  Rep s (plug (N a c l v r) k) → get_parent a s = Ok (top k) s.
Proof. intros H. by rewrite (get_parent_ok _ _ _ (Rep_lookup _ _ _ _ _ _ _ _ H)). Qed.
Lemma get_left_Rep s a c l v r k :
  Rep s (plug (N a c l v r) k) → get_left a s = Ok (ptr (nil_ s) l) s.
Proof. intros H. by rewrite (get_left_ok _ _ _ (Rep_lookup _ _ _ _ _ _ _ _ H)). Qed.
Lemma get_right_Rep s a c l v r k :
  Rep s (plug (N a c l v r) k) → get_right a s = Ok (ptr (nil_ s) r) s.
Proof. intros H. by rewrite (get_right_ok _ _ _ (Rep_lookup _ _ _ _ _ _ _ _ H)). Qed.
Lemma get_Value_Rep s a c l v r k :
  Rep s (plug (N a c l v r) k) → get_Value a s = Ok v s.
Proof. intros H. by rewrite (get_Value_ok _ _ _ (Rep_lookup _ _ _ _ _ _ _ _ H)). Qed.

(** [getColor] of the pointer of any subtree, the sentinel included. *)
Lemma getColor_Rep s t k :
  Rep s (plug t k) → getColor (ptr (nil_ s) t) s = Ok (color_of t) s.
Proof.
  intros H. destruct t as [|a c l v r]; simpl.
  - destruct (rep_nil _ _ _ H) as [sp Hsp].
    rewrite (getColor_ok _ _ _ (Rep_nil_neq _ _ _ H) Hsp). done.
  - rewrite (getColor_ok _ _ _ (Rep_addr_neq0 _ _ _ _ H (Rep_in_plug _ _ _ _ _ _ _ _ H))
               (Rep_lookup _ _ _ _ _ _ _ _ H)). done.
Qed.

Lemma get_parent_nil s t : Rep s t → get_parent (nil_ s) s = Ok (nilpar s) s.
Proof.
  intros H. destruct (rep_nil _ _ _ H) as [sp Hsp].
  rewrite (get_parent_ok _ _ _ Hsp). unfold nilpar. by rewrite Hsp.
Qed.

End Primitives.

(** [nd_init H]: from [H : Rep s (plug t k)], the [ND] fact for the sentinel,
    Go's nil, the pointers of [t] and those of [k]. *)
Ltac nd_init H :=
  let F := fresh "HND" in
  pose proof (Rep_footprint _ _ _ _ H) as F;
  cbn [addrs] in F; rewrite ?kaddrs_cons_perm in F; cbn [faddr fsib addrs] in F;
  nd_reify F.

(** A pointer test at the head of the program, decided by [ND]. *)
Ltac htest :=
  match goal with
  | |- context [?a =? ?a] => rewrite (Nat.eqb_refl a)
  | |- context [?a =? ?b] =>
      rewrite (eqb_false a b)
        by (cbn [heap root nil_ next upd];
            first [nd | apply ptr_neq; nd | apply not_eq_sym, ptr_neq; nd])
  end; cbn [negb].

Ltac solve_somes :=
  repeat (apply Forall_cons_2; [eexists; eassumption|]); apply Forall_nil_2.

Section Rotations.

Context {T : Type}.
Variable zero : T.
Implicit Types (s : @RBTree T) (t l r : @tree T) (k : list (@frame T)).
Local Abbreviation Rep := (Rep zero).

(** [n.color = c] at a node of the tree. *)
Lemma set_color_Rep s a c l v r k c' :
  Rep s (plug (N a c l v r) k) →
  ∃ s', set_color a c' s = Ok tt s' ∧ Rep s' (plug (N a c' l v r) k) ∧ same s s'.
Proof.
  intros H. pose proof (Rep_lookup _ _ _ _ _ _ _ _ H) as Ha.
  eexists. split; [by apply set_color_ok|]. cbn [ncolor parent left right Value].
  nd_init H.
  pose proof (rep_tree _ _ _ H) as Ht. apply repr_plug in Ht as [(_ & Hl & Hr) Hk].
  eapply (Rep_modify _ s _ _ _ [a] H); [done|done|solve_agree|nd|nd|solve_somes| | |].
  - by apply addrs_plug_eq.
  - cbn [root upd]. rewrite (rep_root _ _ _ H), !ptr_plug. done.
  - assert (Hag : agree [a] (heap s) (heap (upd s a (mkNode c' (top k) (ptr (nil_ s) l) (ptr (nil_ s) r) v))))
      by solve_agree.
    apply repr_plug. simpl. split_and!.
    + apply lookup_insert_eq.
    + eapply repr_frame; [exact Hag|nd|done].
    + eapply repr_frame; [exact Hag|nd|done].
    + eapply reprk_frame; [exact Hag|nd|done].
Qed.

(** The first half of "fix the parent of the old root", when there is a
    node above: its link to [a] becomes a link to [b]. *)
Lemma relink_left s f par a b {A} (g : unit → M A) :
  heap s !! faddr f = Some (fcell (nil_ s) f a par) →
  faddr f ≠ 0 → a ≠ nil_ s → a ∉ addrs (fsib f) →
  ((if faddr f =? 0 then set_root b
    else npl ← get_left (faddr f);
         if npl =? a then set_left (faddr f) b else set_right (faddr f) b) ≫= g) s
  = g tt (upd s (faddr f) (fcell (nil_ s) f b par)).
Proof.
  intros Hf H0 Han Hsib. rewrite eqb_false by done.
  pose proof (ptr_neq _ _ _ Han Hsib) as Hne.
  destruct f as [p c v r|p c l v]; simpl in *.
  - hstep. rewrite Nat.eqb_refl. by hstep.
  - hstep. rewrite eqb_false by done. by hstep.
Qed.

Lemma relink_right s f par a b {A} (g : unit → M A) :
  heap s !! faddr f = Some (fcell (nil_ s) f a par) →
  faddr f ≠ 0 → a ≠ nil_ s → a ∉ addrs (fsib f) →
  ((if faddr f =? 0 then set_root b
    else npr ← get_right (faddr f);
         if npr =? a then set_right (faddr f) b else set_left (faddr f) b) ≫= g) s
  = g tt (upd s (faddr f) (fcell (nil_ s) f b par)).
Proof.
  intros Hf H0 Han Hsib. rewrite eqb_false by done.
  pose proof (ptr_neq _ _ _ Han Hsib) as Hne.
  destruct f as [p c v r|p c l v]; simpl in *.
  - hstep. rewrite eqb_false by done. by hstep.
  - hstep. rewrite Nat.eqb_refl. by hstep.
Qed.

Lemma fcell_parent nl (f : @frame T) ch par : parent (fcell nl f ch par) = par.
Proof. by destruct f. Qed.

(** [rotateLeft] at a node with a right child, anywhere in the tree: the
    child comes up, the order of addresses and values stays. *)
Lemma rotateLeft_Rep s a c l v b cb bl bv br k :
  Rep s (plug (N a c l v (N b cb bl bv br)) k) →
  ∃ s', rotateLeft a s = Ok tt s'
        ∧ Rep s' (plug (N b cb (N a c l v bl) bv br) k) ∧ same s s'.
Proof.
  intros H.
  pose proof (Rep_lookup _ _ _ _ _ _ _ _ H) as Ha.
  pose proof (Rep_lookup _ _ _ _ _ _ _ _ (H : Rep s (plug (N b cb bl bv br) (FR a c l v :: k)))) as Hb.
  cbn [top faddr ptr] in Ha, Hb.
  pose proof (rep_tree _ _ _ H) as Ht. apply repr_plug in Ht as [(_ & Hl & _ & Hbl & Hbr) Hk].
  cbn [ptr] in Hk.
  unfold rotateLeft.
  destruct bl as [|x cx xl xv xr]; destruct k as [|f k]; nd_init H; cbn [ptr top] in *.
  - do 2 hstep. htest. do 5 hstep.
    htest. do 2 hstep. cbn [Nat.eqb]. do 3 hstep.
    eexists. split; [apply set_parent_ok; hlookup|].
    cbn [ncolor parent left right Value].
    eapply (Rep_modify _ s _ _ _ [a; b] H); [done|done|solve_agree|nd|nd|solve_somes| | |].
    + apply addrs_plug_eq. solve_list_eq.
    + done.
    + match goal with |- repr ?h _ _ _ => assert (Hag : agree [a; b] (heap s) h) by solve_agree end.
      simpl. split_and!; try done; try hlookup.
      * eapply repr_frame; [exact Hag|nd|done].
      * eapply repr_frame; [exact Hag|nd|done].
  - destruct Hk as (Hf & Hsib & Hk).
    do 2 hstep. htest. do 5 hstep.
    htest. do 2 hstep.
    rewrite (relink_left _ f (top k) a b) by first [hlookup|cbn [heap root nil_ next upd]; nd].
    do 2 hstep.
    eexists. split; [apply set_parent_ok; hlookup|].
    cbn [ncolor parent left right Value].
    eapply (Rep_modify _ s _ _ _ [a; b; faddr f] H); [done|done|solve_agree|nd|nd|solve_somes| | |].
    + apply addrs_plug_eq. solve_list_eq.
    + cbn [root upd]. rewrite (rep_root _ _ _ H), !ptr_plug. done.
    + match goal with |- repr ?h _ _ _ => assert (Hag : agree [a; b; faddr f] (heap s) h) by solve_agree end.
      apply repr_plug.
      simpl. split_and!; try done; try hlookup.
      * eapply repr_frame; [exact Hag|nd|done].
      * eapply repr_frame; [exact Hag|nd|done].
      * eapply repr_frame; [exact Hag|nd|done].
      * eapply reprk_frame; [exact Hag|nd|done].
  - destruct Hbl as (Hx & Hxl & Hxr).
    do 2 hstep. htest. do 5 hstep. htest. cbn [negb]. do 2 hstep. cbn [Nat.eqb]. do 3 hstep.
    eexists. split; [apply set_parent_ok; hlookup|].
    cbn [ncolor parent left right Value].
    eapply (Rep_modify _ s _ _ _ [a; b; x] H); [done|done|solve_agree|nd|nd|solve_somes| | |].
    + apply addrs_plug_eq. solve_list_eq.
    + done.
    + match goal with |- repr ?h _ _ _ => assert (Hag : agree [a; b; x] (heap s) h) by solve_agree end.
      simpl. split_and!; try done; try hlookup.
      * eapply repr_frame; [exact Hag|nd|done].
      * eapply repr_frame; [exact Hag|nd|done].
      * eapply repr_frame; [exact Hag|nd|done].
      * eapply repr_frame; [exact Hag|nd|done].
  - destruct Hbl as (Hx & Hxl & Hxr). destruct Hk as (Hf & Hsib & Hk).
    do 2 hstep. htest. do 5 hstep.
    htest. do 2 hstep.
    rewrite (relink_left _ f (top k) a b) by first [hlookup|cbn [heap root nil_ next upd]; nd].
    do 2 hstep.
    eexists. split; [apply set_parent_ok; hlookup|].
    cbn [ncolor parent left right Value].
    eapply (Rep_modify _ s _ _ _ [a; b; x; faddr f] H); [done|done|solve_agree|nd|nd|solve_somes| | |].
    + apply addrs_plug_eq. solve_list_eq.
    + cbn [root upd]. rewrite (rep_root _ _ _ H), !ptr_plug. done.
    + match goal with |- repr ?h _ _ _ => assert (Hag : agree [a; b; x; faddr f] (heap s) h) by solve_agree end.
      apply repr_plug.
      simpl. split_and!; try done; try hlookup.
      * eapply repr_frame; [exact Hag|nd|done].
      * eapply repr_frame; [exact Hag|nd|done].
      * eapply repr_frame; [exact Hag|nd|done].
      * eapply repr_frame; [exact Hag|nd|done].
      * eapply repr_frame; [exact Hag|nd|done].
      * eapply reprk_frame; [exact Hag|nd|done].
Qed.

(** [rotateRight] at a node with a left child: the mirror image. *)
Lemma rotateRight_Rep s a c b cb bl bv br v r k :
  Rep s (plug (N a c (N b cb bl bv br) v r) k) →
  ∃ s', rotateRight a s = Ok tt s'
        ∧ Rep s' (plug (N b cb bl bv (N a c br v r)) k) ∧ same s s'.
Proof.
  intros H.
  pose proof (Rep_lookup _ _ _ _ _ _ _ _ H) as Ha.
  pose proof (Rep_lookup _ _ _ _ _ _ _ _ (H : Rep s (plug (N b cb bl bv br) (FL a c v r :: k)))) as Hb.
  cbn [top faddr ptr] in Ha, Hb.
  pose proof (rep_tree _ _ _ H) as Ht. apply repr_plug in Ht as [(_ & (_ & Hbl & Hbr) & Hr) Hk].
  cbn [ptr] in Hk.
  unfold rotateRight.
  destruct br as [|x cx xl xv xr]; destruct k as [|f k]; nd_init H; cbn [ptr top] in *.
  - do 2 hstep. htest. do 5 hstep. htest. do 2 hstep. cbn [Nat.eqb]. do 3 hstep.
    eexists. split; [apply set_parent_ok; hlookup|].
    cbn [ncolor parent left right Value].
    eapply (Rep_modify _ s _ _ _ [a; b] H); [done|done|solve_agree|nd|nd|solve_somes| | |].
    + apply addrs_plug_eq. solve_list_eq.
    + done.
    + match goal with |- repr ?h _ _ _ => assert (Hag : agree [a; b] (heap s) h) by solve_agree end.
      simpl. split_and!; try done; try hlookup.
      * eapply repr_frame; [exact Hag|nd|done].
      * eapply repr_frame; [exact Hag|nd|done].
  - destruct Hk as (Hf & Hsib & Hk).
    do 2 hstep. htest. do 5 hstep. htest. do 2 hstep.
    rewrite (relink_right _ f (top k) a b) by first [hlookup|cbn [heap root nil_ next upd]; nd].
    do 2 hstep.
    eexists. split; [apply set_parent_ok; hlookup|].
    cbn [ncolor parent left right Value].
    eapply (Rep_modify _ s _ _ _ [a; b; faddr f] H); [done|done|solve_agree|nd|nd|solve_somes| | |].
    + apply addrs_plug_eq. solve_list_eq.
    + cbn [root upd]. rewrite (rep_root _ _ _ H), !ptr_plug. done.
    + match goal with |- repr ?h _ _ _ => assert (Hag : agree [a; b; faddr f] (heap s) h) by solve_agree end.
      apply repr_plug.
      simpl. split_and!; try done; try hlookup.
      * eapply repr_frame; [exact Hag|nd|done].
      * eapply repr_frame; [exact Hag|nd|done].
      * eapply repr_frame; [exact Hag|nd|done].
      * eapply reprk_frame; [exact Hag|nd|done].
  - destruct Hbr as (Hx & Hxl & Hxr).
    do 2 hstep. htest. do 5 hstep. htest. do 2 hstep. cbn [Nat.eqb]. do 3 hstep.
    eexists. split; [apply set_parent_ok; hlookup|].
    cbn [ncolor parent left right Value].
    eapply (Rep_modify _ s _ _ _ [a; b; x] H); [done|done|solve_agree|nd|nd|solve_somes| | |].
    + apply addrs_plug_eq. solve_list_eq.
    + done.
    + match goal with |- repr ?h _ _ _ => assert (Hag : agree [a; b; x] (heap s) h) by solve_agree end.
      simpl. split_and!; try done; try hlookup.
      * eapply repr_frame; [exact Hag|nd|done].
      * eapply repr_frame; [exact Hag|nd|done].
      * eapply repr_frame; [exact Hag|nd|done].
      * eapply repr_frame; [exact Hag|nd|done].
  - destruct Hbr as (Hx & Hxl & Hxr). destruct Hk as (Hf & Hsib & Hk).
    do 2 hstep. htest. do 5 hstep. htest. do 2 hstep.
    rewrite (relink_right _ f (top k) a b) by first [hlookup|cbn [heap root nil_ next upd]; nd].
    do 2 hstep.
    eexists. split; [apply set_parent_ok; hlookup|].
    cbn [ncolor parent left right Value].
    eapply (Rep_modify _ s _ _ _ [a; b; x; faddr f] H); [done|done|solve_agree|nd|nd|solve_somes| | |].
    + apply addrs_plug_eq. solve_list_eq.
    + cbn [root upd]. rewrite (rep_root _ _ _ H), !ptr_plug. done.
    + match goal with |- repr ?h _ _ _ => assert (Hag : agree [a; b; x; faddr f] (heap s) h) by solve_agree end.
      apply repr_plug.
      simpl. split_and!; try done; try hlookup.
      * eapply repr_frame; [exact Hag|nd|done].
      * eapply repr_frame; [exact Hag|nd|done].
      * eapply repr_frame; [exact Hag|nd|done].
      * eapply repr_frame; [exact Hag|nd|done].
      * eapply repr_frame; [exact Hag|nd|done].
      * eapply reprk_frame; [exact Hag|nd|done].
Qed.

End Rotations.

(** ** Red-black shape *)

Section Shape.

Context {T : Type}.
Implicit Types (t l r : @tree T) (k : list (@frame T)).

Lemma rbt_fill_black f t n :
  fcolor f = black → rbt (fsib f) n → rbt t n → rbt (fill f t) (S n).
Proof. destruct f; simpl; intros ->; tauto. Qed.

Lemma rbt_fill_red f t n :
  fcolor f = red → color_of (fsib f) = black → color_of t = black →
  rbt (fsib f) n → rbt t n → rbt (fill f t) n.
Proof. destruct f; simpl; intros ->; tauto. Qed.

Lemma color_fill f t : color_of (fill f t) = fcolor f.
Proof. by destruct f. Qed.

(** Filling the hole with a tree of the right height, black or below a
    black node, gives a red-black tree; its root is black unless the hole
    is the root. *)
Lemma plug_rbt k t n :
  ctx_ok k n → rbt t n → color_of t = black ∨ head_black k →
  ∃ m, rbt (plug t k) m ∧ (k ≠ [] → color_of (plug t k) = black).
Proof.
  revert t n. induction k as [|f k IH]; intros t n Hk Ht Hc.
  - exists n. done.
  - rewrite plug_cons. destruct Hk as (Hsib & Hk).
    destruct (fcolor f) eqn:Hf.
    + destruct (IH (fill f t) (S n)) as (m & Hm & Hcol); [done| |left; by rewrite color_fill|].
      { by apply rbt_fill_black. }
      exists m. split; [done|]. intros _.
      destruct k; [by rewrite plug_nil, color_fill|]. by apply Hcol.
    + destruct Hk as (Hsb & Htop & Hk).
      destruct Hc as [Hc|Hc]; [|simpl in Hc; congruence].
      destruct (IH (fill f t) n) as (m & Hm & Hcol); [done| |right|].
      { by apply rbt_fill_red. }
      { by destruct k. }
      exists m. split; [done|]. intros _. apply Hcol. by destruct k.
Qed.

Lemma color_plug_black t k :
  k ≠ [] → color_of (plug t k) = black → blacken (plug t k) = plug t k.
Proof. intros _. destruct (plug t k) as [|a c l v r]; simpl; [done|]. by intros ->. Qed.

End Shape.

(** ** Running a method on a represented tree

    The hypothesis [HR : Rep zero s (plug t k)] describes the current state;
    the tactics below run the operation at the head of the program in the
    goal, looking the node it touches up in [t]. *)

Ltac find_node x t k :=
  lazymatch t with
  | N x ?c ?l ?v ?r => constr:((k, c, l, v, r))
  | N ?a ?c ?l ?v ?r =>
    match constr:(tt) with
    | _ => find_node x l constr:(FL a c v r :: k)
    | _ => find_node x r constr:(FR a c l v :: k)
    end
  end.

Ltac find_sub u t k :=
  lazymatch t with
  | u => constr:(k)
  | N ?a ?c ?l ?v ?r =>
    match constr:(tt) with
    | _ => find_sub u l constr:(FL a c v r :: k)
    | _ => find_sub u r constr:(FR a c l v :: k)
    end
  end.

Section Reads.
Context {T : Type}.
Variable zero : T.
Implicit Types (s : @RBTree T) (t l r : @tree T) (k : list (@frame T)).

Lemma getColor_nil s t : Rep zero s t → getColor (nil_ s) s = Ok black s.
Proof.
  intros H. destruct (rep_nil _ _ _ H) as [sp Hsp].
  by rewrite (getColor_ok _ _ _ (Rep_nil_neq _ _ _ H) Hsp).
Qed.

Lemma Rep_root_plug s t k : Rep zero s (plug t k) → root s = kroot (ptr (nil_ s) t) k.
Proof. intros H. by rewrite (rep_root _ _ _ H), ptr_plug. Qed.

End Reads.

Ltac aread :=
  hassoc;
  lazymatch goal with
  | |- context [ (get_nil ≫= ?f) ?s ] =>
      change ((get_nil ≫= f) s) with (f (nil_ s) s); cbn beta
  | |- context [ (get_fuel ≫= ?f) ?s ] =>
      change ((get_fuel ≫= f) s) with (f (next s) s); cbn beta
  | |- context [ (ret ?a ≫= ?f) ?s ] =>
      change ((ret a ≫= f) s) with (f a s); cbn beta
  | HR : Rep ?z ?s (plug ?t ?k) |- context [ (get_root ≫= ?f) ?s ] =>
      change ((get_root ≫= f) s) with (f (root s) s); cbn beta;
      rewrite (Rep_root_plug z s t k HR)
  | HR : Rep ?z ?s (plug ?t ?k) |- context [ (get_parent ?x ≫= ?f) ?s ] =>
      let r := find_node x t k in
      lazymatch r with
      | (?K, ?c, ?l, ?v, ?r') =>
        rewrite (bind_ok (get_parent x) f s _ _ (get_parent_Rep z s x c l v r' K HR))
      end
  | HR : Rep ?z ?s (plug ?t ?k) |- context [ (get_left ?x ≫= ?f) ?s ] =>
      let r := find_node x t k in
      lazymatch r with
      | (?K, ?c, ?l, ?v, ?r') =>
        rewrite (bind_ok (get_left x) f s _ _ (get_left_Rep z s x c l v r' K HR))
      end
  | HR : Rep ?z ?s (plug ?t ?k) |- context [ (get_right ?x ≫= ?f) ?s ] =>
      let r := find_node x t k in
      lazymatch r with
      | (?K, ?c, ?l, ?v, ?r') =>
        rewrite (bind_ok (get_right x) f s _ _ (get_right_Rep z s x c l v r' K HR))
      end
  | HR : Rep ?z ?s (plug ?t ?k) |- context [ (get_color ?x ≫= ?f) ?s ] =>
      let r := find_node x t k in
      lazymatch r with
      | (?K, ?c, ?l, ?v, ?r') =>
        rewrite (bind_ok (get_color x) f s _ _ (get_color_Rep z s x c l v r' K HR))
      end
  | HR : Rep ?z ?s (plug ?t ?k) |- context [ (get_Value ?x ≫= ?f) ?s ] =>
      let r := find_node x t k in
      lazymatch r with
      | (?K, ?c, ?l, ?v, ?r') =>
        rewrite (bind_ok (get_Value x) f s _ _ (get_Value_Rep z s x c l v r' K HR))
      end
  | HR : Rep ?z ?s (plug ?t ?k) |- context [ (getColor ?x ≫= ?f) ?s ] =>
      lazymatch x with
      | 0 => change ((getColor 0 ≫= f) s) with (f black s); cbn beta
      | nil_ s => rewrite (bind_ok (getColor x) f s _ _ (getColor_nil z s _ HR))
      | ptr (nil_ s) ?u =>
        let K := find_sub u t k in
        rewrite (bind_ok (getColor x) f s _ _ (getColor_Rep z s u K HR))
      | _ =>
        let r := find_node x t k in
        lazymatch r with
        | (?K, ?c, ?l, ?v, ?r') =>
          rewrite (bind_ok (getColor x) f s _ _ (getColor_Rep z s (N x c l v r') K HR))
        end
      end
  end; cbn [top faddr ptr color_of kroot].

(** Steps that change the heap: the new state and its [Rep] replace the
    old ones; [HS] tracks what stayed the same since the start. *)
Ltac after_step s HR HR' HS' :=
  rewrite ?plug_cons in HR'; cbn [fill] in HR';
  try rewrite <- (proj1 HS');
  lazymatch goal with
  | HS : same ?s0 s |- _ =>
    let HS2 := fresh in
    pose proof (same_trans _ _ _ HS HS') as HS2;
    clear HS HS' HR; rename HS2 into HS; rename HR' into HR
  end.

Ltac acolor :=
  hassoc;
  lazymatch goal with
  | HR : Rep ?z ?s (plug ?t ?k) |- context [ (set_color ?x ?c' ≫= ?f) ?s ] =>
      let r := find_node x t k in
      lazymatch r with
      | (?K, ?c, ?l, ?v, ?r') =>
        let s' := fresh "s" in
        let Hrun := fresh in let HR' := fresh in let HS' := fresh in
        destruct (set_color_Rep z s x c l v r' K c' HR) as (s' & Hrun & HR' & HS');
        rewrite (bind_ok (set_color x c') f s _ _ Hrun); clear Hrun;
        after_step s HR HR' HS'
      end
  end.

Ltac arotl :=
  hassoc;
  lazymatch goal with
  | HR : Rep ?z ?s (plug ?t ?k) |- context [ (rotateLeft ?x ≫= ?f) ?s ] =>
      let r := find_node x t k in
      lazymatch r with
      | (?K, ?c, ?l, ?v, N ?b ?cb ?bl ?bv ?br) =>
        let s' := fresh "s" in
        let Hrun := fresh in let HR' := fresh in let HS' := fresh in
        destruct (rotateLeft_Rep z s x c l v b cb bl bv br K HR) as (s' & Hrun & HR' & HS');
        rewrite (bind_ok (rotateLeft x) f s _ _ Hrun); clear Hrun;
        after_step s HR HR' HS'
      end
  end.

Ltac arotr :=
  hassoc;
  lazymatch goal with
  | HR : Rep ?z ?s (plug ?t ?k) |- context [ (rotateRight ?x ≫= ?f) ?s ] =>
      let r := find_node x t k in
      lazymatch r with
      | (?K, ?c, N ?b ?cb ?bl ?bv ?br, ?v, ?r') =>
        let s' := fresh "s" in
        let Hrun := fresh in let HR' := fresh in let HS' := fresh in
        destruct (rotateRight_Rep z s x c b cb bl bv br v r' K HR) as (s' & Hrun & HR' & HS');
        rewrite (bind_ok (rotateRight x) f s _ _ Hrun); clear Hrun;
        after_step s HR HR' HS'
      end
  end.

(** [refocus x]: the current tree, seen from the node [x]. *)
Ltac refocus x :=
  lazymatch goal with
  | HR : Rep ?z ?s (plug ?t ?k) |- _ =>
    let r := find_node x t k in
    lazymatch r with
    | (?K, ?c, ?l, ?v, ?r') => change (Rep z s (plug (N x c l v r') K)) in HR
    end
  end.

(** A pointer test, decided from the pointers of the current tree. *)
Ltac atest :=
  lazymatch goal with
  | HR : Rep _ ?s _ |- context [ _ ?s = _ ] =>
    let F := fresh "HND" in
    pose proof (Rep_footprint _ _ _ _ HR) as F;
    cbn [addrs] in F; nd_reify F;
    htest;
    clear F
  end.

Ltac use_IH n :=
  lazymatch goal with
  | IH : ∀ m, m < S ?fuel → _, HS : same ?s0 ?s,
    HR : Rep _ ?s (plug (N ?a red ?l ?v ?r) ?K) |- _ =>
    let Hlen := fresh in
    assert (Hlen : length K < fuel) by (simpl in *; lia);
    let s' := fresh "s'" in let t' := fresh "t'" in
    let HS' := fresh "HS'" in
    edestruct (IH fuel ltac:(lia) K s a l v r n Hlen HR)
      as (s' & t' & Hrun & HR' & HS' & Ha' & He' & Hrb');
    [..|pose proof (same_trans _ _ _ HS HS')]
  end.

Section InsertFixup.

Context {T : Type}.
Variable zero : T.
Implicit Types (s : @RBTree T) (t l r : @tree T) (k : list (@frame T)).
Local Abbreviation Rep := (Rep zero).

(** The loop of [insertFixup] stops below a black node. *)
Lemma exit_ok k t n :
  ctx_ok k n → rbt t n → head_black k → k ≠ [] → ∃ m, rbt (blacken (plug t k)) m.
Proof.
  intros Hk Ht Hh Hne. destruct (plug_rbt k t n) as (m & Hm & Hc); auto.
  exists m. rewrite color_plug_black; auto.
Qed.

(** The loop of [insertFixup], entered at a red node [a] whose subtrees
    are red-black: it returns, and the state then holds a red-black tree
    with the same addresses and values in the same order; only its root
    may still be red. *)
Lemma insertFixup_loop_spec fuel k s a l v r n :
  length k < fuel →
  Rep s (plug (N a red l v r) k) →
  rbt (N a red l v r) n → ctx_ok k n →
  ∃ s' t', insertFixup_loop fuel a s = Ok tt s' ∧ Rep s' t' ∧ same s s'
    ∧ addrs t' = addrs (plug (N a red l v r) k)
    ∧ elems t' = elems (plug (N a red l v r) k)
    ∧ ∃ m, rbt (blacken t') m.
Proof.
  revert k s a l v r n. induction fuel as [fuel IH] using lt_wf_ind.
  intros k s a l v r n Hfuel HR Hrb Hk.
  destruct fuel as [|fuel]; [lia|]. cbn [insertFixup_loop].
  pose proof (same_refl s) as HS.
  destruct k as [|f k].
  { aread. aread.
    eexists _, _. split_and!; [done..|]. exists (S n). simpl in *. tauto. }
  destruct f as [p pc pv pr|p pc pl pv]; rewrite plug_cons in HR; cbn [fill] in HR.
  - aread. aread. destruct pc.
    { eexists _, _. split_and!; [done..|].
      apply (exit_ok (FL p black pv pr :: k) (N a red l v r) n); done. }
    destruct Hk as (Hpr & Hprc & Htop & Hk).
    destruct k as [|[gp gc gv u|gp gc u gv] k]; [done| |]; simpl in Htop; subst gc;
      rewrite plug_cons in HR; cbn [fill] in HR; destruct Hk as (Hu & Hk); cbn [fcolor fsib] in *.
    + aread. aread. atest. aread. aread.
      destruct (color_of u) eqn:Huc.
      * aread. atest. aread. aread. acolor. aread. acolor. arotr.
        refocus a. use_IH n; [simpl in *; tauto..|].
        rewrite Hrun. eexists _, _. split_and!; try done.
        -- rewrite Ha'. rewrite !plug_cons. apply addrs_plug_eq. solve_list_eq.
        -- rewrite He'. rewrite !plug_cons. apply elems_plug_eq. solve_list_eq.
      * destruct u as [|ua [] ul uv ur]; try done. cbn [ptr].
        acolor. acolor. acolor.
        use_IH (S n); [simpl in *; tauto..|].
        rewrite Hrun. eexists _, _. split_and!; try done.
        -- rewrite Ha'. rewrite !plug_cons. by apply addrs_plug_eq.
        -- rewrite He'. rewrite !plug_cons. by apply elems_plug_eq.
    + aread. aread. atest. aread. aread.
      destruct (color_of u) eqn:Huc.
      * aread. atest. arotr. aread. aread. acolor. aread. acolor. arotl.
        refocus p. use_IH n; [simpl in *; tauto..|].
        rewrite Hrun. eexists _, _. split_and!; try done.
        -- rewrite Ha'. rewrite !plug_cons. apply addrs_plug_eq. solve_list_eq.
        -- rewrite He'. rewrite !plug_cons. apply elems_plug_eq. solve_list_eq.
      * destruct u as [|ua [] ul uv ur]; try done. cbn [ptr].
        acolor. acolor. acolor.
        use_IH (S n); [simpl in *; tauto..|].
        rewrite Hrun. eexists _, _. split_and!; try done.
        -- rewrite Ha'. rewrite !plug_cons. by apply addrs_plug_eq.
        -- rewrite He'. rewrite !plug_cons. by apply elems_plug_eq.
  - aread. aread. destruct pc.
    { eexists _, _. split_and!; [done..|].
      apply (exit_ok (FR p black pl pv :: k) (N a red l v r) n); done. }
    destruct Hk as (Hpl & Hplc & Htop & Hk).
    destruct k as [|[gp gc gv u|gp gc u gv] k]; [done| |]; simpl in Htop; subst gc;
      rewrite plug_cons in HR; cbn [fill] in HR; destruct Hk as (Hu & Hk); cbn [fcolor fsib] in *.
    + aread. aread. atest. aread. aread.
      destruct (color_of u) eqn:Huc.
      * aread. atest. arotl. aread. aread. acolor. aread. acolor. arotr.
        refocus p. use_IH n; [simpl in *; tauto..|].
        rewrite Hrun. eexists _, _. split_and!; try done.
        -- rewrite Ha'. rewrite !plug_cons. apply addrs_plug_eq. solve_list_eq.
        -- rewrite He'. rewrite !plug_cons. apply elems_plug_eq. solve_list_eq.
      * destruct u as [|ua [] ul uv ur]; try done. cbn [ptr].
        acolor. acolor. acolor.
        use_IH (S n); [simpl in *; tauto..|].
        rewrite Hrun. eexists _, _. split_and!; try done.
        -- rewrite Ha'. rewrite !plug_cons. by apply addrs_plug_eq.
        -- rewrite He'. rewrite !plug_cons. by apply elems_plug_eq.
    + aread. aread. atest. aread. aread.
      destruct (color_of u) eqn:Huc.
      * aread. atest. aread. aread. acolor. aread. acolor. arotl.
        refocus a. use_IH n; [simpl in *; tauto..|].
        rewrite Hrun. eexists _, _. split_and!; try done.
        -- rewrite Ha'. rewrite !plug_cons. apply addrs_plug_eq. solve_list_eq.
        -- rewrite He'. rewrite !plug_cons. apply elems_plug_eq. solve_list_eq.
      * destruct u as [|ua [] ul uv ur]; try done. cbn [ptr].
        acolor. acolor. acolor.
        use_IH (S n); [simpl in *; tauto..|].
        rewrite Hrun. eexists _, _. split_and!; try done.
        -- rewrite Ha'. rewrite !plug_cons. by apply addrs_plug_eq.
        -- rewrite He'. rewrite !plug_cons. by apply elems_plug_eq.
Qed.

End InsertFixup.

(** ** Insertion *)

Lemma NoDup_bounded_length (l : list nat) (n : nat) :
  NoDup l → (∀ x, x ∈ l → x < n) → length l ≤ n.
Proof.
  intros Hnd Hlt.
  assert (Hsub : l ⊆+ seq 0 n).
  { apply NoDup_submseteq; [done|]. intros x Hx. apply elem_of_seq. apply Hlt in Hx. lia. }
  apply submseteq_length in Hsub. by rewrite length_seq in Hsub.
Qed.

Section Shape2.
Context {T : Type}.
Implicit Types (t l r : @tree T) (k : list (@frame T)).

(** A red-black tree with a black root, cut at any subtree. *)
Lemma rbt_unplug k t m :
  rbt (plug t k) m → color_of (plug t k) = black →
  ∃ n, rbt t n ∧ ctx_ok k n ∧ (color_of t = red → top_black k).
Proof.
  revert t. induction k as [|f k IH]; intros t Hrb Hc.
  - rewrite plug_nil in *. exists m. split_and!; [done..|]. congruence.
  - rewrite plug_cons in *. destruct (IH _ Hrb Hc) as (n & Hn & Hk & Htop).
    destruct f as [a [] v r|a [] l v]; simpl in *.
    + destruct n as [|n]; [done|]. exists n. tauto.
    + exists n. split_and!; try tauto. intros Hr. destruct Hn as (Hn & _). congruence.
    + destruct n as [|n]; [done|]. exists n. tauto.
    + exists n. split_and!; try tauto. intros Hr. destruct Hn as (_ & Hn & _). congruence.
Qed.

Lemma height_le_size t : height t ≤ length (addrs t).
Proof.
  induction t as [|a c l IHl v r IHr]; simpl; [lia|].
  rewrite length_app. simpl. lia.
Qed.

Lemma size_plug t k : length (addrs t) + length k ≤ length (addrs (plug t k)).
Proof.
  revert t. induction k as [|f k IH]; intros t; [rewrite plug_nil; simpl; lia|].
  rewrite plug_cons. specialize (IH (fill f t)).
  destruct f; simpl in *; rewrite ?length_app in *; simpl in *; lia.
Qed.

End Shape2.

Section Size.
Context {T : Type}.
Variable zero : T.
Implicit Types (s : @RBTree T) (t l r : @tree T) (k : list (@frame T)).
Local Abbreviation Rep := (Rep zero).

(** The allocation counter bounds the number of nodes: the fuel the
    methods take from it is enough for any walk along a path. *)
Lemma Rep_size s t : Rep s t → length (addrs t) + 2 ≤ next s.
Proof.
  intros H. pose proof (Rep_footprint zero s t [] H) as Hnd.
  apply NoDup_bounded_length with (n := next s) in Hnd.
  - simpl in Hnd. rewrite length_app in Hnd. unfold kaddrs in Hnd. simpl in Hnd. lia.
  - intros x Hx. unfold kaddrs in Hx. simpl in Hx. rewrite app_nil_r in Hx.
    apply elem_of_cons in Hx as [->|Hx]; [by eapply Rep_nil_lt|].
    apply elem_of_cons in Hx as [->|Hx]; [pose proof (Rep_nil_lt _ _ _ H); lia|].
    by eapply Rep_addr_lt.
Qed.

Lemma Rep_fuel_path s t k : Rep s (plug t k) → length (addrs t) + length k < next s.
Proof.
  intros H. pose proof (Rep_size _ _ H). pose proof (size_plug t k). lia.
Qed.

End Size.

Section Alloc.
Context {T : Type}.
Variable zero : T.
Implicit Types (s : @RBTree T) (t l r : @tree T) (k : list (@frame T)).
Local Abbreviation Rep := (Rep zero).

(** A new tree over the same sentinel, after stores at allocated pointers
    [ms]. *)
Lemma Rep_rebuild s s' t t' ms :
  Rep s t →
  nil_ s' = nil_ s → next s ≤ next s' →
  agree ms (heap s) (heap s') →
  nil_ s ∉ ms → 0 ∉ ms → Forall (λ a, a < next s') ms →
  NoDup (addrs t') → nil_ s ∉ addrs t' →
  root s' = ptr (nil_ s) t' →
  repr (heap s') (nil_ s) t' 0 →
  Rep s' t' ∧ nilpar s' = nilpar s.
Proof.
  intros H Hnil Hnext Hag Hmn Hm0 Hms Hnd Hnf Hroot Hrep.
  assert (Hn : heap s' !! nil_ s = heap s !! nil_ s) by by apply Hag.
  split.
  - constructor; rewrite ?Hnil; try done.
    + rewrite Hn. apply H.
    + rewrite Hag; [apply H|done].
    + intros a Ha. destruct (decide (a ∈ ms)) as [Hin|Hin].
      * rewrite Forall_forall in Hms. apply Hms in Hin. lia.
      * rewrite Hag; [|done]. apply H. lia.
  - unfold nilpar. by rewrite Hnil, Hn.
Qed.

(** [&Node[T]{...}]: the new node is nowhere in the tree. *)
Lemma alloc_Rep s t n :
  Rep s t →
  let s' := mkTree (root s) (nil_ s) (<[next s := n]> (heap s)) (S (next s)) in
  alloc n s = Ok (next s) s' ∧ Rep s' t ∧ nilpar s' = nilpar s
  ∧ heap s' !! next s = Some n
  ∧ (next s ∉ addrs t) ∧ next s ≠ nil_ s ∧ next s ≠ 0.
Proof.
  intros H s'.
  assert (Hfresh : next s ∉ addrs t).
  { intros Hin. apply (Rep_addr_lt _ _ _ _ H) in Hin. lia. }
  assert (Hnl : next s ≠ nil_ s) by (pose proof (Rep_nil_lt _ _ _ H); lia).
  assert (H0 : next s ≠ 0) by (pose proof (Rep_nil_lt _ _ _ H); lia).
  assert (Hreb : Rep s' t ∧ nilpar s' = nilpar s).
  { eapply (Rep_rebuild s s' t t [next s] H); try done; try apply H.
    - simpl. lia.
    - subst s'. solve_agree.
    - apply notin_cons; [done|apply notin_nil].
    - apply notin_cons; [done|apply notin_nil].
    - repeat constructor.
    - eapply (repr_frame [next s]); [subst s'; solve_agree| |apply H].
      intros a Ha ->%list_elem_of_singleton. done. }
  split_and!; try done; try apply Hreb. apply lookup_insert_eq.
Qed.

End Alloc.

Section Insert.
Context {T : Type}.
Variable compare : T → T → Z.
Variable zero : T.
Implicit Types (s : @RBTree T) (t l r : @tree T) (k : list (@frame T)).
Local Abbreviation Rep := (Rep zero).
Local Abbreviation ins_path := (ins_path compare).

Lemma ins_path_plug v t k k' : ins_path v t k = Some k' → plug E k' = plug t k.
Proof.
  revert k. induction t as [|a c l IHl x r IHr]; intros k; simpl.
  - by intros [= ->].
  - destruct (compare v x <? 0)%Z; [by intros ->%IHl|].
    destruct (0 <? compare v x)%Z; [by intros ->%IHr|done].
Qed.

(** Hanging the new node [i] below [a]. *)
Lemma attach_left s a c x r k i v :
  Rep s (plug (N a c E x r) k) →
  heap s !! i = Some (mkNode red 0 (nil_ s) (nil_ s) v) →
  i ∉ addrs (plug (N a c E x r) k) → i ≠ nil_ s → i ≠ 0 → i < next s →
  ∃ s', (set_parent i a ≫= λ _, set_left a i) s = Ok tt s'
    ∧ Rep s' (plug (N a c (N i red E v E) x r) k)
    ∧ nil_ s' = nil_ s ∧ next s' = next s ∧ nilpar s' = nilpar s.
Proof.
  intros H Hi Hfresh Hin Hi0 Hlt.
  pose proof (Rep_lookup _ _ _ _ _ _ _ _ H) as Ha. cbn [ptr] in Ha.
  pose proof (rep_tree _ _ _ H) as Ht. apply repr_plug in Ht as [(_ & _ & Hr) Hk].
  assert (HND : NoDup (i :: nil_ s :: 0 :: addrs (N a c E x r) ++ kaddrs k)).
  { apply NoDup_cons. split; [|by apply (Rep_footprint zero)].
    rewrite addrs_plug_perm in Hfresh.
    apply notin_cons; [done|]. by apply notin_cons. }
  cbn [addrs] in HND. nd_reify HND.
  hstep. eexists. split; [apply set_left_ok; hlookup|].
  cbn [ncolor parent left right Value].
  match goal with |- Rep ?s1 _ ∧ _ => set (s' := s1) end.
  assert (Hag : agree [i; a] (heap s) (heap s')) by (subst s'; solve_agree).
  assert (Hsub : NoDup (addrs (plug (N a c (N i red E v E) x r) k))
                 ∧ nil_ s ∉ addrs (plug (N a c (N i red E v E) x r) k)).
  { apply (fresh_sub _ _ (i :: addrs (plug (N a c E x r) k))).
    - apply NoDup_cons. split.
      + apply notin_cons; [done|apply H].
      + apply NoDup_cons. split; [done|apply H].
    - rewrite !addrs_plug. simpl. solve_submseteq. }
  assert (Hreb : Rep s' (plug (N a c (N i red E v E) x r) k) ∧ nilpar s' = nilpar s).
  { eapply (Rep_rebuild _ s s' _ _ [i; a] H); try done; try apply Hsub.
    - nd.
    - nd.
    - repeat (apply Forall_cons_2; [subst s'; simpl; try lia|]); [|apply Forall_nil_2].
      eapply Rep_addr_lt; [exact H|]. eapply Rep_in_plug, H.
    - subst s'. cbn [root upd]. rewrite (rep_root _ _ _ H), !ptr_plug. done.
    - apply repr_plug. subst s'. simpl. split_and!; try done; try hlookup.
      + eapply repr_frame; [exact Hag|nd|done].
      + eapply reprk_frame; [exact Hag|nd|done]. }
  split_and!; try done; apply Hreb.
Qed.

Lemma attach_right s a c l x k i v :
  Rep s (plug (N a c l x E) k) →
  heap s !! i = Some (mkNode red 0 (nil_ s) (nil_ s) v) →
  i ∉ addrs (plug (N a c l x E) k) → i ≠ nil_ s → i ≠ 0 → i < next s →
  ∃ s', (set_parent i a ≫= λ _, set_right a i) s = Ok tt s'
    ∧ Rep s' (plug (N a c l x (N i red E v E)) k)
    ∧ nil_ s' = nil_ s ∧ next s' = next s ∧ nilpar s' = nilpar s.
Proof.
  intros H Hi Hfresh Hin Hi0 Hlt.
  pose proof (Rep_lookup _ _ _ _ _ _ _ _ H) as Ha. cbn [ptr] in Ha.
  pose proof (rep_tree _ _ _ H) as Ht. apply repr_plug in Ht as [(_ & Hl & _) Hk].
  assert (HND : NoDup (i :: nil_ s :: 0 :: addrs (N a c l x E) ++ kaddrs k)).
  { apply NoDup_cons. split; [|by apply (Rep_footprint zero)].
    rewrite addrs_plug_perm in Hfresh.
    apply notin_cons; [done|]. by apply notin_cons. }
  cbn [addrs] in HND. nd_reify HND.
  hstep. eexists. split; [apply set_right_ok; hlookup|].
  cbn [ncolor parent left right Value].
  match goal with |- Rep ?s1 _ ∧ _ => set (s' := s1) end.
  assert (Hag : agree [i; a] (heap s) (heap s')) by (subst s'; solve_agree).
  assert (Hsub : NoDup (addrs (plug (N a c l x (N i red E v E)) k))
                 ∧ nil_ s ∉ addrs (plug (N a c l x (N i red E v E)) k)).
  { apply (fresh_sub _ _ (i :: addrs (plug (N a c l x E) k))).
    - apply NoDup_cons. split.
      + apply notin_cons; [done|apply H].
      + apply NoDup_cons. split; [done|apply H].
    - rewrite !addrs_plug. simpl. solve_submseteq. }
  assert (Hreb : Rep s' (plug (N a c l x (N i red E v E)) k) ∧ nilpar s' = nilpar s).
  { eapply (Rep_rebuild _ s s' _ _ [i; a] H); try done; try apply Hsub.
    - nd.
    - nd.
    - repeat (apply Forall_cons_2; [subst s'; simpl; try lia|]); [|apply Forall_nil_2].
      eapply Rep_addr_lt; [exact H|]. eapply Rep_in_plug, H.
    - subst s'. cbn [root upd]. rewrite (rep_root _ _ _ H), !ptr_plug. done.
    - apply repr_plug. subst s'. simpl. split_and!; try done; try hlookup.
      + eapply repr_frame; [exact Hag|nd|done].
      + eapply reprk_frame; [exact Hag|nd|done]. }
  split_and!; try done; apply Hreb.
Qed.

(** The descent of [Insert] for a value it does not meet: the new node is
    hung where [ins_path] says. *)
Lemma Insert_loop_ok v i t : ∀ k s fuel k',
  Rep s (plug t k) → t ≠ E → height t ≤ fuel →
  heap s !! i = Some (mkNode red 0 (nil_ s) (nil_ s) v) →
  i ∉ addrs (plug t k) → i ≠ nil_ s → i ≠ 0 → i < next s →
  ins_path v t k = Some k' →
  ∃ s', Insert_loop compare fuel v i (ptr (nil_ s) t) s = Ok tt s'
    ∧ Rep s' (plug (N i red E v E) k')
    ∧ nil_ s' = nil_ s ∧ next s' = next s ∧ nilpar s' = nilpar s.
Proof.
  induction t as [|a c l IHl x r IHr]; intros k s fuel k' HR Hne Hfuel Hi Hfresh Hin Hi0 Hlt Hpath;
    [done|].
  destruct fuel as [|fuel]; [simpl in Hfuel; lia|]. simpl in Hfuel.
  cbn [Insert_loop ptr]. aread. atest. aread. cbn zeta.
  simpl in Hpath. destruct (compare v x <? 0)%Z.
  - aread. destruct l as [|la lc ll lx lr]; cbn [ptr].
    + atest. simpl in Hpath. injection Hpath as <-.
      by apply attach_left.
    + atest. apply (IHl (FL a c x r :: k)); try done. simpl in *. lia.
  - destruct (0 <? compare v x)%Z; [|done].
    aread. destruct r as [|ra rc rl rx rr]; cbn [ptr].
    + atest. simpl in Hpath. injection Hpath as <-.
      by apply attach_right.
    + atest. apply (IHr (FR a c l x :: k)); try done. simpl in *. lia.
Qed.

(** The descent of [Insert] for a value it meets: the panic, before any
    write. *)
Lemma Insert_loop_dup v i t : ∀ k s fuel,
  Rep s (plug t k) → t ≠ E → height t ≤ fuel →
  ins_path v t k = None →
  Insert_loop compare fuel v i (ptr (nil_ s) t) s = Fault (Panic "duplicate value") s.
Proof.
  induction t as [|a c l IHl x r IHr]; intros k s fuel HR Hne Hfuel Hpath; [done|].
  destruct fuel as [|fuel]; [simpl in Hfuel; lia|]. simpl in Hfuel.
  cbn [Insert_loop ptr]. aread. atest. aread. cbn zeta.
  simpl in Hpath. destruct (compare v x <? 0)%Z.
  - aread. destruct l as [|la lc ll lx lr]; cbn [ptr]; [done|].
    atest. apply (IHl (FL a c x r :: k)); try done. simpl in *. lia.
  - destruct (0 <? compare v x)%Z; [|done].
    aread. destruct r as [|ra rc rl rx rr]; cbn [ptr]; [done|].
    atest. apply (IHr (FR a c l x :: k)); try done. simpl in *. lia.
Qed.

(** [insertFixup] after the new red node has been hung at the end of [k]. *)
Lemma insertFixup_spec s a l v r k n :
  Rep s (plug (N a red l v r) k) →
  rbt (N a red l v r) n → ctx_ok k n →
  ∃ s' t', insertFixup a s = Ok tt s' ∧ Rep s' t' ∧ same s s'
    ∧ addrs t' = addrs (plug (N a red l v r) k)
    ∧ elems t' = elems (plug (N a red l v r) k)
    ∧ (∃ m, rbt t' m) ∧ color_of t' = black.
Proof.
  intros HR Hrb Hk. unfold insertFixup. aread.
  destruct (insertFixup_loop_spec zero (next s) k s a l v r n) as
    (s' & t' & Hrun & HR' & HS' & Ha' & He' & m & Hrb'); try done.
  { pose proof (Rep_fuel_path _ _ _ _ HR). simpl in *. lia. }
  rewrite (bind_ok _ _ _ _ _ Hrun).
  destruct t' as [|ra rc rl rv rr].
  { exfalso. rewrite addrs_plug in Ha'. simpl in Ha'.
    destruct (kaddrs_l k); simpl in Ha'; [destruct (addrs l)|]; done. }
  change (Rep s' (plug (N ra rc rl rv rr) [])) in HR'.
  pose proof (same_refl s') as HS. 
  aread. destruct (set_color_Rep _ _ _ _ _ _ _ _ black HR') as (s'' & Hrun' & HR'' & HS'').
  exists s'', (N ra black rl rv rr). split_and!; try done.
  - by eapply same_trans.
  - by exists m.
Qed.

(** [Insert] of a value the descent does not meet. *)
Lemma Insert_ok s t v k' m :
  Rep s t → rbt t m → color_of t = black →
  ins_path v t [] = Some k' →
  ∃ s' t', Insert compare v s = Ok (next s) s' ∧ Rep s' t'
    ∧ (∃ m', rbt t' m') ∧ color_of t' = black
    ∧ elems t' = kelems_l k' ++ v :: kelems_r k'
    ∧ addrs t' = kaddrs_l k' ++ next s :: kaddrs_r k'
    ∧ nil_ s' = nil_ s.
Proof.
  intros HR Hrb Hc Hpath. unfold Insert.
  change ((get_root ≫= ?f) s) with (f (root s) s). cbn beta.
  rewrite (rep_root _ _ _ HR). 
  change (Rep s (plug t [])) in HR.  aread.

  destruct t as [|a c l x r]; cbn [ptr].
  - rewrite Nat.eqb_refl. simpl in Hpath. injection Hpath as <-.
    destruct (alloc_Rep zero s E (mkNode black 0 (nil_ s) (nil_ s) v) HR)
      as (Hrun & HR' & _ & Hi & Hfresh & Hin & Hi0).
    rewrite (bind_ok _ _ _ _ _ Hrun). hstep.
    eexists _, (N (next s) black E v E). split; [reflexivity|].
    split_and!; try done; [|by exists 1].
    eapply (Rep_rebuild _ _ _ E _ [] HR'); try done; simpl;
      first [ apply not_elem_of_nil | apply NoDup_singleton
            | apply notin_cons; [done|apply notin_nil] | by split_and! ].
  - atest.
    destruct (alloc_Rep zero s _ (mkNode red 0 (nil_ s) (nil_ s) v) HR)
      as (Hrun & HR' & _ & Hi & Hfresh & Hin & Hi0).
    rewrite (bind_ok _ _ _ _ _ Hrun). clear Hrun.
    match type of HR' with Rep ?s1 _ => set (s1' := s1) in * end.
    aread.
    destruct (Insert_loop_ok v (next s) (N a c l x r) [] s1' (next s1') k')
      as (s2 & Hrun & HR2 & Hn2 & Hx2 & _); try done.
    { pose proof (Rep_size _ _ _ HR'). pose proof (height_le_size (N a c l x r)).
      rewrite plug_nil in *. lia. }
    { simpl. lia. }
    cbn [ptr] in Hrun. rewrite (bind_ok _ _ _ _ _ Hrun). clear Hrun.
    pose proof (ins_path_plug _ _ _ _ Hpath) as Hplug. rewrite plug_nil in Hplug.
    destruct (rbt_unplug k' E m) as (n & Hn & Hk & _); [by rewrite Hplug..|].
    simpl in Hn. subst n.
    destruct (insertFixup_spec s2 (next s) E v E k' 0) as
      (s3 & t3 & Hrun & HR3 & HS3 & Ha3 & He3 & Hrb3 & Hc3); try done.
    rewrite (bind_ok _ _ _ _ _ Hrun). clear Hrun.
    exists s3, t3. split; [reflexivity|].
    rewrite Ha3, He3, addrs_plug, elems_plug. split_and!; try done.
    destruct HS3 as (-> & _). done.
Qed.

(** [Insert] of a value the descent meets: the panic leaves the tree as
    it was; only the node allocated for the value has been added to the
    heap, linked from nowhere. *)
Lemma Insert_dup s t v :
  Rep s t → ins_path v t [] = None →
  let s' := mkTree (root s) (nil_ s)
              (<[next s := mkNode red 0 (nil_ s) (nil_ s) v]> (heap s)) (S (next s)) in
  Insert compare v s = Fault (Panic "duplicate value") s' ∧ Rep s' t.
Proof.
  intros HR Hpath s'. unfold Insert.
  change ((get_root ≫= ?f) s) with (f (root s) s). cbn beta.
  rewrite (rep_root _ _ _ HR).
  change (Rep s (plug t [])) in HR. aread.
  destruct t as [|a c l x r]; cbn [ptr]; [done|].
  atest.
  destruct (alloc_Rep zero s _ (mkNode red 0 (nil_ s) (nil_ s) v) HR)
    as (Hrun & HR' & _ & Hi & Hfresh & Hin & Hi0).
  rewrite (bind_ok _ _ _ _ _ Hrun). clear Hrun.
  fold s' in HR' |- *. split; [|done].
  aread.
  pose proof (Insert_loop_dup v (next s) (N a c l x r) [] s' (next s')) as Hdup.
  cbn [ptr] in Hdup. rewrite (bind_fault _ _ _ _ _ (Hdup HR' ltac:(done) ltac:(
    pose proof (Rep_size _ _ _ HR'); pose proof (height_le_size (N a c l x r));
    rewrite plug_nil in *; lia) Hpath)). done.
Qed.

End Insert.

(** ** Deletion: the fix-up *)

Section DeleteFixupPre.
Context {T : Type}.
Variable zero : T.
Implicit Types (s : @RBTree T) (t l r : @tree T) (k : list (@frame T)).
Local Abbreviation Rep := (Rep zero).

Lemma kroot_in f k : kroot (faddr f) k ∈ kaddrs (f :: k).
Proof.
  revert f. induction k as [|g k IH]; intros f; simpl.
  - apply kaddrs_cons. auto.
  - apply kaddrs_cons. right. right. apply IH.
Qed.

(** A subtree below some node is not at the root. *)
Lemma Rep_not_root s t f k :
  Rep s (plug t (f :: k)) → ptr (nil_ s) t ≠ kroot (faddr f) k.
Proof.
  intros H Heq. pose proof (kroot_in f k) as Hin. rewrite <- Heq in Hin.
  pose proof (Rep_footprint _ _ _ _ H) as Hnd.
  apply NoDup_cons in Hnd as (Hnil & Hnd).
  apply NoDup_cons in Hnd as (_ & Hnd). apply NoDup_app in Hnd as (_ & Hdis & _).
  destruct t as [|a c l v r]; simpl in *.
  - apply Hnil. apply elem_of_cons. by right.
  - apply (Hdis a); [|done]. apply elem_of_app. right. by left.
Qed.

(** The parent of the node in the hole, read from the node or, for an
    absent child, from the scratch field of the sentinel. *)
Lemma get_parent_focus s t k :
  Rep s (plug t k) → (t = E → nilpar s = top k) →
  get_parent (ptr (nil_ s) t) s = Ok (top k) s.
Proof.
  intros H Hnp. destruct t as [|a c l v r]; simpl.
  - rewrite (get_parent_nil _ _ _ H). by rewrite Hnp.
  - by apply get_parent_Rep in H.
Qed.

(** [n.color = black] on the sentinel writes what is there already. *)
Lemma set_color_nil s t :
  Rep s t → ∃ s', set_color (nil_ s) black s = Ok tt s' ∧ Rep s' t ∧ same s s'.
Proof.
  intros H. destruct (rep_nil _ _ _ H) as [sp Hsp].
  exists s. rewrite (set_color_ok _ _ _ _ Hsp). simpl. split_and!; [|done..].
  f_equal. destruct s as [rt nl h nx]. unfold upd. simpl in *.
  f_equal. by apply insert_id.
Qed.

Lemma rbt_black_S t n : rbt t (S n) → color_of t = black → ∃ a l v r, t = N a black l v r.
Proof. destruct t as [|a [] l v r]; simpl; [done| |done]. eauto. Qed.

Lemma rbt_S_node t n : rbt t (S n) → ∃ a c l v r, t = N a c l v r.
Proof. destruct t as [|a c l v r]; simpl; [done|]. eauto 10. Qed.

End DeleteFixupPre.

Ltac solve_np :=
  let Hx := fresh in
  intros Hx;
  lazymatch goal with
  | Hnp : _ = E → nilpar ?s0 = _, HS : same ?s0 ?s |- nilpar ?s = _ =>
    etransitivity; [exact (proj2 (proj2 HS))|exact (Hnp Hx)]
  end.

(** [get_parent] of the node in the hole. *)
Ltac aparent :=
  hassoc;
  lazymatch goal with
  | HR : Rep ?z ?s (plug ?t ?k) |- context [ (get_parent (ptr (nil_ ?s) ?u) ≫= ?f) ?s ] =>
      let K := find_sub u t k in
      rewrite (bind_ok _ f s _ _ (get_parent_focus z s u K HR ltac:(solve_np)))
  end; cbn [top faddr].

(** The loop ends on the root: the tree as a whole is the result. *)
Ltac exit_whole :=
  lazymatch goal with
  | HR : Rep _ ?s (plug ?t ?k) |- _ =>
    exists s, (plug t k), []; rewrite ptr_plug; split; [reflexivity|]
  end.

Ltac solve_shape :=
  solve [ done | simpl in *; tauto | left; reflexivity | right; simpl in *; tauto ].

Section DeleteFixup.
Context {T : Type}.
Variable zero : T.
Implicit Types (s : @RBTree T) (t l r : @tree T) (k : list (@frame T)).
Local Abbreviation Rep := (Rep zero).

Lemma blacken_id t : color_of t = black → blacken t = t.
Proof. destruct t as [|a [] l v r]; simpl; done. Qed.

Lemma top_head_black k : top_black k → head_black k.
Proof. by destruct k. Qed.

(** The whole tree after the last rotation: red-black with a black root
    already, so that the final blackening changes nothing. *)
Lemma whole_ok k t n :
  ctx_ok k n → rbt t n → color_of t = black ∨ top_black k →
  (∃ m, rbt (plug (blacken (plug t k)) []) m)
  ∧ color_of (plug (blacken (plug t k)) []) = black.
Proof.
  intros Hk Ht Hc. rewrite !plug_nil.
  destruct (plug_rbt k t n) as (m & Hm & Hcol); [done..| |].
  { destruct Hc; [by left|right; by apply top_head_black]. }
  assert (Hb : color_of (plug t k) = black).
  { destruct k as [|f k]; [|by apply Hcol]. rewrite plug_nil. by destruct Hc. }
  rewrite (blacken_id _ Hb). eauto.
Qed.

End DeleteFixup.

(** The end of case 4: after the rotation the loop is entered once more
    on the root and left at once. *)
Ltac fin_whole n :=
  aread;
  lazymatch goal with
  | |- context [deleteFixup_loop ?fuel _ _] =>
    destruct fuel as [|fuel]; [simpl in *; lia|]
  end;
  cbn [deleteFixup_loop]; aread; rewrite Nat.eqb_refl;
  exit_whole; do 2 (split; [done|]);
  (split; [rewrite plug_nil, !plug_cons; apply addrs_plug_eq; solve_list_eq|]);
  (split; [rewrite plug_nil, !plug_cons; apply elems_plug_eq; solve_list_eq|]);
  try match goal with pc : color |- _ => destruct pc end;
  first [ apply (whole_ok _ _ (S (S n))); solve_shape
        | apply (whole_ok _ _ (S n)); solve_shape ].

Section DeleteFixup2.
Context {T : Type}.
Variable zero : T.
Implicit Types (s : @RBTree T) (t l r : @tree T) (k : list (@frame T)).
Local Abbreviation Rep := (Rep zero).

(** The loop of [deleteFixup], entered with a subtree [x] that is one
    black node short: it returns a node whose blackening gives a red-black
    tree with a black root, with the same addresses and values in the same
    order. *)
Lemma deleteFixup_loop_spec k : ∀ fuel s x n,
  length k < fuel →
  Rep s (plug x k) → (x = E → nilpar s = top k) →
  deficit x n → ctx_ok k (S n) →
  ∃ s' x' k', deleteFixup_loop fuel (ptr (nil_ s) x) s = Ok (ptr (nil_ s') x') s'
    ∧ Rep s' (plug x' k') ∧ same s s'
    ∧ addrs (plug x' k') = addrs (plug x k)
    ∧ elems (plug x' k') = elems (plug x k)
    ∧ (∃ m, rbt (plug (blacken x') k') m)
    ∧ color_of (plug (blacken x') k') = black.
Proof.
  induction k as [|f k IH]; intros fuel s x n Hfuel HR Hnp Hdef Hk;
    (destruct fuel as [|fuel]; [simpl in Hfuel; lia|]); cbn [deleteFixup_loop];
    pose proof (same_refl s) as HS.
  - aread. rewrite Nat.eqb_refl.
    exists s, x, []. split_and!; try done.
    + unfold deficit in Hdef. rewrite !plug_nil.
      destruct x as [|a [] l v r]; cbn [color_of blacken] in *; eauto.
    + rewrite plug_nil. by destruct x.
  - aread. rewrite eqb_false by (by eapply Rep_not_root).
    aread. destruct (color_of x) eqn:Hcx; unfold deficit in Hdef; rewrite Hcx in Hdef.
    2:{ exists s, x, (f :: k). split_and!; try done.
        - destruct (plug_rbt (f :: k) (blacken x) (S n)) as (m & Hm & _); eauto.
          left. by destruct x.
        - destruct (plug_rbt (f :: k) (blacken x) (S n)) as (m & Hm & Hc); eauto.
          left. by destruct x. }
    aparent.
    destruct f as [p pc pv w|p pc w pv]; rewrite plug_cons in HR; cbn [fill faddr] in *.
    + destruct Hk as (Hw & Hk). cbn [fsib fcolor] in *.
      destruct (rbt_S_node _ _ Hw) as (wa & wc & wl & wv & wr & ->).
      aread. rewrite Nat.eqb_refl. aread. aread. destruct wc.
      * aread. aread. aread. destruct Hw as (Hwl & Hwr).
        destruct (color_of wl) eqn:Hcl.
        -- aread. aread. destruct (color_of wr) eqn:Hcr.
           ++ (* case 2 *)
              acolor. aparent. destruct pc.
              ** destruct (IH fuel s0 (N p black x pv (N wa red wl wv wr)) (S n))
                   as (s' & x' & k' & Hrun & HR' & HS' & Ha' & He' & Hrb' & Hc');
                   [simpl in *; lia|exact HR|done|unfold deficit; simpl; tauto|tauto|].
                 exists s', x', k'. split_and!; try done.
                 { by eapply same_trans. }
                 { rewrite Ha', !plug_cons. by apply addrs_plug_eq. }
                 { rewrite He', !plug_cons. by apply elems_plug_eq. }
              ** destruct (IH fuel s0 (N p red x pv (N wa red wl wv wr)) n)
                   as (s' & x' & k' & Hrun & HR' & HS' & Ha' & He' & Hrb' & Hc');
                   [simpl in *; lia|exact HR|done|unfold deficit; simpl; tauto|tauto|].
                 exists s', x', k'. split_and!; try done.
                 { by eapply same_trans. }
                 { rewrite Ha', !plug_cons. by apply addrs_plug_eq. }
                 { rewrite He', !plug_cons. by apply elems_plug_eq. }
           ++ (* case 4 *)
              destruct wr as [|wra [] wrl wrv wrr]; try done; cbn [ptr] in *.
              aread. aread. aread. aparent. aread. acolor. acolor. aread. acolor. arotl.
              fin_whole n.
        -- aread. aread. aread.
           destruct wl as [|wla [] wll wlv wlr]; try done; cbn [ptr] in *.
           destruct (color_of wr) eqn:Hcr.
           ++ (* case 3, then case 4 *)
              aread. acolor. acolor. arotr. aparent. aread.
              aparent. aread. acolor. acolor. aread. acolor. arotl.
              fin_whole n.
           ++ (* case 4 *)
              destruct wr as [|wra [] wrl wrv wrr]; try done; cbn [ptr] in *.
              aread. aparent. aread. acolor. acolor. aread. acolor. arotl.
              fin_whole n.
      * (* case 1 *)
        destruct pc; [|simpl in Hk; destruct Hk as (? & _); done].
        destruct Hw as (Hcl & Hcr & Hwl & Hwr).
        destruct (rbt_black_S _ _ Hwl Hcl) as (wla & wll & wlv & wlr & ->).
        destruct Hwl as (Hwll & Hwlr). clear Hcl.
        acolor. acolor. arotl. aparent. aread.
        aread. aread. destruct (color_of wll) eqn:Hcl.
        -- aread. aread. destruct (color_of wlr) eqn:Hclr.
           ++ (* case 2: the parent is red, the loop ends there *)
              acolor. aparent.
              destruct fuel as [|fuel]; [simpl in Hfuel; lia|]. cbn [deleteFixup_loop].
              aread. refocus p.
              rewrite eqb_false by (apply (Rep_not_root zero _ _ _ _ HR)).
              aread.
              lazymatch goal with
              | HR : Rep ?s (plug ?t ?k) |- _ => exists s, t, k
              end.
              split; [reflexivity|]. do 2 (split; [done|]).
              split; [rewrite !plug_cons; apply addrs_plug_eq; solve_list_eq|].
              split; [rewrite !plug_cons; apply elems_plug_eq; solve_list_eq|].
              cbn [blacken].
              destruct (plug_rbt (FL wa black wv wr :: k) (N p black x pv (N wla red wll wlv wlr)) (S n))
                as (m & Hm & Hc); [solve_shape..|].
              split; [by exists m|by apply Hc].
           ++ destruct wlr as [|wra [] wrl wrv wrr]; try done; cbn [ptr] in *.
              aread. aread. aread. aparent. aread. acolor. acolor. aread. acolor. arotl.
              fin_whole n.
        -- aread. aread. aread.
           destruct wll as [|wlla [] wlll wllv wllr]; try done; cbn [ptr] in *.
           destruct (color_of wlr) eqn:Hclr.
           ++ aread. acolor. acolor. arotr. aparent. aread.
              aparent. aread. acolor. acolor. aread. acolor. arotl.
              fin_whole n.
           ++ destruct wlr as [|wra [] wrl wrv wrr]; try done; cbn [ptr] in *.
              aread. aparent. aread. acolor. acolor. aread. acolor. arotl.
              fin_whole n.
    + destruct Hk as (Hw & Hk). cbn [fsib fcolor] in *.
      destruct (rbt_S_node _ _ Hw) as (wa & wc & wl & wv & wr & ->).
      aread. cbn [ptr]. atest. aread. aread. destruct wc.
      * aread. aread. aread. destruct Hw as (Hwl & Hwr).
        destruct (color_of wr) eqn:Hcr.
        -- aread. aread. destruct (color_of wl) eqn:Hcl.
           ++ (* case 2 *)
              acolor. aparent. destruct pc.
              ** destruct (IH fuel s0 (N p black (N wa red wl wv wr) pv x) (S n))
                   as (s' & x' & k' & Hrun & HR' & HS' & Ha' & He' & Hrb' & Hc');
                   [simpl in *; lia|exact HR|done|unfold deficit; simpl; tauto|tauto|].
                 exists s', x', k'. split_and!; try done.
                 { by eapply same_trans. }
                 { rewrite Ha', !plug_cons. by apply addrs_plug_eq. }
                 { rewrite He', !plug_cons. by apply elems_plug_eq. }
              ** destruct (IH fuel s0 (N p red (N wa red wl wv wr) pv x) n)
                   as (s' & x' & k' & Hrun & HR' & HS' & Ha' & He' & Hrb' & Hc');
                   [simpl in *; lia|exact HR|done|unfold deficit; simpl; tauto|tauto|].
                 exists s', x', k'. split_and!; try done.
                 { by eapply same_trans. }
                 { rewrite Ha', !plug_cons. by apply addrs_plug_eq. }
                 { rewrite He', !plug_cons. by apply elems_plug_eq. }
           ++ (* case 4 *)
              destruct wl as [|wla [] wll wlv wlr]; try done; cbn [ptr] in *.
              aread. aread. aread. aparent. aread. acolor. acolor. aread. acolor. arotr.
              fin_whole n.
        -- aread. aread. aread.
           destruct wr as [|wra [] wrl wrv wrr]; try done; cbn [ptr] in *.
           destruct (color_of wl) eqn:Hcl.
           ++ (* case 3, then case 4 *)
              aread. acolor. acolor. arotl. aparent. aread.
              aparent. aread. acolor. acolor. aread. acolor. arotr.
              fin_whole n.
           ++ (* case 4 *)
              destruct wl as [|wla [] wll wlv wlr]; try done; cbn [ptr] in *.
              aread. aparent. aread. acolor. acolor. aread. acolor. arotr.
              fin_whole n.
      * (* case 1 *)
        destruct pc; [|simpl in Hk; destruct Hk as (? & _); done].
        destruct Hw as (Hcl & Hcr & Hwl & Hwr).
        destruct (rbt_black_S _ _ Hwr Hcr) as (wra & wrl & wrv & wrr & ->).
        destruct Hwr as (Hwrl & Hwrr). clear Hcr.
        acolor. acolor. arotr. aparent. aread.
        aread. aread. destruct (color_of wrr) eqn:Hcrr.
        -- aread. aread. destruct (color_of wrl) eqn:Hcrl.
           ++ (* case 2: the parent is red, the loop ends there *)
              acolor. aparent.
              destruct fuel as [|fuel]; [simpl in Hfuel; lia|]. cbn [deleteFixup_loop].
              aread. refocus p.
              rewrite eqb_false by (apply (Rep_not_root zero _ _ _ _ HR)).
              aread.
              lazymatch goal with
              | HR : Rep ?s (plug ?t ?k) |- _ => exists s, t, k
              end.
              split; [reflexivity|]. do 2 (split; [done|]).
              split; [rewrite !plug_cons; apply addrs_plug_eq; solve_list_eq|].
              split; [rewrite !plug_cons; apply elems_plug_eq; solve_list_eq|].
              cbn [blacken].
              destruct (plug_rbt (FR wa black wl wv :: k) (N p black (N wra red wrl wrv wrr) pv x) (S n))
                as (m & Hm & Hc); [solve_shape..|].
              split; [by exists m|by apply Hc].
           ++ destruct wrl as [|wla [] wll wlv wlr]; try done; cbn [ptr] in *.
              aread. aread. aread. aparent. aread. acolor. acolor. aread. acolor. arotr.
              fin_whole n.
        -- aread. aread. aread.
           destruct wrr as [|wrra [] wrrl wrrv wrrr]; try done; cbn [ptr] in *.
           destruct (color_of wrl) eqn:Hcrl.
           ++ aread. acolor. acolor. arotl. aparent. aread.
              aparent. aread. acolor. acolor. aread. acolor. arotr.
              fin_whole n.
           ++ destruct wrl as [|wla [] wll wlv wlr]; try done; cbn [ptr] in *.
              aread. aparent. aread. acolor. acolor. aread. acolor. arotr.
              fin_whole n.
Qed.

End DeleteFixup2.

Section DeleteFixup3.
Context {T : Type}.
Variable zero : T.
Implicit Types (s : @RBTree T) (t l r : @tree T) (k : list (@frame T)).
Local Abbreviation Rep := (Rep zero).

(** [deleteFixup] from the node, or the absent child, in the hole of [k]. *)
Lemma deleteFixup_spec k s x n :
  Rep s (plug x k) → (x = E → nilpar s = top k) →
  deficit x n → ctx_ok k (S n) →
  ∃ s' t', deleteFixup (ptr (nil_ s) x) s = Ok tt s' ∧ Rep s' t'
    ∧ nil_ s' = nil_ s ∧ next s' = next s
    ∧ addrs t' = addrs (plug x k) ∧ elems t' = elems (plug x k)
    ∧ (∃ m, rbt t' m) ∧ color_of t' = black.
Proof.
  intros HR Hnp Hdef Hk. unfold deleteFixup. aread.
  destruct (deleteFixup_loop_spec zero k (next s) s x n)
    as (s' & x' & k' & Hrun & HR' & HS' & Ha' & He' & Hrb' & Hc'); try done.
  { pose proof (Rep_fuel_path _ _ _ _ HR). lia. }
  rewrite (bind_ok _ _ _ _ _ Hrun). clear Hrun.
  destruct x' as [|a c l v r]; cbn [ptr blacken] in *.
  - destruct (set_color_nil zero s' _ HR') as (s'' & Hrun & HR'' & HS'').
    exists s'', (plug E k'). rewrite Hrun.
    pose proof (same_trans _ _ _ HS' HS'') as (? & ? & _). done.
  - destruct (set_color_Rep zero s' a c l v r k' black HR') as (s'' & Hrun & HR'' & HS'').
    exists s'', (plug (N a black l v r) k'). rewrite Hrun.
    pose proof (same_trans _ _ _ HS' HS'') as (? & ? & _).
    split_and!; try done.
    + rewrite <- Ha'. by apply addrs_plug_eq.
    + rewrite <- He'. by apply elems_plug_eq.
Qed.

End DeleteFixup3.

(** ** Deletion: unlinking a node *)

(** A cell no store has touched. *)
Ltac hsame :=
  cbn [heap root nil_ next upd];
  repeat (rewrite lookup_insert_ne by nd);
  reflexivity.

Section Splice.
Context {T : Type}.
Variable zero : T.
Implicit Types (s : @RBTree T) (t l r : @tree T) (k : list (@frame T)).
Local Abbreviation Rep := (Rep zero).

(** A tree over fewer nodes, after stores at allocated pointers [ms]; the
    sentinel may have got a new parent field. *)
Lemma Rep_shrink s s' t t' ms sp big :
  Rep s t →
  nil_ s' = nil_ s → next s' = next s →
  agree ms (heap s) (heap s') →
  0 ∉ ms → Forall (λ a, is_Some (heap s !! a)) ms →
  heap s' !! nil_ s = Some (mkNode black sp 0 0 zero) →
  NoDup (nil_ s :: big) → addrs t' ⊆+ big →
  root s' = ptr (nil_ s) t' →
  repr (heap s') (nil_ s) t' 0 →
  Rep s' t'.
Proof.
  intros H Hnil Hnext Hag Hm0 Hms Hsent Hbig Hsub Hroot Hrep.
  destruct (fresh_sub (nil_ s) (addrs t') big) as (Hnd & Hnf); [done..|].
  constructor; rewrite ?Hnil, ?Hnext; try done.
  - by exists sp.
  - rewrite Hag; [apply H|done].
  - intros a Ha. rewrite Hag; [by apply H|].
    intros Hin. rewrite Forall_forall in Hms. destruct (Hms a Hin) as [n Hn'].
    rewrite (rep_next _ _ _ H) in Hn'; done.
Qed.

Lemma Rep_nodup_nil s t : Rep s t → NoDup (nil_ s :: addrs t).
Proof. intros H. apply NoDup_cons. split; apply H. Qed.

Lemma nilpar_lookup s n : heap s !! nil_ s = Some n → nilpar s = parent n.
Proof. unfold nilpar. by intros ->. Qed.

(** The first half of [transplant], when there is a node above. *)
Lemma relink_transplant s f par a b {A} (g : unit → M A) :
  heap s !! faddr f = Some (fcell (nil_ s) f a par) →
  faddr f ≠ 0 → a ≠ nil_ s → a ∉ addrs (fsib f) →
  ((if faddr f =? 0 then set_root b
    else upl ← get_left (faddr f);
         if a =? upl then set_left (faddr f) b else set_right (faddr f) b) ≫= g) s
  = g tt (upd s (faddr f) (fcell (nil_ s) f b par)).
Proof.
  intros Hf H0 Han Hsib. rewrite eqb_false by done.
  pose proof (ptr_neq _ _ _ Han Hsib) as Hne.
  destruct f as [p c v r|p c l v]; simpl in *.
  - hstep. rewrite Nat.eqb_refl. by hstep.
  - hstep. rewrite eqb_false by done. by hstep.
Qed.

End Splice.

(** The tree after a sequence of stores at the pointers [ms]. *)
Ltac fin_frames Hag :=
  first [ eapply repr_frame; [exact Hag|nd|done]
        | eapply reprk_frame; [exact Hag|nd|done] ].

Ltac fin_rep ms s H Hbig :=
  let s' := fresh "s'" in
  let Hag := fresh "Hag" in
  match goal with |- Rep _ ?s1 _ => set (s' := s1) end;
  assert (Hag : agree ms (heap s) (heap s')) by (subst s'; solve_agree);
  eapply (Rep_shrink _ s s' _ _ ms _ _ H);
  [ done | done | exact Hag | nd | solve_somes | subst s'; hlookup
  | exact Hbig
  | rewrite !addrs_plug_perm, ?kaddrs_cons_perm; simpl; solve_submseteq
  | subst s'; cbn [root upd]; first [done | rewrite (rep_root _ _ _ H), !ptr_plug; done]
  | apply repr_plug; subst s'; simpl; split_and!; try done; try hlookup; fin_frames Hag ].

Section Splice2.
Context {T : Type}.
Variable zero : T.
Implicit Types (s : @RBTree T) (t l r : @tree T) (k : list (@frame T)).
Local Abbreviation Rep := (Rep zero).

(** [transplant] of a node with an absent child by its other child. *)
Lemma splice s fa t k :
  Rep s (plug t (fa :: k)) → fsib fa = E →
  ∃ s', transplant (faddr fa) (ptr (nil_ s) t) s = Ok tt s'
    ∧ Rep s' (plug t k) ∧ (t = E → nilpar s' = top k)
    ∧ nil_ s' = nil_ s ∧ next s' = next s
    ∧ heap s' !! faddr fa = heap s !! faddr fa.
Proof.
  intros H Hsib.
  pose proof (rep_tree _ _ _ H) as Ht. apply repr_plug in Ht as [Ht (Ha & _ & Hk)].
  destruct (rep_nil _ _ _ H) as [sp Hsp].
  unfold transplant.
  destruct t as [|x cx xl xv xr]; destruct k as [|f k]; nd_init H; cbn [ptr top] in *.
  - hstep. rewrite fcell_parent. cbn [Nat.eqb]. hstep. hstep. rewrite fcell_parent.
    eexists. split; [apply set_parent_ok; hlookup|]. cbn [ncolor parent left right Value].
    split_and!; try done.
    + fin_rep [nil_ s] s H (Rep_nodup_nil _ _ _ H).
    + intros _. erewrite nilpar_lookup by hlookup. done.
    + hsame.
  - destruct Hk as (Hf & Hfs & Hk).
    hstep. rewrite fcell_parent.
    rewrite (relink_transplant _ f (top k)) by first [hlookup|cbn [heap root nil_ next upd]; nd].
    hstep. rewrite fcell_parent.
    eexists. split; [apply set_parent_ok; hlookup|]. cbn [ncolor parent left right Value].
    split_and!; try done.
    + fin_rep [nil_ s; faddr f] s H (Rep_nodup_nil _ _ _ H).
    + intros _. erewrite nilpar_lookup by hlookup. done.
    + hsame.
  - destruct Ht as (Hx & Hxl & Hxr).
    hstep. rewrite fcell_parent. cbn [Nat.eqb]. hstep. hstep. rewrite fcell_parent.
    eexists. split; [apply set_parent_ok; hlookup|]. cbn [ncolor parent left right Value].
    split_and!; try done.
    + fin_rep [x] s H (Rep_nodup_nil _ _ _ H).
    + hsame.
  - destruct Ht as (Hx & Hxl & Hxr). destruct Hk as (Hf & Hfs & Hk).
    hstep. rewrite fcell_parent.
    rewrite (relink_transplant _ f (top k)) by first [hlookup|cbn [heap root nil_ next upd]; nd].
    hstep. rewrite fcell_parent.
    eexists. split; [apply set_parent_ok; hlookup|]. cbn [ncolor parent left right Value].
    split_and!; try done.
    + fin_rep [x; faddr f] s H (Rep_nodup_nil _ _ _ H).
    + hsame.
Qed.

(** The two-children case when the minimum of the right subtree is the
    right child itself: it takes the place of the node. *)
Lemma promote s a c la lc ll lv lr v m mc mv mr k :
  Rep s (plug (N a c (N la lc ll lv lr) v (N m mc E mv mr)) k) →
  ∃ s', Rep s' (plug (N m c (N la lc ll lv lr) mv mr) k)
    ∧ (mr = E → nilpar s' = m)
    ∧ nil_ s' = nil_ s ∧ next s' = next s
    ∧ ∀ A (g : unit → M A),
      ((if negb (ptr (nil_ s) mr =? 0) then set_parent (ptr (nil_ s) mr) m else ret tt) ≫= λ _,
       transplant a m ≫= λ _,
       get_left a ≫= λ nl', set_left m nl' ≫= λ _,
       get_left m ≫= λ ml', set_parent ml' m ≫= λ _,
       get_color a ≫= λ nc, set_color m nc ≫= g) s = g tt s'.
Proof.
  intros H.
  pose proof (Rep_lookup _ _ _ _ _ _ _ _ H) as Ha.
  pose proof (Rep_lookup _ _ _ _ _ _ _ _
    (H : Rep s (plug (N m mc E mv mr) (FR a c (N la lc ll lv lr) v :: k)))) as Hm.
  pose proof (Rep_lookup _ _ _ _ _ _ _ _
    (H : Rep s (plug (N la lc ll lv lr) (FL a c v (N m mc E mv mr) :: k)))) as Hla.
  cbn [top faddr ptr] in Ha, Hm, Hla.
  pose proof (rep_tree _ _ _ H) as Ht.
  apply repr_plug in Ht as [(_ & (_ & Hll & Hlr) & _ & _ & Hmr) Hk].
  destruct (rep_nil _ _ _ H) as [sp Hsp].
  cbn [ptr] in Hk.
  destruct mr as [|x cx xl xv xr]; destruct k as [|f k]; nd_init H; cbn [ptr top] in *.
  - eexists. split_and!; [| | | |intros A g].
    5:{ htest. hstep. unfold transplant. hstep. cbn [Nat.eqb]. repeat hstep. reflexivity. }
    all: cbn [ncolor parent left right Value]; try done.
    + fin_rep [nil_ s; m; la] s H (Rep_nodup_nil _ _ _ H).
    + intros _. erewrite nilpar_lookup by hlookup. done.
  - destruct Hk as (Hf & Hfs & Hk).
    eexists. split_and!; [| | | |intros A g].
    5:{ htest. hstep. unfold transplant. hstep. hassoc.
        rewrite (relink_transplant _ f (top k)) by first [hlookup|cbn [heap root nil_ next upd]; nd].
        repeat hstep. reflexivity. }
    all: cbn [ncolor parent left right Value]; try done.
    + fin_rep [nil_ s; m; la; faddr f] s H (Rep_nodup_nil _ _ _ H).
    + intros _. erewrite nilpar_lookup by hlookup. done.
  - destruct Hmr as (Hx & Hxl & Hxr).
    eexists. split_and!; [| | | |intros A g].
    5:{ htest. hstep. unfold transplant. hstep. cbn [Nat.eqb]. repeat hstep. reflexivity. }
    all: cbn [ncolor parent left right Value]; try done.
    fin_rep [x; m; la] s H (Rep_nodup_nil _ _ _ H).
  - destruct Hmr as (Hx & Hxl & Hxr). destruct Hk as (Hf & Hfs & Hk).
    eexists. split_and!; [| | | |intros A g].
    5:{ htest. hstep. unfold transplant. hstep. hassoc.
        rewrite (relink_transplant _ f (top k)) by first [hlookup|cbn [heap root nil_ next upd]; nd].
        repeat hstep. reflexivity. }
    all: cbn [ncolor parent left right Value]; try done.
    fin_rep [x; m; la; faddr f] s H (Rep_nodup_nil _ _ _ H).
Qed.

(** The two-children case when the minimum [m] lies deeper: once it has
    been unlinked, it takes the place of the node, with both subtrees
    ([s1] is the state between the two blocks of the source). *)
Lemma replace_node s a c la lc ll lv lr v ra rc rl rv rr k m cm :
  Rep s (plug (N a c (N la lc ll lv lr) v (N ra rc rl rv rr)) k) →
  heap s !! m = Some cm →
  m ∉ addrs (plug (N a c (N la lc ll lv lr) v (N ra rc rl rv rr)) k) →
  m ≠ nil_ s → m ≠ 0 →
  ∃ s1 s', Rep s' (plug (N m c (N la lc ll lv lr) (Value cm) (N ra rc rl rv rr)) k)
    ∧ nilpar s' = nilpar s
    ∧ nil_ s' = nil_ s ∧ next s' = next s
    ∧ (get_right a ≫= λ nr', set_right m nr' ≫= λ _,
       get_right m ≫= λ mr', set_parent mr' m) s = Ok tt s1
    ∧ ∀ A (g : unit → M A),
      (transplant a m ≫= λ _,
       get_left a ≫= λ nl', set_left m nl' ≫= λ _,
       get_left m ≫= λ ml', set_parent ml' m ≫= λ _,
       get_color a ≫= λ nc, set_color m nc ≫= g) s1 = g tt s'.
Proof.
  intros H Hm Hfresh Hmn Hm0.
  pose proof (Rep_lookup _ _ _ _ _ _ _ _ H) as Ha.
  pose proof (Rep_lookup _ _ _ _ _ _ _ _
    (H : Rep s (plug (N ra rc rl rv rr) (FR a c (N la lc ll lv lr) v :: k)))) as Hra.
  pose proof (Rep_lookup _ _ _ _ _ _ _ _
    (H : Rep s (plug (N la lc ll lv lr) (FL a c v (N ra rc rl rv rr) :: k)))) as Hla.
  cbn [top faddr ptr] in Ha, Hra, Hla.
  pose proof (rep_tree _ _ _ H) as Ht.
  apply repr_plug in Ht as [(_ & (_ & Hll & Hlr) & _ & Hrl & Hrr) Hk].
  destruct (rep_nil _ _ _ H) as [sp Hsp].
  cbn [ptr] in Hk.
  assert (Hbig : NoDup (nil_ s :: m :: addrs (plug (N a c (N la lc ll lv lr) v (N ra rc rl rv rr)) k))).
  { apply NoDup_cons. split; [apply notin_cons; [done|apply H]|].
    apply NoDup_cons. split; [done|apply H]. }
  assert (HND : NoDup (m :: nil_ s :: 0 ::
     addrs (N a c (N la lc ll lv lr) v (N ra rc rl rv rr)) ++ kaddrs k)).
  { apply NoDup_cons. split; [|by apply (Rep_footprint zero)].
    rewrite addrs_plug_perm in Hfresh.
    apply notin_cons; [done|]. by apply notin_cons. }
  destruct cm as [mc0 mp0 ml0 mr0 mv]. cbn [Value].
  destruct k as [|f k]; cbn [addrs] in HND; rewrite ?kaddrs_cons_perm in HND;
    nd_reify HND; cbn [ptr top] in *.
  - eexists _, _. split_and!; [| | | | |intros A g].
    5:{ do 3 hstep. apply set_parent_ok; hlookup. }
    5:{ cbn [ncolor parent left right Value]. unfold transplant. hstep. cbn [Nat.eqb].
        repeat hstep. reflexivity. }
    all: cbn [ncolor parent left right Value]; try done.
    + fin_rep [m; ra; la] s H Hbig.
    + unfold nilpar. hsame.
  - destruct Hk as (Hf & Hfs & Hk).
    eexists _, _. split_and!; [| | | | |intros A g].
    5:{ do 3 hstep. apply set_parent_ok; hlookup. }
    5:{ cbn [ncolor parent left right Value]. unfold transplant. hstep. hassoc.
        rewrite (relink_transplant _ f (top k)) by first [hlookup|cbn [heap root nil_ next upd]; nd].
        repeat hstep. reflexivity. }
    all: cbn [ncolor parent left right Value]; try done.
    + fin_rep [m; ra; la; faddr f] s H Hbig.
    + unfold nilpar. hsame.
Qed.

End Splice2.

(** ** Deletion: [DeleteNode] *)

Section Leftmost.
Context {T : Type}.
Implicit Types (t l r : @tree T) (k : list (@frame T)).

Lemma lm_plug t k : plug (lm_node t) (lm_path t k) = plug t k.
Proof.
  revert k. induction t as [|a c l IHl v r IHr]; intros k; [done|].
  destruct l as [|la lc ll lv lr]; [done|].
  change (plug (lm_node (N la lc ll lv lr)) (lm_path (N la lc ll lv lr) (FL a c v r :: k))
          = plug (N a c (N la lc ll lv lr) v r) k).
  by rewrite IHl.
Qed.

Lemma lm_node_shape t : t ≠ E → ∃ m mc mv mr, lm_node t = N m mc E mv mr.
Proof.
  induction t as [|a c l IHl v r IHr]; [done|]. intros _.
  destruct l as [|la lc ll lv lr]; [simpl; eauto|].
  destruct IHl as (m & mc & mv & mr & Heq); [done|].
  exists m, mc, mv, mr. exact Heq.
Qed.

Lemma lm_path_app t k : ∃ km, lm_path t k = km ++ k ∧ all_left km.
Proof.
  revert k. induction t as [|a c l IHl v r IHr]; intros k;
    [exists []; split; [done|constructor]|].
  destruct l as [|la lc ll lv lr]; [exists []; split; [done|constructor]|].
  destruct (IHl (FL a c v r :: k)) as (km & Heq & Hall).
  exists (km ++ [FL a c v r]). split.
  - change (lm_path (N la lc ll lv lr) (FL a c v r :: k) = (km ++ [FL a c v r]) ++ k).
    rewrite Heq. by rewrite <- app_assoc.
  - apply Forall_app. split; [done|]. by repeat constructor.
Qed.

Lemma all_left_kelems_l k : all_left k → kelems_l k = [].
Proof.
  induction 1 as [|f k Hf Hk IH]; [done|]. destruct f; [|done]. simpl. done.
Qed.

Lemma kelems_l_app k1 k2 : kelems_l (k1 ++ k2) = kelems_l k2 ++ kelems_l k1.
Proof.
  induction k1 as [|[a c v r|a c l v] k1 IH]; simpl.
  - by rewrite app_nil_r.
  - done.
  - rewrite IH. by rewrite <- !app_assoc.
Qed.

Lemma kelems_r_app k1 k2 : kelems_r (k1 ++ k2) = kelems_r k1 ++ kelems_r k2.
Proof.
  induction k1 as [|[a c v r|a c l v] k1 IH]; simpl.
  - done.
  - rewrite IH. by rewrite <- !app_assoc.
  - done.
Qed.

Lemma kaddrs_app_perm k1 k2 : kaddrs (k1 ++ k2) ≡ₚ kaddrs k1 ++ kaddrs k2.
Proof.
  induction k1 as [|f k1 IH]; [done|].
  rewrite <- app_comm_cons, !kaddrs_cons_perm, IH. solve_Permutation.
Qed.

(** [ctx_ok] looks at the colours and sibling subtrees of a path only. *)
Lemma ctx_ok_replace km f f' k n :
  fcolor f = fcolor f' → fsib f = fsib f' →
  ctx_ok (km ++ f :: k) n → ctx_ok (km ++ f' :: k) n.
Proof.
  intros Hc Hs. revert n. induction km as [|g km IH]; intros n; simpl.
  - by rewrite Hc, Hs.
  - intros (Hg & Hrest). split; [done|].
    destruct (fcolor g); [by apply IH|].
    destruct Hrest as (? & Htop & ?). split_and!; [done| |by apply IH].
    destruct km; simpl in *; [by rewrite <- Hc|done].
Qed.

Lemma plug_node a c l v r k : ∃ a' c' l' v' r', plug (N a c l v r) k = N a' c' l' v' r'.
Proof.
  revert a c l v r. induction k as [|f k IH]; intros a c l v r.
  - by eexists _, _, _, _, _.
  - rewrite plug_cons. destruct f; simpl; apply IH.
Qed.

End Leftmost.

Section LeftmostRun.
Context {T : Type}.
Variable zero : T.
Implicit Types (s : @RBTree T) (t l r : @tree T) (k : list (@frame T)).
Local Abbreviation Rep := (Rep zero).

(** The loop that looks for the minimum of a subtree. *)
Lemma leftmost_spec t : ∀ k s fuel,
  Rep s (plug t k) → t ≠ E → height t ≤ fuel →
  leftmost fuel (ptr (nil_ s) t) s = Ok (ptr (nil_ s) (lm_node t)) s.
Proof.
  induction t as [|a c l IHl v r IHr]; intros k s fuel HR Hne Hfuel; [done|].
  destruct fuel as [|fuel]; [simpl in Hfuel; lia|]. simpl in Hfuel.
  cbn [leftmost ptr]. aread. aread.
  destruct l as [|la lc ll lv lr]; cbn [ptr].
  - rewrite Nat.eqb_refl. done.
  - atest. apply (IHl (FL a c v r :: k)); [done|done|simpl in *; lia].
Qed.

End LeftmostRun.

Section DeleteNode.
Context {T : Type}.
Variable zero : T.
Implicit Types (s : @RBTree T) (t l r : @tree T) (k : list (@frame T)).
Local Abbreviation Rep := (Rep zero).
Local Abbreviation del_post := (del_post zero).

(** A red or absent child of a removed black node: blackening it (or
    fixing up from the absent child) restores the count. *)
Lemma deficit_0 t : rbt t 0 → deficit t 0.
Proof.
  unfold deficit. destruct t as [|a [] l v r]; simpl; try done. tauto.
Qed.

(** The last step of [DeleteNode]: fix up from [x] when the colour that
    left the tree was black. *)
Lemma delete_finish s0 s x k oc n es :
  Rep s (plug x k) → (x = E → nilpar s = top k) →
  nil_ s = nil_ s0 → next s = next s0 →
  elems (plug x k) = es →
  rbt x n → ctx_ok k (match oc with black => S n | red => n end) →
  (oc = black → n = 0) →
  (oc = red → color_of x = black ∧ k ≠ []) →
  ∃ s' t',
    ((match oc with black => deleteFixup (ptr (nil_ s) x) | red => ret tt end)
       ≫= λ _, ret true) s = Ok true s'
    ∧ del_post s0 s' t' es.
Proof.
  intros HR Hnp Hn Hx He Hrb Hk Hb Hr. destruct oc.
  - rewrite (Hb eq_refl) in *.
    destruct (deleteFixup_spec zero k s x 0) as
      (s' & t' & Hrun & HR' & Hn' & Hx' & _ & He' & Hrb' & Hc'); try done.
    { by apply deficit_0. }
    rewrite (bind_ok _ _ _ _ _ Hrun). exists s', t'. split; [done|].
    unfold del_post. split_and!; try done; congruence.
  - destruct (Hr eq_refl) as (Hc & Hne).
    destruct (plug_rbt k x n) as (m & Hm & Hcol); [done|done|by left|].
    exists s, (plug x k). split; [done|].
    unfold del_post. split_and!; try done; eauto.
Qed.

Lemma top_black_ne k : top_black k → k ≠ [].
Proof. by destruct k. Qed.

(** A node with an absent child, in a red-black tree. *)
Lemma one_child_l a c (v : T) (x : @tree T) n0 k :
  rbt (N a c E v x) n0 → ctx_ok k n0 → (c = red → top_black k) →
  rbt x 0 ∧ ctx_ok k (match c with black => 1 | red => 0 end)
  ∧ (c = red → color_of x = black ∧ k ≠ []).
Proof.
  intros Hrb Hk Htop. destruct c; simpl in Hrb.
  - destruct n0 as [|n0]; [done|]. destruct Hrb as (-> & ?). done.
  - destruct Hrb as (_ & ? & -> & ?). split_and!; try done.
    intros _. split; [done|]. by apply top_black_ne, Htop.
Qed.

Lemma one_child_r a c (v : T) (x : @tree T) n0 k :
  rbt (N a c x v E) n0 → ctx_ok k n0 → (c = red → top_black k) →
  rbt x 0 ∧ ctx_ok k (match c with black => 1 | red => 0 end)
  ∧ (c = red → color_of x = black ∧ k ≠ []).
Proof.
  intros Hrb Hk Htop. destruct c; simpl in Hrb.
  - destruct n0 as [|n0]; [done|]. destruct Hrb as (? & ->). done.
  - destruct Hrb as (? & _ & ? & ->). split_and!; try done.
    intros _. split; [done|]. by apply top_black_ne, Htop.
Qed.

(** The leftmost node [mm] of the right subtree takes the place of the
    deleted node: what is left to repair sits where [mm] was. *)
Lemma two_children_shape a c (l : @tree T) v mm mc mv mr km k m :
  rbt (plug (N mm mc E mv mr) (km ++ FR a c l v :: k)) m →
  color_of (plug (N mm mc E mv mr) (km ++ FR a c l v :: k)) = black →
  all_left km →
  rbt mr 0
  ∧ ctx_ok (km ++ FR mm c l mv :: k) (match mc with black => 1 | red => 0 end)
  ∧ (mc = red → color_of mr = black ∧ km ++ FR mm c l mv :: k ≠ [])
  ∧ elems (plug mr (km ++ FR mm c l mv :: k))
    = kelems_l k ++ elems l ++ elems (plug (N mm mc E mv mr) km) ++ kelems_r k.
Proof.
  intros Hrb Hc Hall.
  destruct (rbt_unplug _ _ _ Hrb Hc) as (n1 & Hn1 & Hk1 & Htop1).
  destruct (one_child_l _ _ _ _ _ _ Hn1 Hk1 Htop1) as (Hmr & Hk & Hred).
  split_and!; [done| | |].
  - by apply (ctx_ok_replace km (FR a c l v) (FR mm c l mv)).
  - intros Hm. split; [by apply Hred|]. by destruct km.
  - rewrite !elems_plug, kelems_l_app, kelems_r_app, (all_left_kelems_l km Hall).
    cbn [kelems_l kelems_r elems]. rewrite <- !app_assoc. done.
Qed.

(** [DeleteNode] of a node of a red-black tree with a black root: it
    returns true and the state holds a red-black tree with a black root
    and the same values in the same order, but for the value of the node. *)
Lemma DeleteNode_spec s a c l v r k m :
  Rep s (plug (N a c l v r) k) →
  rbt (plug (N a c l v r) k) m → color_of (plug (N a c l v r) k) = black →
  ∃ s' t', DeleteNode a s = Ok true s'
    ∧ del_post s s' t' (kelems_l k ++ elems l ++ elems r ++ kelems_r k).
Proof.
  intros HR Hrb Hc. destruct (rbt_unplug _ _ _ Hrb Hc) as (n0 & Hn0 & Hk & Htop).
  pose proof Hrb as Hrb0. pose proof Hc as Hc0.
  unfold DeleteNode. atest. aread. aread. aread.
  destruct l as [|la lc ll lv lr]; cbn [ptr].
  - (* no left child *)
    rewrite Nat.eqb_refl. aread. hassoc.
    destruct (splice zero s (FR a c E v) r k HR eq_refl)
      as (s1 & Hrun & HR1 & Hnp1 & Hn1 & Hx1 & _).
    cbn [faddr] in Hrun. rewrite (bind_ok _ _ _ _ _ Hrun). clear Hrun.
    aread. cbn beta iota. rewrite <- Hn1.
    destruct (one_child_l _ _ _ _ _ _ Hn0 Hk Htop) as (? & ? & ?).
    apply (delete_finish s s1 r k c 0); try done.
    rewrite elems_plug. done.
  - atest. aread. destruct r as [|ra rc rl rv rr]; cbn [ptr].
    + (* no right child *)
      rewrite Nat.eqb_refl. aread. hassoc.
      destruct (splice zero s (FL a c v E) (N la lc ll lv lr) k HR eq_refl)
        as (s1 & Hrun & HR1 & Hnp1 & Hn1 & Hx1 & _).
      cbn [faddr ptr] in Hrun. rewrite (bind_ok _ _ _ _ _ Hrun). clear Hrun.
      aread. cbn beta iota.
      change la with (ptr (nil_ s1) (N la lc ll lv lr)) at 1.
      destruct (one_child_r _ _ _ _ _ _ Hn0 Hk Htop) as (? & ? & ?).
      apply (delete_finish s s1 (N la lc ll lv lr) k c 0); try done.
      rewrite elems_plug. done.
    + (* two children *)
      atest. aread.
      set (r := N ra rc rl rv rr) in *.
      assert (HRr : Rep s (plug r (FR a c (N la lc ll lv lr) v :: k))) by exact HR.
      assert (Hfuel : height r ≤ next s).
      { pose proof (Rep_size _ _ _ HRr). pose proof (height_le_size r).
        pose proof (size_plug r (FR a c (N la lc ll lv lr) v :: k)). lia. }
      assert (Hrne : r ≠ E) by done.
      pose proof (leftmost_spec zero r _ s (next s) HRr Hrne Hfuel) as Hlm.
      change (ptr (nil_ s) r) with ra in Hlm.
      rewrite bind_assoc, (bind_ok _ _ _ _ _ Hlm). clear Hlm.
      destruct (lm_node_shape r Hrne) as (mm & mc & mv & mr & Hnode).
      destruct (lm_path_app r []) as (km & Hpath & Hall). rewrite app_nil_r in Hpath.
      pose proof (lm_plug r []) as Hplug. rewrite Hnode, Hpath, plug_nil in Hplug.
      rewrite Hnode. cbn [ptr].
      clearbody r. subst r. clear Hrne Hnode Hpath.
      rewrite <- plug_app in HRr. clear HR. rename HRr into HR.
      change (plug (N a c (N la lc ll lv lr) v (plug (N mm mc E mv mr) km)) k)
        with (plug (plug (N mm mc E mv mr) km) (FR a c (N la lc ll lv lr) v :: k))
        in Hrb0, Hc0.
      rewrite <- plug_app in Hrb0, Hc0.
      destruct (two_children_shape _ _ _ _ _ _ _ _ _ _ _ Hrb0 Hc0 Hall)
        as (Hmr0 & Hctx & Hred & Hel).
      aread. aread. aread.
      destruct km as [|fq km].
      * (* the minimum is the right child *)
        rewrite app_nil_l in HR. rewrite !plug_cons in HR. cbn [fill] in HR.
        cbn [top faddr]. rewrite Nat.eqb_refl.
        destruct (promote zero s _ _ _ _ _ _ _ _ _ _ _ _ _ HR)
          as (s1 & HR1 & Hnp1 & Hn1 & Hx1 & Hrun).
        rewrite (bind_via _ _ _ _ _ (Hrun _ (λ _, ret (ptr (nil_ s) mr, mc)))).
        clear Hrun. aread. cbn beta iota. rewrite <- Hn1.
        apply (delete_finish s s1 mr (FR mm c (N la lc ll lv lr) mv :: k) mc 0);
          try done.
      * destruct fq as [q qc qv qr|]; [|by inversion Hall].
        cbn [top faddr app]. cbn [app] in HR, Hrb0, Hc0, Hctx, Hred, Hel.
        assert (Hqa : q ≠ a).
        { pose proof (Rep_footprint zero _ _ _ HR) as HND.
          rewrite kaddrs_cons_perm, kaddrs_app_perm, kaddrs_cons_perm in HND.
          cbn [faddr] in HND. nd_reify HND. nd. }
        rewrite eqb_false by done.
        rewrite bind_assoc. rewrite bind_assoc. aread. rewrite bind_assoc.
        destruct (splice zero s (FR mm mc E mv) mr
                    (FL q qc qv qr :: km ++ FR a c (N la lc ll lv lr) v :: k)
                    HR eq_refl)
          as (s1 & Hrun & HR1 & Hnp1 & Hn1 & Hx1 & Hmm).
        cbn [faddr] in Hrun, Hmm. rewrite (bind_ok _ _ _ _ _ Hrun). clear Hrun.
        assert (Hfresh : (mm ∉ addrs (plug mr
                    (FL q qc qv qr :: km ++ FR a c (N la lc ll lv lr) v :: k)))
                  ∧ mm ≠ nil_ s ∧ mm ≠ 0).
        { pose proof (Rep_footprint zero _ _ _ HR) as HND.
          rewrite addrs_plug_perm. cbn [addrs] in HND. nd_reify HND.
          split_and!; [apply notin_app|..]; nd. }
        destruct Hfresh as (Hfresh & Hmn & Hm0).
        destruct (plug_node q qc mr qv qr km) as (ra2 & rc2 & rl2 & rv2 & rr2 & Hr').
        assert (Heq : plug mr (FL q qc qv qr :: km ++ FR a c (N la lc ll lv lr) v :: k)
                  = plug (N a c (N la lc ll lv lr) v (N ra2 rc2 rl2 rv2 rr2)) k).
        { rewrite app_comm_cons, plug_app, !plug_cons. cbn [fill]. by rewrite Hr'. }
        rewrite Heq in HR1, Hfresh.
        pose proof (Rep_lookup _ _ _ _ _ _ _ _ HR) as Hmm0. rewrite <- Hmm in Hmm0.
        rewrite <- Hn1 in Hmn.
        destruct (replace_node zero s1 _ _ _ _ _ _ _ _ _ _ _ _ _ _ mm _ HR1 Hmm0
                    Hfresh Hmn Hm0)
          as (s2 & s3 & HR3 & Hnp3 & Hn3 & Hx3 & Hrun1 & Hrun2).
        rewrite (bind_ok _ _ _ _ _ Hrun1). clear Hrun1.
        rewrite (bind_via _ _ _ _ _ (Hrun2 _ (λ _, ret (ptr (nil_ s) mr, mc)))).
        clear Hrun2. aread. cbn beta iota.
        cbn [Value] in HR3.
        assert (Heq' : plug mr (FL q qc qv qr :: km ++ FR mm c (N la lc ll lv lr) mv :: k)
                  = plug (N mm c (N la lc ll lv lr) mv (N ra2 rc2 rl2 rv2 rr2)) k).
        { rewrite app_comm_cons, plug_app, !plug_cons. cbn [fill]. by rewrite Hr'. }
        rewrite <- Heq' in HR3.
        replace (nil_ s) with (nil_ s3) by congruence.
        apply (delete_finish s s3 mr
                 (FL q qc qv qr :: km ++ FR mm c (N la lc ll lv lr) mv :: k) mc 0);
          try done; try congruence.
        intros HE. rewrite Hnp3. by apply Hnp1.
Qed.

End DeleteNode.

(** ** The comparator and the order of the keys *)

Section Order.
Context {T : Type}.
Variable compare : T → T → Z.
Hypothesis Hcmp : comparator compare.
Implicit Types (t l r : @tree T) (k : list (@frame T)) (v u x y : T).
Local Abbreviation klt := (klt compare).
Local Abbreviation sorted := (sorted compare).

Lemma compare_sym_0 x y : compare x y = 0%Z → compare y x = 0%Z.
Proof.
  intros H. pose proof (compare_anti _ Hcmp x y). pose proof (compare_anti _ Hcmp y x). lia.
Qed.

Lemma compare_refl x : compare x x = 0%Z.
Proof. pose proof (compare_anti _ Hcmp x x). lia. Qed.

Lemma klt_irrefl x : ¬ klt x x.
Proof. unfold klt. rewrite compare_refl. lia. Qed.

Lemma klt_not_eq x y : klt x y → compare x y ≠ 0%Z ∧ compare y x ≠ 0%Z.
Proof. unfold klt. pose proof (compare_anti _ Hcmp x y). lia. Qed.

Lemma klt_le_trans x y z : klt x y → (compare y z ≤ 0)%Z → klt x z.
Proof.
  unfold klt. intros Hxy Hyz.
  destruct (Z_lt_ge_dec (compare x z) 0) as [|Hge]; [done|exfalso].
  assert (compare z x ≤ 0)%Z as Hzx.
  { pose proof (compare_anti _ Hcmp x z). lia. }
  pose proof (compare_trans _ Hcmp y z x Hyz Hzx).
  pose proof (compare_anti _ Hcmp x y). lia.
Qed.

Lemma kle_lt_trans x y z : (compare x y ≤ 0)%Z → klt y z → klt x z.
Proof.
  unfold klt. intros Hxy Hyz.
  destruct (Z_lt_ge_dec (compare x z) 0) as [|Hge]; [done|exfalso].
  assert (compare z x ≤ 0)%Z as Hzx.
  { pose proof (compare_anti _ Hcmp x z). lia. }
  pose proof (compare_trans _ Hcmp z x y Hzx Hxy).
  pose proof (compare_anti _ Hcmp y z). lia.
Qed.

Lemma klt_trans x y z : klt x y → klt y z → klt x z.
Proof. intros Hxy Hyz. apply (klt_le_trans x y z Hxy). unfold klt in Hyz. lia. Qed.

Lemma klt_eq_l x y z : compare x y = 0%Z → klt y z → klt x z.
Proof. intros Hxy. apply kle_lt_trans. lia. Qed.

Lemma klt_eq_r x y z : compare x y = 0%Z → klt z y → klt z x.
Proof.
  intros Hxy Hzy. apply (klt_le_trans z y x Hzy). rewrite (compare_sym_0 _ _ Hxy). lia.
Qed.

Lemma kgt_lt x y : (0 <? compare x y)%Z = true → klt y x.
Proof. intros H%Z.ltb_lt. by apply (compare_anti _ Hcmp). Qed.

Lemma sorted_app es1 es2 :
  sorted (es1 ++ es2) ↔ (∀ x y, x ∈ es1 → y ∈ es2 → klt x y) ∧ sorted es1 ∧ sorted es2.
Proof. apply StronglySorted_app. Qed.

Lemma sorted_cons x es : sorted (x :: es) ↔ Forall (klt x) es ∧ sorted es.
Proof. apply StronglySorted_cons. Qed.

(** Two sorted lists with the same elements are equal. *)
Lemma sorted_unique es1 es2 : sorted es1 → sorted es2 → es1 ≡ₚ es2 → es1 = es2.
Proof.
  apply StronglySorted_unique_strong. intros x y _ _ Hxy Hyx.
  destruct (klt_irrefl x). by apply (klt_trans x y x).
Qed.

(** Taking an element out of, or putting one into, a sorted list. *)
Lemma sorted_remove es1 x es2 : sorted (es1 ++ x :: es2) → sorted (es1 ++ es2).
Proof.
  rewrite !sorted_app, sorted_cons. intros (Hc & H1 & _ & H2). split_and!; [|done..].
  intros a b Ha Hb. apply Hc; [done|]. by right.
Qed.

Lemma sorted_insert es1 x es2 :
  sorted (es1 ++ es2) → Forall (λ y, klt y x) es1 → Forall (klt x) es2 →
  sorted (es1 ++ x :: es2).
Proof.
  rewrite !sorted_app, sorted_cons, !Forall_forall.
  intros (Hc & H1 & H2) Hl Hr. split_and!; try done.
  intros a b Ha [->|Hb]%elem_of_cons; auto.
Qed.

(** In a sorted list no two entries are equal for the comparator. *)
Lemma sorted_distinct es i j x y :
  sorted es → i ≠ j → es !! i = Some x → es !! j = Some y → compare x y ≠ 0%Z.
Proof.
  intros Hs. revert i j. induction Hs as [|a es Hs IH Ha]; intros i j Hij Hi Hj; [done|].
  rewrite Forall_forall in Ha.
  destruct i as [|i], j as [|j]; simpl in *; simplify_eq.
  - apply (proj1 (klt_not_eq x y (Ha y (list_elem_of_lookup_2 _ _ _ Hj)))).
  - apply (proj2 (klt_not_eq y x (Ha x (list_elem_of_lookup_2 _ _ _ Hi)))).
  - apply (IH i j); [lia|done..].
Qed.

End Order.

(** ** Descents in a search tree *)

Section Descent.
Context {T : Type}.
Variable compare : T → T → Z.
Hypothesis Hcmp : comparator compare.
Implicit Types (t l r : @tree T) (k : list (@frame T)) (v u x y : T).
Local Abbreviation klt := (klt compare).
Local Abbreviation sorted := (sorted compare).
Local Abbreviation ins_path := (ins_path compare).
Local Abbreviation find_path := (find_path compare).

Lemma find_path_plug v t k t' k' :
  find_path v t k = Some (t', k') →
  plug t' k' = plug t k ∧ ∃ a c l u r, t' = N a c l u r ∧ compare v u = 0%Z.
Proof.
  revert k. induction t as [|a c l IHl x r IHr]; intros k; simpl; [done|].
  destruct (compare v x <? 0)%Z eqn:H1; [by intros ?%IHl|].
  destruct (0 <? compare v x)%Z eqn:H2; [by intros ?%IHr|].
  intros [= <- <-]. split; [done|]. exists a, c, l, x, r. split; [done|]. lia.
Qed.

Lemma find_path_none v t k :
  (∀ u, u ∈ elems t → compare v u ≠ 0%Z) → find_path v t k = None.
Proof.
  revert k. induction t as [|a c l IHl x r IHr]; intros k Hno; simpl; [done|].
  simpl in Hno.
  destruct (compare v x <? 0)%Z eqn:H1.
  { apply IHl. intros u Hu. apply Hno. apply elem_of_app. by left. }
  destruct (0 <? compare v x)%Z eqn:H2.
  { apply IHr. intros u Hu. apply Hno. apply elem_of_app. right. by right. }
  destruct (Hno x); [|lia]. apply elem_of_app. right. by left.
Qed.

Lemma ins_path_some v t k :
  (∀ u, u ∈ elems t → compare v u ≠ 0%Z) → ∃ k', ins_path v t k = Some k'.
Proof.
  revert k. induction t as [|a c l IHl x r IHr]; intros k Hno; simpl; [by eexists|].
  simpl in Hno.
  destruct (compare v x <? 0)%Z eqn:H1.
  { apply IHl. intros u Hu. apply Hno. apply elem_of_app. by left. }
  destruct (0 <? compare v x)%Z eqn:H2.
  { apply IHr. intros u Hu. apply Hno. apply elem_of_app. right. by right. }
  destruct (Hno x); [|lia]. apply elem_of_app. right. by left.
Qed.

(** In a search tree the descent finds every value of the tree. *)
Lemma descent_cases v u l x r :
  sorted (elems l ++ x :: elems r) → u ∈ elems l ++ x :: elems r →
  compare v u = 0%Z →
  ((compare v x < 0)%Z ∧ u ∈ elems l)
  ∨ ((0 < compare v x)%Z ∧ u ∈ elems r)
  ∨ (compare v x = 0%Z ∧ u = x).
Proof.
  intros Hs Hu Hvu.
  apply sorted_app in Hs as (Hc & Hl & Hxr). apply sorted_cons in Hxr as (Hx & Hr).
  rewrite Forall_forall in Hx.
  apply elem_of_app in Hu as [Hu|Hu]; [|apply elem_of_cons in Hu as [->|Hu]].
  - left. split; [|done]. apply (klt_eq_l compare Hcmp v u x Hvu).
    apply Hc; [done|]. by left.
  - right. right. done.
  - right. left. split; [|done]. apply (compare_anti _ Hcmp).
    apply (klt_eq_r compare Hcmp v u x Hvu). by apply Hx.
Qed.

Lemma sorted_node_l l x r : sorted (elems l ++ x :: elems r) → sorted (elems l).
Proof. by intros (_ & ? & _)%sorted_app. Qed.

Lemma sorted_node_r l x r : sorted (elems l ++ x :: elems r) → sorted (elems r).
Proof. by intros (_ & _ & (_ & ?)%sorted_cons)%sorted_app. Qed.

Lemma find_path_some v u t k :
  sorted (elems t) → u ∈ elems t → compare v u = 0%Z →
  ∃ a c l r k', find_path v t k = Some (N a c l u r, k').
Proof.
  revert k. induction t as [|a c l IHl x r IHr]; intros k Hs Hu Hvu; simpl in *.
  { by apply elem_of_nil in Hu. }
  destruct (descent_cases v u l x r Hs Hu Hvu) as [(H1 & H2)|[(H1 & H2)|(H1 & ->)]].
  - replace (compare v x <? 0)%Z with true by lia.
    apply IHl; [by eapply sorted_node_l|done..].
  - replace (compare v x <? 0)%Z with false by lia.
    replace (0 <? compare v x)%Z with true by lia.
    apply IHr; [by eapply sorted_node_r|done..].
  - replace (compare v x <? 0)%Z with false by lia.
    replace (0 <? compare v x)%Z with false by lia. by eexists _, _, _, _, _.
Qed.

Lemma ins_path_none v u t k :
  sorted (elems t) → u ∈ elems t → compare v u = 0%Z → ins_path v t k = None.
Proof.
  revert k. induction t as [|a c l IHl x r IHr]; intros k Hs Hu Hvu; simpl in *.
  { by apply elem_of_nil in Hu. }
  destruct (descent_cases v u l x r Hs Hu Hvu) as [(H1 & H2)|[(H1 & H2)|(H1 & ->)]].
  - replace (compare v x <? 0)%Z with true by lia.
    apply IHl; [by eapply sorted_node_l|done..].
  - replace (compare v x <? 0)%Z with false by lia.
    replace (0 <? compare v x)%Z with true by lia.
    apply IHr; [by eapply sorted_node_r|done..].
  - replace (compare v x <? 0)%Z with false by lia.
    by replace (0 <? compare v x)%Z with false by lia.
Qed.

(** The place found for a new value keeps the order. *)
Lemma ins_path_bounds v t k k' :
  ins_path v t k = Some k' → sorted (elems (plug t k)) →
  Forall (λ y, klt y v) (kelems_l k) → Forall (klt v) (kelems_r k) →
  Forall (λ y, klt y v) (kelems_l k') ∧ Forall (klt v) (kelems_r k').
Proof.
  revert k. induction t as [|a c l IHl x r IHr]; intros k; simpl.
  { by intros [= <-]. }
  intros Hpath Hs Hl Hr.
  pose proof Hs as Hs'. rewrite elems_plug in Hs'. simpl in Hs'.
  apply sorted_app in Hs' as (_ & _ & (_ & Hn & _)%sorted_app).
  apply sorted_app in Hn as (Hc & _ & (Hx & _)%sorted_cons).
  destruct (compare v x <? 0)%Z eqn:H1.
  - apply (IHl _ Hpath); [done|done|]. simpl.
    assert (klt v x) as Hvx by (by apply Z.ltb_lt).
    apply Forall_cons_2; [done|]. apply Forall_app. split; [|done].
    eapply Forall_impl; [exact Hx|]. intros y Hy. by apply (klt_trans compare Hcmp v x y).
  - destruct (0 <? compare v x)%Z eqn:H2; [|done].
    apply (IHr _ Hpath); [done| |done]. simpl.
    assert (klt x v) as Hxv by by apply kgt_lt.
    apply Forall_app. split; [done|]. apply Forall_app. split.
    + apply Forall_forall. intros y Hy. apply (klt_trans compare Hcmp y x v); [|done].
      apply Hc; [done|]. by left.
    + by repeat constructor.
Qed.

Lemma ins_path_sorted v t k' :
  ins_path v t [] = Some k' → sorted (elems t) →
  sorted (kelems_l k' ++ v :: kelems_r k') ∧ kelems_l k' ++ v :: kelems_r k' ≡ₚ v :: elems t.
Proof.
  intros Hpath Hs.
  destruct (ins_path_bounds v t [] k' Hpath) as (Hl & Hr); [done|constructor..|].
  pose proof (ins_path_plug _ _ _ _ _ Hpath) as Heq. rewrite plug_nil in Heq.
  rewrite <- Heq, elems_plug in Hs |- *. simpl in *. split.
  - by apply sorted_insert.
  - solve_Permutation.
Qed.

(** Deleting the value found by the descent. *)
Lemma filter_all (P : T → Prop) `{∀ x, Decision (P x)} es :
  Forall P es → filter P es = es.
Proof.
  induction 1 as [|x es Hx Hes IH]; [done|]. by rewrite filter_cons_True, IH.
Qed.

Lemma filter_remove v u es1 es2 :
  sorted (es1 ++ u :: es2) → compare v u = 0%Z →
  filter (λ x, compare v x ≠ 0%Z) (es1 ++ u :: es2) = es1 ++ es2.
Proof.
  intros Hs Hvu. apply sorted_app in Hs as (Hc & _ & (Hu & _)%sorted_cons).
  rewrite Forall_forall in Hu.
  rewrite filter_app, filter_cons_False by (intros ?; done).
  rewrite !filter_all; [done| |].
  - apply Forall_forall. intros x Hx Hvx.
    pose proof (klt_eq_r compare Hcmp v x u Hvx (Hu x Hx)) as Huv.
    apply (klt_not_eq compare Hcmp) in Huv. tauto.
  - apply Forall_forall. intros x Hx Hvx.
    assert (klt x u) as Hxu by (apply Hc; [done|by left]).
    pose proof (klt_eq_l compare Hcmp v x u Hvx Hxu) as Huv.
    apply (klt_not_eq compare Hcmp) in Huv. tauto.
Qed.

End Descent.

(** ** [Search], [Has] and [Delete] *)

Section SearchRun.
Context {T : Type}.
Variable compare : T → T → Z.
Variable zero : T.
Implicit Types (s : @RBTree T) (t l r : @tree T) (k : list (@frame T)) (v u : T).
Local Abbreviation Rep := (Rep zero).
Local Abbreviation find_path := (find_path compare).

(** [Search] follows the descent [find_path]. *)
Lemma Search_loop_spec v t : ∀ k s fuel,
  Rep s (plug t k) → height t < fuel →
  Search_loop compare fuel v (ptr (nil_ s) t) s = Ok (found (find_path v t k)) s.
Proof.
  induction t as [|a c l IHl x r IHr]; intros k s fuel HR Hfuel;
    (destruct fuel as [|fuel]; [simpl in Hfuel; lia|]); simpl in Hfuel;
    cbn [Search_loop ptr find_path].
  - aread. by rewrite Nat.eqb_refl.
  - aread. atest. aread. cbn zeta.
    destruct (compare v x <? 0)%Z.
    + aread. apply (IHl (FL a c x r :: k)); [done|lia].
    + destruct (0 <? compare v x)%Z; [|done].
      aread. apply (IHr (FR a c l x :: k)); [done|lia].
Qed.

Lemma Search_spec v s t :
  Rep s t → Search compare v s = Ok (found (find_path v t [])) s.
Proof.
  intros HR. unfold Search.
  change ((get_root ≫= ?f) s) with (f (root s) s). cbn beta.
  rewrite (rep_root _ _ _ HR).
  change (Rep s (plug t [])) in HR. aread.
  apply Search_loop_spec; [done|].
  pose proof (Rep_size _ _ _ HR). pose proof (height_le_size (plug t [])).
  rewrite plug_nil in *. lia.
Qed.

Lemma Has_spec v s t :
  Rep s t → Has compare v s = Ok (negb (found (find_path v t []) =? 0)) s.
Proof.
  intros HR. unfold Has. by rewrite (bind_ok _ _ _ _ _ (Search_spec v s t HR)).
Qed.

(** [Delete] of a value that the descent does not meet. *)
Lemma Delete_absent v s t :
  Rep s t → (∀ u, u ∈ elems t → compare v u ≠ 0%Z) →
  Search compare v s = Ok 0 s ∧ Delete compare v s = Ok false s.
Proof.
  intros HR Hno. pose proof (Search_spec v s t HR) as HS.
  rewrite (find_path_none compare v t [] Hno) in HS. simpl in HS.
  split; [done|]. unfold Delete. by rewrite (bind_ok _ _ _ _ _ HS).
Qed.

End SearchRun.

Section DeleteRun.
Context {T : Type}.
Variable compare : T → T → Z.
Hypothesis Hcmp : comparator compare.
Variable zero : T.
Implicit Types (s : @RBTree T) (t l r : @tree T) (k : list (@frame T)) (v u : T).
Local Abbreviation Rep := (Rep zero).
Local Abbreviation find_path := (find_path compare).
Local Abbreviation sorted := (sorted compare).

(** Where [Search] ends in a search tree that holds [u], equal to [v]. *)
Lemma Search_present v u s t :
  Rep s t → sorted (elems t) → u ∈ elems t → compare v u = 0%Z →
  ∃ a c l r k, plug (N a c l u r) k = t
    ∧ Search compare v s = Ok a s ∧ a ≠ 0
    ∧ heap s !! a = Some (mkNode c (top k) (ptr (nil_ s) l) (ptr (nil_ s) r) u).
Proof.
  intros HR Hs Hu Hvu.
  destruct (find_path_some compare Hcmp v u t [] Hs Hu Hvu) as (a & c & l & r & k & Hf).
  destruct (find_path_plug compare _ _ _ _ _ Hf) as (Hplug & _).
  rewrite plug_nil in Hplug. exists a, c, l, r, k. split; [done|].
  pose proof (Search_spec compare zero v s t HR) as HS. rewrite Hf in HS. simpl in HS.
  rewrite <- Hplug in HR. split_and!; [done| |].
  - apply (Rep_addr_neq0 zero s (plug (N a c l u r) k)); [done|].
    rewrite addrs_plug_perm. simpl. set_solver.
  - by apply (Rep_lookup zero s a c l u r k).
Qed.

(** [Delete] of a value the tree holds: the tree that results is
    red-black with a black root, sorted, and holds the other values. *)
Lemma Delete_present v u s t m :
  Rep s t → rbt t m → color_of t = black → sorted (elems t) →
  u ∈ elems t → compare v u = 0%Z →
  ∃ s' t', Delete compare v s = Ok true s'
    ∧ Rep s' t' ∧ (∃ m', rbt t' m') ∧ color_of t' = black
    ∧ sorted (elems t')
    ∧ elems t' = filter (λ x, compare v x ≠ 0%Z) (elems t)
    ∧ nil_ s' = nil_ s ∧ next s' = next s.
Proof.
  intros HR Hrb Hc Hs Hu Hvu.
  destruct (Search_present v u s t HR Hs Hu Hvu) as (a & c & l & r & k & <- & HS & _).
  destruct (DeleteNode_spec zero s a c l u r k m HR Hrb Hc)
    as (s' & t' & Hrun & HR' & Hrb' & Hc' & He & Hn & Hx).
  exists s', t'. unfold Delete. rewrite (bind_ok _ _ _ _ _ HS).
  assert (Heq : elems (plug (N a c l u r) k)
                = (kelems_l k ++ elems l) ++ u :: (elems r ++ kelems_r k)).
  { rewrite elems_plug. simpl. by rewrite <- !app_assoc. }
  rewrite Heq in Hs |- *.
  rewrite (filter_remove compare Hcmp v u _ _ Hs Hvu).
  rewrite (app_assoc (kelems_l k)) in He.
  split_and!; try done. rewrite He. by eapply sorted_remove.
Qed.

End DeleteRun.

(** ** The invariants of the data model *)

Section Invariants.
Context {T : Type}.
Variable compare : T → T → Z.
Hypothesis Hcmp : comparator compare.
Variable zero : T.
Implicit Types (s : @RBTree T) (t l r : @tree T) (k : list (@frame T)) (v u : T).
Local Abbreviation Rep := (Rep zero).
Local Abbreviation sorted := (sorted compare).
Local Abbreviation klt := (klt compare).
Local Abbreviation bst := (bst compare).
Local Abbreviation no_duplicates := (no_duplicates compare).
Local Abbreviation invariants := (invariants compare zero).
Local Abbreviation Good := (Good compare zero).

Lemma sorted_bst t : sorted (elems t) → bst t.
Proof.
  induction t as [|a c l IHl v r IHr]; [done|]. simpl. intros Hs.
  pose proof Hs as (Hc & Hl & (Hv & Hr)%sorted_cons)%sorted_app.
  split_and!; [|done|by apply IHl|by apply IHr].
  apply Forall_forall. intros x Hx. apply Hc; [done|]. by left.
Qed.

Lemma rbt_no_red_red t n : rbt t n → no_red_red t.
Proof.
  revert n. induction t as [|a c l IHl v r IHr]; intros n; [done|].
  destruct c; simpl.
  - destruct n as [|n]; [done|]. intros (? & ?). split_and!; [done|by eapply IHl|by eapply IHr].
  - intros (? & ? & ? & ?). split_and!; [done|by eapply IHl|by eapply IHr].
Qed.

Lemma rbt_black_counts t n : rbt t n → ∀ x, x ∈ black_counts t → x = n.
Proof.
  revert n. induction t as [|a c l IHl v r IHr]; intros n; simpl.
  { intros -> x Hx. by apply list_elem_of_singleton in Hx. }
  destruct c.
  - destruct n as [|n]; [done|]. intros (Hl & Hr) x (y & -> & Hy)%list_elem_of_fmap.
    f_equal. apply elem_of_app in Hy as [Hy|Hy]; [by apply (IHl n)|by apply (IHr n)].
  - intros (_ & _ & Hl & Hr) x (y & -> & Hy)%list_elem_of_fmap.
    apply elem_of_app in Hy as [Hy|Hy]; [by apply (IHl n)|by apply (IHr n)].
Qed.

Lemma rbt_uniform_black t n : rbt t n → uniform_black t.
Proof.
  revert n. induction t as [|a c l IHl v r IHr]; intros n Hrb; [done|].
  split_and!.
  - intros x y Hx Hy.
    by rewrite (rbt_black_counts _ _ Hrb x Hx), (rbt_black_counts _ _ Hrb y Hy).
  - destruct c; simpl in Hrb; [destruct n; [done|]|]; [eapply IHl|eapply IHl]; apply Hrb.
  - destruct c; simpl in Hrb; [destruct n; [done|]|]; [eapply IHr|eapply IHr]; apply Hrb.
Qed.

Lemma Rep_black_sentinel s t : Rep s t → black_sentinel s.
Proof. intros HR. destruct (rep_nil _ _ _ HR) as [sp Hsp]. by eexists. Qed.

Lemma Rep_black_root s t : Rep s t → color_of t = black → black_root s.
Proof.
  intros HR Hc. unfold black_root. rewrite (rep_root _ _ _ HR).
  destruct t as [|a c l v r]; simpl in *.
  - by apply (Rep_black_sentinel s E).
  - change (Rep s (plug (N a c l v r) [])) in HR.
    rewrite (Rep_lookup _ _ _ _ _ _ _ _ HR). by eexists.
Qed.

Lemma Good_invariants s present : Good s present → invariants s.
Proof.
  intros (t & m & HR & Hrb & Hc & Hs & _). exists t. split_and!; [done|..].
  - by apply sorted_bst.
  - by eapply Rep_black_root.
  - by eapply Rep_black_sentinel.
  - by eapply rbt_no_red_red.
  - by eapply rbt_uniform_black.
  - intros i j x y. by apply sorted_distinct.
Qed.

Lemma Rep_New : Rep (New zero) E.
Proof.
  split; simpl.
  - done.
  - done.
  - constructor.
  - by eexists.
  - apply not_elem_of_nil.
  - done.
  - intros a Ha. apply lookup_singleton_ne. lia.
Qed.

Lemma Good_New : Good (New zero) [].
Proof.
  exists E, 0. split_and!; [apply Rep_New|done|done|constructor|done].
Qed.

End Invariants.

(** ** Sequences of [Insert] and [Delete] calls *)

Section Ops.
Context {T : Type}.
Variable compare : T → T → Z.
Variable zero : T.
Implicit Types (s : @RBTree T) (present : list T) (o : op T) (ops : list (op T)).
Local Abbreviation run_op := (run_op compare).
Local Abbreviation run := (run compare).
Local Abbreviation model_step := (model_step compare).
Local Abbreviation model := (model compare).
Local Abbreviation valid_ops := (valid_ops compare).
Local Abbreviation distinct := (distinct compare).

Lemma valid_ops_app present ops1 ops2 :
  valid_ops present (ops1 ++ ops2) ↔
  valid_ops present ops1 ∧ valid_ops (fold_left model_step ops1 present) ops2.
Proof.
  revert present. induction ops1 as [|o ops1 IH]; intros present; simpl; [tauto|].
  rewrite IH. tauto.
Qed.

Lemma valid_ops_take present ops n : valid_ops present ops → valid_ops present (take n ops).
Proof.
  intros H. rewrite <- (take_drop n ops) in H. by apply valid_ops_app in H as [? _].
Qed.

End Ops.

Section OpsRun.
Context {T : Type}.
Variable compare : T → T → Z.
Hypothesis Hcmp : comparator compare.
Variable zero : T.
Implicit Types (s : @RBTree T) (present : list T) (o : op T) (ops : list (op T)).
Local Abbreviation Good := (Good compare zero).
Local Abbreviation run := (run compare).
Local Abbreviation model_step := (model_step compare).
Local Abbreviation valid_ops := (valid_ops compare).

(** One call of a history, and a whole history. *)
Lemma Insert_Good v s present :
  Good s present → Forall (λ u, compare v u ≠ 0%Z) present →
  ∃ s', Insert compare v s = Ok (next s) s' ∧ Good s' (v :: present).
Proof.
  intros (t & m & HR & Hrb & Hc & Hs & Hp) Hno.
  destruct (ins_path_some compare v t []) as (k' & Hpath).
  { intros u Hu. rewrite Forall_forall in Hno. apply Hno. by rewrite <- Hp. }
  destruct (Insert_ok compare zero s t v k' m HR Hrb Hc Hpath)
    as (s' & t' & Hrun & HR' & (m' & Hrb') & Hc' & He & _).
  destruct (ins_path_sorted compare Hcmp v t k' Hpath Hs) as (Hs' & Hp').
  exists s'. split; [done|]. exists t', m'. rewrite He. split_and!; try done.
  by rewrite Hp', Hp.
Qed.

Lemma Delete_Good v s present :
  Good s present →
  ∃ b s', Delete compare v s = Ok b s' ∧ Good s' (filter (λ x, compare v x ≠ 0%Z) present)
    ∧ (b = false → s' = s).
Proof.
  intros (t & m & HR & Hrb & Hc & Hs & Hp).
  destruct (decide (Forall (λ u, compare v u ≠ 0%Z) (elems t))) as [Hno|Hyes].
  - rewrite Forall_forall in Hno.
    destruct (Delete_absent compare zero v s t HR Hno) as (_ & Hrun).
    exists false, s. split_and!; [done| |done]. exists t, m. split_and!; try done.
    rewrite <- Hp. rewrite filter_all; [done|]. by apply Forall_forall.
  - apply not_Forall_Exists in Hyes; [|apply _].
    apply Exists_exists in Hyes as (u & Hu & Hvu). apply dec_stable in Hvu.
    destruct (Delete_present compare Hcmp zero v u s t m HR Hrb Hc Hs Hu Hvu)
      as (s' & t' & Hrun & HR' & (m' & Hrb') & Hc' & Hs' & He & _).
    exists true, s'. split_and!; [done| |done]. exists t', m'. split_and!; try done.
    by rewrite He, Hp.
Qed.

Lemma run_op_Good o s present :
  Good s present → valid_ops present [o] →
  ∃ s', run_op compare o s = Ok tt s' ∧ Good s' (model_step present o).
Proof.
  intros HG (Hv & _). destruct o as [v|v]; simpl.
  - destruct (Insert_Good v s present HG Hv) as (s' & Hrun & HG').
    exists s'. by rewrite (bind_ok _ _ _ _ _ Hrun).
  - destruct (Delete_Good v s present HG) as (b & s' & Hrun & HG' & _).
    exists s'. by rewrite (bind_ok _ _ _ _ _ Hrun).
Qed.

Lemma run_Good ops : ∀ s present,
  Good s present → valid_ops present ops →
  ∃ s', run ops s = Ok tt s' ∧ Good s' (fold_left model_step ops present).
Proof.
  induction ops as [|o ops IH]; intros s present HG Hv; simpl.
  - by exists s.
  - destruct Hv as (Ho & Hv).
    destruct (run_op_Good o s present HG) as (s1 & Hrun & HG1); [by split|].
    destruct (IH s1 _ HG1 Hv) as (s' & Hrun' & HG').
    exists s'. by rewrite (bind_ok _ _ _ _ _ Hrun).
Qed.

End OpsRun.

(** ** [Successor] and [Predecessor] *)

Section Rightmost.
Context {T : Type}.
Implicit Types (t l r : @tree T) (k : list (@frame T)).

Lemma addrs_lm t : t ≠ E → ∃ rest, addrs t = ptr 0 (lm_node t) :: rest.
Proof.
  induction t as [|a c l IHl v r IHr]; [done|]. intros _.
  destruct l as [|la lc ll lv lr]; [by eexists|].
  destruct IHl as (rest & Hrest); [done|].
  exists (rest ++ a :: addrs r).
  change (addrs (N la lc ll lv lr) ++ a :: addrs r
          = ptr 0 (lm_node (N la lc ll lv lr)) :: rest ++ a :: addrs r).
  by rewrite Hrest.
Qed.

Lemma addrs_rm t : t ≠ E → ∃ rest, addrs t = rest ++ [ptr 0 (rm_node t)].
Proof.
  induction t as [|a c l IHl v r IHr]; [done|]. intros _.
  destruct r as [|ra rc rl rv rr]; [by exists (addrs l)|].
  destruct IHr as (rest & Hrest); [done|].
  exists (addrs l ++ a :: rest).
  change (addrs l ++ a :: addrs (N ra rc rl rv rr)
          = (addrs l ++ a :: rest) ++ [ptr 0 (rm_node (N ra rc rl rv rr))]).
  rewrite Hrest. by rewrite <- app_assoc.
Qed.

Lemma ptr_lm nl t : t ≠ E → ptr nl (lm_node t) = ptr 0 (lm_node t).
Proof. intros (m & mc & mv & mr & ->)%lm_node_shape. done. Qed.

Lemma rm_node_shape t : t ≠ E → ∃ m mc ml mv, rm_node t = N m mc ml mv E.
Proof.
  induction t as [|a c l IHl v r IHr]; [done|]. intros _.
  destruct r as [|ra rc rl rv rr]; [simpl; eauto|].
  destruct IHr as (m & mc & ml & mv & Heq); [done|].
  exists m, mc, ml, mv. exact Heq.
Qed.

Lemma ptr_rm nl t : t ≠ E → ptr nl (rm_node t) = ptr 0 (rm_node t).
Proof. intros (m & mc & ml & mv & ->)%rm_node_shape. done. Qed.

(** Where an address sits in the in-order sequence. *)
Lemma addr_focus t a : a ∈ addrs t → ∃ c l v r k, t = plug (N a c l v r) k.
Proof.
  assert (∀ t k, a ∈ addrs t → ∃ c l v r k', plug t k = plug (N a c l v r) k') as H.
  { clear t. induction t as [|b c l IHl v r IHr]; intros k Hin; simpl in Hin.
    - by apply elem_of_nil in Hin.
    - apply elem_of_app in Hin as [Hin|Hin]; [|apply elem_of_cons in Hin as [->|Hin]].
      + apply (IHl (FL b c v r :: k) Hin).
      + by eexists _, _, _, _, _.
      + apply (IHr (FR b c l v :: k) Hin). }
  intros Hin. destruct (H t [] Hin) as (c & l & v & r & k & Heq).
  rewrite plug_nil in Heq. by eexists _, _, _, _, _.
Qed.

Lemma length_addrs_elems t : length (addrs t) = length (elems t).
Proof.
  induction t as [|a c l IHl v r IHr]; [done|]. simpl.
  rewrite !length_app. simpl. lia.
Qed.

Lemma length_kaddrs_kelems_l k : length (kaddrs_l k) = length (kelems_l k).
Proof.
  induction k as [|[a c v r|a c l v] k IH]; simpl; [done|done|].
  rewrite !length_app, length_addrs_elems. simpl. lia.
Qed.

(** The in-order sequences of a tree, cut at a node. *)
Lemma addrs_focus a c l (v : T) r k :
  addrs (plug (N a c l v r) k) = (kaddrs_l k ++ addrs l) ++ a :: (addrs r ++ kaddrs_r k).
Proof. rewrite addrs_plug. simpl. by rewrite <- !app_assoc. Qed.

Lemma elems_focus a c l (v : T) r k :
  elems (plug (N a c l v r) k) = (kelems_l k ++ elems l) ++ v :: (elems r ++ kelems_r k).
Proof. rewrite elems_plug. simpl. by rewrite <- !app_assoc. Qed.

End Rightmost.

Section Navigation.
Context {T : Type}.
Variable zero : T.
Implicit Types (s : @RBTree T) (t l r : @tree T) (k : list (@frame T)).
Local Abbreviation Rep := (Rep zero).

Lemma Rep_fuel_sub s t k : Rep s (plug t k) → height t ≤ next s.
Proof.
  intros HR. pose proof (Rep_fuel_path zero s t k HR). pose proof (height_le_size t). lia.
Qed.

(** The loops of [Predecessor] and [Successor]. *)
Lemma rightmost_spec t : ∀ k s fuel,
  Rep s (plug t k) → t ≠ E → height t ≤ fuel →
  rightmost fuel (ptr (nil_ s) t) s = Ok (ptr (nil_ s) (rm_node t)) s.
Proof.
  induction t as [|a c l IHl v r IHr]; intros k s fuel HR Hne Hfuel; [done|].
  destruct fuel as [|fuel]; [simpl in Hfuel; lia|]. simpl in Hfuel.
  cbn [rightmost ptr]. aread. aread.
  destruct r as [|ra rc rl rv rr]; cbn [ptr].
  - rewrite Nat.eqb_refl. done.
  - atest. apply (IHr (FR a c l v :: k)); [done|done|simpl in *; lia].
Qed.

Lemma climb_right_spec k : ∀ s fuel a c l v r,
  Rep s (plug (N a c l v r) k) → length k < fuel →
  climb_right fuel a (top k) s = Ok (default 0 (head (kaddrs_r k))) s.
Proof.
  induction k as [|f k IH]; intros s fuel a c l v r HR Hfuel;
    (destruct fuel as [|fuel]; [simpl in Hfuel; lia|]); simpl in Hfuel;
    cbn [climb_right top]; [done|].
  rewrite plug_cons in HR.
  destruct f as [p pc pv pr|p pc pl pv]; cbn [fill faddr] in *.
  - atest. aread. atest. done.
  - atest. aread. rewrite Nat.eqb_refl. aread.
    apply (IH s fuel p pc pl pv (N a c l v r)); [done|lia].
Qed.

Lemma climb_left_spec k : ∀ s fuel a c l v r,
  Rep s (plug (N a c l v r) k) → length k < fuel →
  climb_left fuel a (top k) s = Ok (default 0 (last (kaddrs_l k))) s.
Proof.
  induction k as [|f k IH]; intros s fuel a c l v r HR Hfuel;
    (destruct fuel as [|fuel]; [simpl in Hfuel; lia|]); simpl in Hfuel;
    cbn [climb_left top]; [done|].
  rewrite plug_cons in HR.
  destruct f as [p pc pv pr|p pc pl pv]; cbn [fill faddr] in *.
  - atest. aread. rewrite Nat.eqb_refl. aread.
    apply (IH s fuel p pc (N a c l v r) pv pr); [done|lia].
  - atest. aread. atest. cbn [kaddrs_l].
    by rewrite app_assoc, last_snoc.
Qed.

(** The successor of a node is the next address of the in-order sequence,
    and the null pointer when there is none. *)
Lemma Successor_focus s a c l v r k :
  Rep s (plug (N a c l v r) k) →
  Successor a s = Ok (default 0 (head (addrs r ++ kaddrs_r k))) s.
Proof.
  intros HR. unfold Successor. atest. aread. aread. aread.
  destruct r as [|ra rc rl rv rr]; cbn [ptr].
  - rewrite Nat.eqb_refl. cbn [negb]. aread.
    apply (climb_right_spec k s (next s) a c l v E HR).
    pose proof (Rep_fuel_path zero s _ k HR). lia.
  - atest.
    change ra with (ptr (nil_ s) (N ra rc rl rv rr)) at 1.
    rewrite (leftmost_spec zero (N ra rc rl rv rr) (FR a c l v :: k) s (next s)); [|done|done|].
    + destruct (addrs_lm (N ra rc rl rv rr)) as (rest & ->); [done|].
      by rewrite ptr_lm.
    + apply (Rep_fuel_sub s (N ra rc rl rv rr) (FR a c l v :: k) HR).
Qed.

(** The predecessor of a node is the address before it in the in-order
    sequence, and the null pointer when there is none. *)
Lemma Predecessor_focus s a c l v r k :
  Rep s (plug (N a c l v r) k) →
  Predecessor a s = Ok (default 0 (last (kaddrs_l k ++ addrs l))) s.
Proof.
  intros HR. unfold Predecessor. atest. aread. aread. aread.
  destruct l as [|la lc ll lv lr]; cbn [ptr].
  - rewrite Nat.eqb_refl. cbn [negb]. aread. cbn [addrs]. rewrite app_nil_r.
    apply (climb_left_spec k s (next s) a c E v r HR).
    pose proof (Rep_fuel_path zero s _ k HR). lia.
  - atest.
    change la with (ptr (nil_ s) (N la lc ll lv lr)) at 1.
    rewrite (rightmost_spec (N la lc ll lv lr) (FL a c v r :: k) s (next s)); [|done|done|].
    + destruct (addrs_rm (N la lc ll lv lr)) as (rest & ->); [done|].
      by rewrite app_assoc, last_snoc, ptr_rm.
    + apply (Rep_fuel_sub s (N la lc ll lv lr) (FL a c v r :: k) HR).
Qed.

End Navigation.

Section Positions.
Context {T : Type}.
Variable zero : T.
Implicit Types (s : @RBTree T) (t l r : @tree T) (k : list (@frame T)).
Local Abbreviation Rep := (Rep zero).

(** The node at a position of the in-order sequence holds the value at
    that position. *)
Lemma node_at s t i a :
  Rep s t → addrs t !! i = Some a →
  ∃ c l v r k, t = plug (N a c l v r) k
    ∧ i = length (kaddrs_l k ++ addrs l)
    ∧ elems t !! i = Some v.
Proof.
  intros HR Hi.
  destruct (addr_focus t a) as (c & l & v & r & k & ->);
    [by eapply list_elem_of_lookup_2|].
  exists c, l, v, r, k. split; [done|].
  pose proof (addrs_focus a c l v r k) as Ha.
  pose proof (elems_focus a c l v r k) as He.
  assert (i = length (kaddrs_l k ++ addrs l)) as ->.
  { eapply NoDup_lookup; [apply (rep_nodup _ _ _ HR)|done|].
    rewrite Ha. apply list_lookup_middle. done. }
  split; [done|]. rewrite He. apply list_lookup_middle.
  by rewrite !length_app, length_kaddrs_kelems_l, length_addrs_elems.
Qed.

Lemma node_at_holds s t i a x :
  Rep s t → addrs t !! i = Some a → elems t !! i = Some x → is_node s t a x.
Proof.
  intros HR Ha Hx. destruct (node_at s t i a HR Ha) as (c & l & v & r & k & -> & _ & Hv).
  split; [by eapply list_elem_of_lookup_2|].
  eexists. split; [by apply (Rep_lookup zero s a c l v r k)|]. simpl. congruence.
Qed.

(** [Successor] and [Predecessor] by positions in the in-order sequence. *)
Lemma Successor_at s t i a :
  Rep s t → addrs t !! i = Some a →
  Successor a s = Ok (default 0 (addrs t !! S i)) s.
Proof.
  intros HR Hi. destruct (node_at s t i a HR Hi) as (c & l & v & r & k & -> & -> & _).
  rewrite (Successor_focus zero s a c l v r k HR). do 2 f_equal.
  rewrite addrs_focus, lookup_app_r by lia.
  replace (S (length (kaddrs_l k ++ addrs l)) - length (kaddrs_l k ++ addrs l)) with 1 by lia.
  simpl. by rewrite head_lookup.
Qed.

Lemma Predecessor_at s t i a :
  Rep s t → addrs t !! i = Some a →
  Predecessor a s = Ok (match i with 0 => 0 | S j => default 0 (addrs t !! j) end) s.
Proof.
  intros HR Hi. destruct (node_at s t i a HR Hi) as (c & l & v & r & k & -> & -> & _).
  rewrite (Predecessor_focus zero s a c l v r k HR). do 2 f_equal.
  rewrite addrs_focus, last_lookup.
  destruct (length (kaddrs_l k ++ addrs l)) as [|j] eqn:Hlen; simpl.
  - by apply nil_length_inv in Hlen as ->.
  - rewrite (lookup_app_l (kaddrs_l k ++ addrs l)) by lia. done.
Qed.

Lemma Successor_nil s : Successor 0 s = Ok 0 s.
Proof. done. Qed.

Lemma Predecessor_nil s : Predecessor 0 s = Ok 0 s.
Proof. done. Qed.

End Positions.

Section Neighbours.
Context {T : Type}.
Variable compare : T → T → Z.
Hypothesis Hcmp : comparator compare.
Implicit Types (es : list T) (x y z : T).
Local Abbreviation klt := (klt compare).
Local Abbreviation sorted := (sorted compare).
Local Abbreviation minimum := (minimum compare).
Local Abbreviation maximum := (maximum compare).
Local Abbreviation adjacent := (adjacent compare).

Lemma sorted_lookup_lt es i j x y :
  sorted es → es !! i = Some x → es !! j = Some y → i < j → klt x y.
Proof.
  intros Hs. revert i j. induction Hs as [|a es Hs IH Ha]; intros i j Hi Hj Hij; [done|].
  rewrite Forall_forall in Ha.
  destruct i as [|i], j as [|j]; simpl in *; simplify_eq; try lia.
  - apply Ha. by eapply list_elem_of_lookup_2.
  - apply (IH i j); [done|done|lia].
Qed.

Lemma sorted_lt_lookup es i j x y :
  sorted es → es !! i = Some x → es !! j = Some y → klt x y → i < j.
Proof.
  intros Hs Hi Hj Hxy. destruct (lt_eq_lt_dec i j) as [[?| ->]|Hji]; [done|exfalso..].
  - simplify_eq. by apply (klt_irrefl compare Hcmp x).
  - pose proof (sorted_lookup_lt es j i y x Hs Hj Hi Hji).
    apply (klt_irrefl compare Hcmp x). by apply (klt_trans compare Hcmp x y x).
Qed.

Lemma minimum_first es x : sorted es → minimum es x → es !! 0 = Some x.
Proof.
  intros Hs (Hx & Hmin). apply list_elem_of_lookup_1 in Hx as [i Hi].
  destruct i as [|i]; [done|exfalso].
  destruct (lookup_lt_is_Some_2 es 0) as [z Hz]; [apply lookup_lt_Some in Hi; lia|].
  apply (Hmin z); [by eapply list_elem_of_lookup_2|].
  apply (sorted_lookup_lt es 0 (S i)); [done..|lia].
Qed.

Lemma maximum_last es x : sorted es → maximum es x → ∃ i, es !! i = Some x ∧ es !! S i = None.
Proof.
  intros Hs (Hx & Hmax). apply list_elem_of_lookup_1 in Hx as [i Hi].
  exists i. split; [done|]. destruct (es !! S i) as [z|] eqn:Hz; [exfalso|done].
  apply (Hmax z); [by eapply list_elem_of_lookup_2|].
  apply (sorted_lookup_lt es i (S i)); [done..|lia].
Qed.

Lemma adjacent_next es x y :
  sorted es → adjacent es x y → ∃ i, es !! i = Some x ∧ es !! S i = Some y.
Proof.
  intros Hs (Hx & Hy & Hxy & Hno).
  apply list_elem_of_lookup_1 in Hx as [i Hi]. apply list_elem_of_lookup_1 in Hy as [j Hj].
  exists i. split; [done|].
  pose proof (sorted_lt_lookup es i j x y Hs Hi Hj Hxy) as Hij.
  destruct (decide (j = S i)) as [->|Hne]; [done|exfalso].
  destruct (lookup_lt_is_Some_2 es (S i)) as [z Hz]; [apply lookup_lt_Some in Hj; lia|].
  apply (Hno z); [by eapply list_elem_of_lookup_2|]. split.
  - apply (sorted_lookup_lt es i (S i)); [done..|lia].
  - apply (sorted_lookup_lt es (S i) j); [done..|lia].
Qed.

End Neighbours.

Section NavigationOrder.
Context {T : Type}.
Variable compare : T → T → Z.
Hypothesis Hcmp : comparator compare.
Variable zero : T.
Implicit Types (s : @RBTree T) (t : @tree T) (x y : T).
Local Abbreviation Rep := (Rep zero).
Local Abbreviation sorted := (sorted compare).

Lemma lookup_node s t i x :
  Rep s t → elems t !! i = Some x → ∃ a, addrs t !! i = Some a ∧ is_node s t a x.
Proof.
  intros HR Hx.
  destruct (lookup_lt_is_Some_2 (addrs t) i) as [a Ha].
  { rewrite length_addrs_elems. by eapply lookup_lt_Some. }
  exists a. split; [done|]. by eapply node_at_holds.
Qed.

Lemma Predecessor_minimum s t x :
  Rep s t → sorted (elems t) → minimum compare (elems t) x →
  ∃ a, is_node s t a x ∧ Predecessor a s = Ok 0 s.
Proof.
  intros HR Hs Hmin. pose proof (minimum_first compare _ _ Hs Hmin) as H0.
  destruct (lookup_node s t 0 x HR H0) as (a & Ha & Hn).
  exists a. split; [done|]. by rewrite (Predecessor_at zero s t 0 a HR Ha).
Qed.

Lemma Successor_maximum s t x :
  Rep s t → sorted (elems t) → maximum compare (elems t) x →
  ∃ a, is_node s t a x ∧ Successor a s = Ok 0 s.
Proof.
  intros HR Hs Hmax. destruct (maximum_last compare _ _ Hs Hmax) as (i & Hi & Hnone).
  destruct (lookup_node s t i x HR Hi) as (a & Ha & Hn).
  exists a. split; [done|]. rewrite (Successor_at zero s t i a HR Ha).
  rewrite (lookup_ge_None_2 (addrs t) (S i)); [done|].
  rewrite length_addrs_elems. by apply lookup_ge_None.
Qed.

Lemma Successor_Predecessor_adjacent s t x y :
  Rep s t → sorted (elems t) → adjacent compare (elems t) x y →
  ∃ a b, is_node s t a x ∧ is_node s t b y
    ∧ Successor a s = Ok b s ∧ Predecessor b s = Ok a s.
Proof.
  intros HR Hs Hadj. destruct (adjacent_next compare Hcmp _ _ _ Hs Hadj) as (i & Hi & Hj).
  destruct (lookup_node s t i x HR Hi) as (a & Ha & Hna).
  destruct (lookup_node s t (S i) y HR Hj) as (b & Hb & Hnb).
  exists a, b. split_and!; [done|done| |].
  - by rewrite (Successor_at zero s t i a HR Ha), Hb.
  - by rewrite (Predecessor_at zero s t (S i) b HR Hb), Ha.
Qed.

End NavigationOrder.

(** ** The in-order iterator *)

Section Spine.
Context {T : Type}.
Implicit Types (t l r : @tree T) (k : list (@frame T)).

Lemma spine_plug t k : plug E (spine t k) = plug t k.
Proof.
  revert k. induction t as [|a c l IHl v r IHr]; intros k; [done|].
  simpl. by rewrite IHl.
Qed.

Lemma spine_elems t k : kelems_r (spine t k) = elems t ++ kelems_r k.
Proof.
  revert k. induction t as [|a c l IHl v r IHr]; intros k; [done|].
  simpl. rewrite IHl. simpl. by rewrite <- app_assoc.
Qed.

Lemma spine_node a c l v r k : fl_addrs (spine (N a c l v r) k) ≠ [].
Proof.
  assert (∀ t k, fl_addrs k ≠ [] → fl_addrs (spine t k) ≠ []) as H.
  { clear. induction t as [|a c l IHl v r IHr]; intros k Hk; [done|].
    simpl. by apply IHl. }
  simpl. by apply H.
Qed.

(** The innermost [FL] frame of a path, if there is one. *)
Lemma first_fl k :
  (fl_addrs k = [] ∧ kelems_r k = [])
  ∨ ∃ kr p pc pv pr k', k = kr ++ FL p pc pv pr :: k'
      ∧ fl_addrs k = p :: fl_addrs k'
      ∧ kelems_r k = pv :: elems pr ++ kelems_r k'.
Proof.
  induction k as [|[a c v r|a c l v] k IH].
  - by left.
  - right. by exists [], a, c, v, r, k.
  - destruct IH as [(H1 & H2)|(kr & p & pc & pv & pr & k' & -> & H1 & H2)]; [by left|].
    right. by exists (FR a c l v :: kr), p, pc, pv, pr, k'.
Qed.

End Spine.

Section InOrder.
Context {T C : Type}.
Variable zero : T.
Variable yield : T → C → bool * C.
Implicit Types (s : @RBTree T) (t l r : @tree T) (k : list (@frame T)) (c : C).
Local Abbreviation Rep := (Rep zero).
Local Abbreviation visit := (visit yield).

(** The inner loop pushes the left spine of the current subtree. *)
Lemma inOrder_descend_spec t : ∀ k s fuel,
  Rep s (plug t k) → height t < fuel →
  inOrder_descend fuel (ptr (nil_ s) t) (reverse (fl_addrs k)) s
  = Ok (reverse (fl_addrs (spine t k))) s.
Proof.
  induction t as [|a c l IHl v r IHr]; intros k s fuel HR Hfuel;
    (destruct fuel as [|fuel]; [simpl in Hfuel; lia|]); simpl in Hfuel;
    cbn [inOrder_descend ptr spine].
  - aread. by rewrite Nat.eqb_refl.
  - aread. atest. aread.
    rewrite <- reverse_cons.
    apply (IHl (FL a c v r :: k)); [done|lia].
Qed.

(** The loop of the in-order iterator, at any point of the traversal: it
    feeds the consumer the values that are left, in order. *)
Lemma inOrder_loop_spec : ∀ fuel t k s c,
  Rep s (plug t k) → length (elems t ++ kelems_r k) < fuel →
  inOrder_loop yield fuel (ptr (nil_ s) t) (reverse (fl_addrs k)) c s
  = Ok (visit (elems t ++ kelems_r k) c) s.
Proof.
  induction fuel as [|fuel IH]; intros t k s c HR Hfuel; [lia|].
  cbn [inOrder_loop]. aread.
  pose proof (inOrder_descend_spec t k s (next s) HR) as Hd.
  pose proof (spine_plug t k) as Hplug. pose proof (spine_elems t k) as Hel.
  rewrite <- Hel in Hfuel |- *.
  destruct (first_fl (spine t k))
    as [(H1 & H2)|(kr & p & pc & pv & pr & k' & Hsp & H1 & H2)].
  - (* nothing is left *)
    destruct t as [|a c0 l v r]; [|by destruct (spine_node a c0 l v r k)].
    simpl in H1, H2 |- *. rewrite H1, H2. rewrite Nat.eqb_refl. done.
  - assert (Hcond : negb (ptr (nil_ s) t =? nil_ s) || (0 <? length (reverse (fl_addrs k)))
                    = true).
    { destruct t as [|a c0 l v r]; simpl in *.
      - rewrite H1, reverse_cons, length_app. simpl.
        rewrite Nat.eqb_refl. simpl. apply Nat.ltb_lt. lia.
      - apply orb_true_intro. left. apply negb_true_iff, Nat.eqb_neq.
        change (Rep s (plug (N a c0 l v r) k)) in HR.
        pose proof (Rep_footprint zero _ _ _ HR) as HND. cbn [addrs] in HND.
        nd_reify HND. apply not_eq_sym. nd. }
    rewrite Hcond. aread.
    assert (height t < next s) as Hh.
    { pose proof (Rep_fuel_path zero s t k HR). pose proof (height_le_size t). lia. }
    rewrite (bind_ok _ _ _ _ _ (Hd Hh)).
    rewrite H1, reverse_cons, last_snoc, removelast_last. rewrite H2.
    rewrite <- Hplug, Hsp, plug_app, plug_cons in HR. cbn [fill] in HR.
    aread. cbn [visit]. destruct (yield pv c) as [[] c']; [|done].
    aread.
    change (reverse (fl_addrs k')) with (reverse (fl_addrs (FR p pc (plug E kr) pv :: k'))).
    change (kelems_r k') with (kelems_r (FR p pc (plug E kr) pv :: k')).
    apply IH; [done|]. rewrite H2 in Hfuel. simpl in Hfuel |- *. lia.
Qed.

(** [Iterate(InOrder)] feeds the consumer the values of the tree, from
    left to right. *)
Lemma inOrderIter_spec s t c :
  Rep s t → inOrderIter yield c s = Ok (visit (elems t) c) s.
Proof.
  intros HR. unfold inOrderIter.
  change ((get_root ≫= ?f) s) with (f (root s) s). cbn beta.
  rewrite (rep_root _ _ _ HR). change (Rep s (plug t [])) in HR. aread.
  pose proof (inOrder_loop_spec (next s) t [] s c HR) as H.
  simpl in H. rewrite app_nil_r in H. apply H.
  pose proof (Rep_size _ _ _ HR). rewrite plug_nil, length_addrs_elems in *. lia.
Qed.

Lemma Iterate_InOrder_spec s t c :
  Rep s t → Iterate yield InOrder c s = Ok (visit (elems t) c) s.
Proof. apply inOrderIter_spec. Qed.

End InOrder.

Section Collect.
Context {T : Type}.

Lemma visit_collect (vs out : list T) : visit collect vs out = out ++ vs.
Proof.
  revert out. induction vs as [|v vs IH]; intros out; simpl.
  - by rewrite app_nil_r.
  - rewrite IH. by rewrite <- app_assoc.
Qed.

End Collect.

(** ** Histories: the trees that the interface builds *)

Section Histories.
Context {T : Type}.
Variable compare : T → T → Z.
Hypothesis Hcmp : comparator compare.
Variable zero : T.
Implicit Types (s : @RBTree T) (present vs ds : list T) (ops : list (op T)).
Local Abbreviation Good := (Good compare zero).
Local Abbreviation run := (run compare).
Local Abbreviation model_step := (model_step compare).
Local Abbreviation model := (model compare).
Local Abbreviation valid_ops := (valid_ops compare).
Local Abbreviation distinct := (distinct compare).

(** The state after a history, with the tree it represents. *)
Lemma history_Good ops :
  valid_ops [] ops → ∃ s, run ops (New zero) = Ok tt s ∧ Good s (model ops).
Proof. intros Hv. apply (run_Good compare Hcmp zero ops); [apply Good_New|done]. Qed.

Lemma distinct_Permutation vs vs' : vs ≡ₚ vs' → distinct vs → distinct vs'.
Proof.
  induction 1 as [|x l l' Hp IH|x y l|l l' l'' Hp1 IH1 Hp2 IH2]; simpl.
  - done.
  - intros (Hx & Hl). split; [by rewrite <- Hp|by apply IH].
  - intros ((Hxy & Hy)%Forall_cons & Hx & Hl). split_and!; [|done..].
    apply Forall_cons. split; [|done]. intros H. apply Hxy.
    by apply (compare_sym_0 compare Hcmp).
  - auto.
Qed.

Lemma inserts_valid vs : ∀ present,
  distinct vs → (∀ v u, v ∈ vs → u ∈ present → compare v u ≠ 0%Z) →
  valid_ops present (map OpInsert vs).
Proof.
  induction vs as [|v vs IH]; intros present Hd Hp; simpl; [done|].
  destruct Hd as (Hv & Hd). split.
  - apply Forall_forall. intros u Hu. apply Hp; [by left|done].
  - apply IH; [done|]. intros w u Hw [->|Hu]%elem_of_cons.
    + rewrite Forall_forall in Hv. by apply Hv.
    + apply Hp; [by right|done].
Qed.

Lemma inserts_model vs : ∀ present,
  fold_left model_step (map OpInsert vs) present ≡ₚ vs ++ present.
Proof.
  induction vs as [|v vs IH]; intros present; simpl; [done|].
  rewrite IH. solve_Permutation.
Qed.

Lemma deletes_valid ds present : valid_ops present (map OpDelete ds).
Proof. revert present. induction ds as [|d ds IH]; intros present; simpl; auto. Qed.

Lemma deletes_model ds : ∀ present,
  (∀ x, x ∈ present → x ∈ ds) →
  fold_left model_step (map OpDelete ds) present = [].
Proof.
  induction ds as [|d ds IH]; intros present Hp; simpl.
  - destruct present as [|x present]; [done|].
    assert (x ∈ []) as Hx by (apply Hp; by left). by apply elem_of_nil in Hx.
  - apply IH. intros x (Hx & Hin)%list_elem_of_filter.
    apply Hp in Hin. apply elem_of_cons in Hin as [->|Hin]; [|done].
    destruct Hx. apply (compare_refl compare Hcmp).
Qed.

End Histories.

(** ** The guards of the rotations *)

Section RotationGuards.
Context {T : Type}.
Variable zero : T.
Implicit Types (s : @RBTree T) (t l r : @tree T) (k : list (@frame T)).
Local Abbreviation Rep := (Rep zero).

(** [rotateLeft] on a node without right child: the guard fires before
    anything is written. *)
Lemma rotateLeft_guard s a c l v k :
  Rep s (plug (N a c l v E) k) →
  rotateLeft a s = Fault (Panic "is this possible?") s.
Proof.
  intros HR. unfold rotateLeft. aread. aread. by rewrite Nat.eqb_refl.
Qed.

(** [rotateRight] on a node without left child: the guard compares the
    child with the null pointer, the sentinel passes it, two pointers are
    overwritten and the run ends on a null dereference. *)
Lemma rotateRight_guard s a c v r k :
  Rep s (plug (N a c E v r) k) →
  ∃ sp,
    heap s !! nil_ s = Some (mkNode black sp 0 0 zero)
    ∧ rotateRight a s
      = Fault NilDeref
          (upd (upd s a (mkNode c (top k) 0 (ptr (nil_ s) r) v))
               (nil_ s) (mkNode black sp 0 a zero)).
Proof.
  intros HR. destruct (rep_nil _ _ _ HR) as [sp Hsp]. exists sp. split; [done|].
  pose proof (Rep_lookup _ _ _ _ _ _ _ _ HR) as Ha. cbn [ptr] in Ha.
  pose proof (Rep_nil_neq _ _ _ HR) as Hn0.
  pose proof (rep_null _ _ _ HR) as H0.
  pose proof (Rep_footprint zero _ _ _ HR) as HND. cbn [addrs] in HND. nd_reify HND.
  unfold rotateRight. hstep. hstep. rewrite (eqb_false (nil_ s) 0) by done.
  hstep. hstep. hstep. hstep. hstep.
  rewrite (eqb_false 0 (nil_ s)) by done. cbn [negb].
  hassoc. apply bind_fault. unfold set_parent. apply bind_fault.
  unfold load. cbn [heap upd].
  rewrite !lookup_insert_ne by first [done|nd]. by rewrite H0.
Qed.

End RotationGuards.

(** ** What [DeleteNode] returns *)

Section DeleteNodeResult.
Context {T : Type}.
Variable zero : T.
Implicit Types (s : @RBTree T) (t l r : @tree T) (k : list (@frame T)).
Local Abbreviation Rep := (Rep zero).

Lemma DeleteNode_nil s : DeleteNode 0 s = Ok false s.
Proof. done. Qed.

Lemma DeleteNode_not_false s a b s' : a ≠ 0 → DeleteNode a s = Ok b s' → b = true.
Proof.
  intros Ha. unfold DeleteNode. rewrite (eqb_false a 0) by done.
  intros H.
  apply bind_inv in H as (oc & s1 & _ & H).
  apply bind_inv in H as (nlf & s2 & _ & H).
  apply bind_inv in H as (nl & s3 & _ & H).
  apply bind_inv in H as ([odd oc'] & s4 & _ & H).
  apply bind_inv in H as (u & s5 & _ & H).
  by injection H as <- _.
Qed.

Lemma DeleteNode_member s t m a :
  Rep s t → rbt t m → color_of t = black → a ∈ addrs t →
  ∃ s', DeleteNode a s = Ok true s'.
Proof.
  intros HR Hrb Hc (c & l & v & r & k & ->)%addr_focus.
  destruct (DeleteNode_spec zero s a c l v r k m HR Hrb Hc) as (s' & t' & Hrun & _).
  by exists s'.
Qed.

End DeleteNodeResult.

(** * The properties of the specification *)

(** ** The example tree *)

(** [cmp.Compare] is a comparator. *)
Lemma cmp_Compare_comparator : comparator cmp_Compare.
Proof.
  split; unfold cmp_Compare.
  - intros a b. rewrite (Z.compare_antisym a b).
    destruct (a ?= b)%Z; simpl; lia.
  - intros a b c.
    destruct (Z.compare_spec a b), (Z.compare_spec b c), (Z.compare_spec a c); lia.
Qed.

(** [example_state] is what the three calls build, and it holds
    [example_tree]. *)
Lemma example_run : run cmp_Compare example_ops (New 0%Z) = Ok tt example_state.
Proof. vm_compute. reflexivity. Qed.

Lemma example_Rep : Rep 0%Z example_state example_tree.
Proof.
  split.
  - reflexivity.
  - vm_compute. repeat split.
  - vm_compute. repeat constructor; intros H; repeat (apply elem_of_cons in H as [H|H]; [lia|]);
      by apply elem_of_nil in H.
  - by exists 0.
  - vm_compute. intros H; repeat (apply elem_of_cons in H as [H|H]; [lia|]);
      by apply elem_of_nil in H.
  - reflexivity.
  - intros a Ha. cbn [next heap example_state] in *.
    rewrite !lookup_insert_ne by lia. apply lookup_singleton_ne. lia.
Qed.

Lemma example_sorted : sorted cmp_Compare (elems example_tree).
Proof. repeat constructor. Qed.

(** ** Invariants *)

(** C1. For every sequence of [Insert] and [Delete] calls that starts from
    the empty tree and never inserts a value equal to one that the tree
    holds, every call returns, and after each of them (after every prefix
    of the sequence) the six invariants hold: search-tree order, black
    root, black sentinel, no red node with a red child, the same number of
    black nodes on all the paths below a node, no two equal values. *)
Theorem invariants_after_every_call {T : Type} (compare : T → T → Z) (zero : T)
    (ops : list (op T)) (n : nat) :
  comparator compare → valid_ops compare [] ops →
  ∃ s, run compare (take n ops) (New zero) = Ok tt s ∧ invariants compare zero s.
Proof.
  intros Hcmp Hv.
  destruct (history_Good compare Hcmp zero (take n ops)) as (s & Hrun & HG).
  { by apply valid_ops_take. }
  exists s. split; [done|]. by eapply Good_invariants.
Qed.

Lemma invariants_after_every_call_witness :
  comparator cmp_Compare
  ∧ valid_ops cmp_Compare []
      [OpInsert 5; OpInsert 3; OpInsert 8; OpDelete 5; OpInsert 1; OpDelete 7; OpInsert 5]%Z
  ∧ ∃ s, run cmp_Compare
           (take 6 [OpInsert 5; OpInsert 3; OpInsert 8; OpDelete 5; OpInsert 1;
                    OpDelete 7; OpInsert 5]%Z) (New 0%Z) = Ok tt s
         ∧ invariants cmp_Compare 0%Z s.
Proof.
  split; [exact cmp_Compare_comparator|]. split; [vm_compute; repeat constructor; done|].
  apply (invariants_after_every_call cmp_Compare 0%Z).
  - exact cmp_Compare_comparator.
  - vm_compute. repeat constructor; done.
Defined.

(** ** Duplicates *)

(** C2. In a search tree that holds a value equal to [v] for the
    comparator, [Insert v] panics with "duplicate value"; the root, the
    sentinel and every node allocated before the call are what they were,
    so the state still represents the same tree: same nodes, colours and
    values. *)
Theorem Insert_duplicate_panics {T : Type} (compare : T → T → Z) (zero : T)
    (s : @RBTree T) (t : @tree T) (v u : T) :
  comparator compare →
  Rep zero s t → sorted compare (elems t) → u ∈ elems t → compare v u = 0%Z →
  ∃ s', Insert compare v s = Fault (Panic "duplicate value") s'
    ∧ Rep zero s' t
    ∧ root s' = root s ∧ nil_ s' = nil_ s
    ∧ ∀ a, a < next s → heap s' !! a = heap s !! a.
Proof.
  intros Hcmp HR Hs Hu Hvu.
  pose proof (ins_path_none compare Hcmp v u t [] Hs Hu Hvu) as Hpath.
  destruct (Insert_dup compare zero s t v HR Hpath) as (Hrun & HR').
  eexists. split; [exact Hrun|]. split_and!; [done|done|done|].
  intros a Ha. cbn [heap]. apply lookup_insert_ne. lia.
Qed.

Lemma Insert_duplicate_panics_witness :
  ∃ s', Insert cmp_Compare 3%Z example_state = Fault (Panic "duplicate value") s'
    ∧ Rep 0%Z s' example_tree
    ∧ root s' = root example_state ∧ nil_ s' = nil_ example_state
    ∧ ∀ a, a < next example_state → heap s' !! a = heap example_state !! a.
Proof.
  apply (Insert_duplicate_panics cmp_Compare 0%Z example_state example_tree 3%Z 3%Z).
  - exact cmp_Compare_comparator.
  - exact example_Rep.
  - exact example_sorted.
  - vm_compute. by repeat constructor.
  - reflexivity.
Defined.

(** ** In-order traversal *)

(** C3. For values that are pairwise different for the comparator and any
    two orders [vs], [vs'] of them: inserting them and then running
    [Iterate(InOrder)] with the collecting consumer returns in both cases
    the same sequence, which is ascending and holds exactly the values. *)
Theorem InOrder_ascending {T : Type} (compare : T → T → Z) (zero : T) (vs vs' : list T) :
  comparator compare → distinct compare vs → vs ≡ₚ vs' →
  ∃ out s s',
    (run compare (map OpInsert vs) ≫= λ _, Iterate collect InOrder []) (New zero) = Ok out s
    ∧ (run compare (map OpInsert vs') ≫= λ _, Iterate collect InOrder []) (New zero) = Ok out s'
    ∧ sorted compare out ∧ out ≡ₚ vs.
Proof.
  intros Hcmp Hd Hp.
  assert (∀ ws, distinct compare ws → ∃ out s,
    (run compare (map OpInsert ws) ≫= λ _, Iterate collect InOrder []) (New zero) = Ok out s
    ∧ sorted compare out ∧ out ≡ₚ ws) as Hone.
  { intros ws Hws.
    destruct (history_Good compare Hcmp zero (map OpInsert ws))
      as (s & Hrun & t & m & HR & _ & _ & Hs & Hperm).
    { apply (inserts_valid compare); [done|]. intros ? ? _ Hu. by apply elem_of_nil in Hu. }
    exists (elems t), s. rewrite (bind_ok _ _ _ _ _ Hrun).
    rewrite (Iterate_InOrder_spec zero collect s t [] HR), visit_collect.
    split_and!; [done|done|]. rewrite Hperm. unfold model.
    rewrite (inserts_model compare). by rewrite app_nil_r. }
  destruct (Hone vs Hd) as (out & s & Hrun & Hs & Hperm).
  destruct (Hone vs' (distinct_Permutation compare Hcmp vs vs' Hp Hd))
    as (out' & s' & Hrun' & Hs' & Hperm').
  assert (out' = out) as ->.
  { apply (sorted_unique compare Hcmp); [done..|]. by rewrite Hperm', Hperm, Hp. }
  by exists out, s, s'.
Qed.

Lemma InOrder_ascending_witness :
  ∃ out s s',
    (run cmp_Compare (map OpInsert [4; 1; 3; 2]%Z) ≫= λ _, Iterate collect InOrder [])
      (New 0%Z) = Ok out s
    ∧ (run cmp_Compare (map OpInsert [2; 3; 4; 1]%Z) ≫= λ _, Iterate collect InOrder [])
        (New 0%Z) = Ok out s'
    ∧ sorted cmp_Compare out ∧ out ≡ₚ [4; 1; 3; 2]%Z.
Proof.
  apply (InOrder_ascending cmp_Compare 0%Z [4; 1; 3; 2]%Z [2; 3; 4; 1]%Z).
  - exact cmp_Compare_comparator.
  - vm_compute. repeat constructor; done.
  - apply (bool_decide_unpack _). vm_compute. exact I.
Defined.

(** C4. After [Insert] of 1 to 10 in ascending order, the four traversals
    yield the sequences of the specification. *)
Theorem iterate_one_to_ten_orders :
  iterate_one_to_ten InOrder = Some [1; 2; 3; 4; 5; 6; 7; 8; 9; 10]%Z
  ∧ iterate_one_to_ten PreOrder = Some [4; 2; 1; 3; 6; 5; 8; 7; 9; 10]%Z
  ∧ iterate_one_to_ten PostOrder = Some [1; 3; 2; 5; 7; 10; 9; 8; 6; 4]%Z
  ∧ iterate_one_to_ten LevelOrder = Some [4; 2; 6; 1; 3; 5; 8; 7; 9; 10]%Z.
Proof. repeat split; vm_compute; reflexivity. Qed.

(** ** Search *)

(** C5. After every history of calls, and for every value [v]: [Search]
    returns a pointer and [Has] returns whether that pointer is not null;
    when [v] has been inserted and not deleted since, the pointer is a node
    that holds [v]; when no value equal to [v] is left (never inserted, or
    deleted since), the pointer is null. *)
Theorem Search_after_history {T : Type} (compare : T → T → Z) (zero : T)
    (ops : list (op T)) (v : T) :
  comparator compare → valid_ops compare [] ops →
  ∃ s a, run compare ops (New zero) = Ok tt s
    ∧ Search compare v s = Ok a s
    ∧ Has compare v s = Ok (negb (a =? 0)) s
    ∧ (v ∈ model compare ops → a ≠ 0 ∧ ∃ n, heap s !! a = Some n ∧ Value n = v)
    ∧ (Forall (λ u, compare v u ≠ 0%Z) (model compare ops) → a = 0).
Proof.
  intros Hcmp Hv.
  destruct (history_Good compare Hcmp zero ops Hv) as (s & Hrun & t & m & HR & _ & _ & Hs & Hp).
  exists s, (found (find_path compare v t [])). split_and!.
  - done.
  - apply (Search_spec compare zero v s t HR).
  - apply (Has_spec compare zero v s t HR).
  - intros Hin. rewrite <- Hp in Hin.
    destruct (Search_present compare Hcmp zero v v s t HR Hs Hin)
      as (a & c & l & r & k & _ & HS & Ha & Hnode).
    { apply (compare_refl compare Hcmp). }
    rewrite (Search_spec compare zero v s t HR) in HS. injection HS as ->.
    split; [done|]. by eexists.
  - intros Hno. rewrite <- Hp, Forall_forall in Hno.
    by rewrite (find_path_none compare v t [] Hno).
Qed.

Lemma Search_after_history_witness :
  ∃ s a, run cmp_Compare [OpInsert 2; OpInsert 1; OpInsert 3; OpDelete 1]%Z (New 0%Z) = Ok tt s
    ∧ Search cmp_Compare 3%Z s = Ok a s
    ∧ Has cmp_Compare 3%Z s = Ok (negb (a =? 0)) s
    ∧ (3%Z ∈ model cmp_Compare [OpInsert 2; OpInsert 1; OpInsert 3; OpDelete 1]%Z →
       a ≠ 0 ∧ ∃ n, heap s !! a = Some n ∧ Value n = 3%Z)
    ∧ (Forall (λ u, cmp_Compare 3%Z u ≠ 0%Z)
         (model cmp_Compare [OpInsert 2; OpInsert 1; OpInsert 3; OpDelete 1]%Z) → a = 0).
Proof.
  apply (Search_after_history cmp_Compare 0%Z).
  - exact cmp_Compare_comparator.
  - vm_compute. repeat constructor; done.
Defined.

(** ** Deletion of what is not there *)

(** C6. In a tree that holds no value equal to [v], [Delete v] returns
    false and the state is the one before the call; [DeleteNode] of the
    null pointer returns false in every state; and [Delete v] is
    [DeleteNode] run on the result of [Search v]. *)
Theorem Delete_absent_unchanged {T : Type} (compare : T → T → Z) (zero : T)
    (s : @RBTree T) (t : @tree T) (v : T) :
  Rep zero s t → (∀ u, u ∈ elems t → compare v u ≠ 0%Z) →
  Delete compare v s = Ok false s
  ∧ (∀ s0 : @RBTree T, DeleteNode 0 s0 = Ok false s0)
  ∧ (∀ (w : T) (s0 : @RBTree T),
       Delete compare w s0 = (Search compare w ≫= DeleteNode) s0).
Proof.
  intros HR Hno. split_and!.
  - by destruct (Delete_absent compare zero v s t HR Hno).
  - done.
  - done.
Qed.

Lemma Delete_absent_unchanged_witness :
  Delete cmp_Compare 7%Z example_state = Ok false example_state
  ∧ (∀ s0 : @RBTree Z, DeleteNode 0 s0 = Ok false s0)
  ∧ (∀ (w : Z) (s0 : @RBTree Z),
       Delete cmp_Compare w s0 = (Search cmp_Compare w ≫= DeleteNode) s0).
Proof.
  apply (Delete_absent_unchanged cmp_Compare 0%Z example_state example_tree 7%Z).
  - exact example_Rep.
  - intros u Hu. vm_compute in Hu.
    repeat (apply elem_of_cons in Hu as [->|Hu]; [done|]). by apply elem_of_nil in Hu.
Defined.

(** ** Neighbours *)

(** C7. In a search tree: the null pointer has neither successor nor
    predecessor, and asking for them is no error; the node of the least
    value has no predecessor, the node of the greatest value no successor;
    and when [y] follows [x] in the order of the values, the successor of
    the node of [x] is the node of [y], whose predecessor is the node of
    [x]. *)
Theorem Successor_Predecessor_order {T : Type} (compare : T → T → Z) (zero : T)
    (s : @RBTree T) (t : @tree T) :
  comparator compare → Rep zero s t → sorted compare (elems t) →
  Successor 0 s = Ok 0 s ∧ Predecessor 0 s = Ok 0 s
  ∧ (∀ x, minimum compare (elems t) x →
       ∃ a, is_node s t a x ∧ Predecessor a s = Ok 0 s)
  ∧ (∀ x, maximum compare (elems t) x →
       ∃ a, is_node s t a x ∧ Successor a s = Ok 0 s)
  ∧ (∀ x y, adjacent compare (elems t) x y →
       ∃ a b, is_node s t a x ∧ is_node s t b y
         ∧ Successor a s = Ok b s ∧ Predecessor b s = Ok a s).
Proof.
  intros Hcmp HR Hs. split_and!; [done|done|..].
  - intros x Hx. by apply (Predecessor_minimum compare zero).
  - intros x Hx. by apply (Successor_maximum compare zero).
  - intros x y Hxy. by apply (Successor_Predecessor_adjacent compare Hcmp zero).
Qed.

Lemma Successor_Predecessor_order_witness :
  Successor 0 example_state = Ok 0 example_state
  ∧ Predecessor 0 example_state = Ok 0 example_state
  ∧ (∀ x, minimum cmp_Compare (elems example_tree) x →
       ∃ a, is_node example_state example_tree a x
         ∧ Predecessor a example_state = Ok 0 example_state)
  ∧ (∀ x, maximum cmp_Compare (elems example_tree) x →
       ∃ a, is_node example_state example_tree a x
         ∧ Successor a example_state = Ok 0 example_state)
  ∧ (∀ x y, adjacent cmp_Compare (elems example_tree) x y →
       ∃ a b, is_node example_state example_tree a x
         ∧ is_node example_state example_tree b y
         ∧ Successor a example_state = Ok b example_state
         ∧ Predecessor b example_state = Ok a example_state).
Proof.
  apply (Successor_Predecessor_order cmp_Compare 0%Z example_state example_tree).
  - exact cmp_Compare_comparator.
  - exact example_Rep.
  - exact example_sorted.
Defined.

(** ** Rotations on a missing child *)

(** C8. [rotateLeft] on a node whose right child is the sentinel panics
    with "is this possible?" and writes nothing.  [rotateRight] on a node
    whose left child is the sentinel does not: its guard lets the sentinel
    through, the left pointer of the node becomes null, the right pointer
    of the sentinel becomes the node, and the run ends on a null
    dereference. *)
Theorem rotation_guards {T : Type} (zero : T) (s : @RBTree T) (a : nat) (c : color)
    (l r : @tree T) (v : T) (k : list (@frame T)) :
  (Rep zero s (plug (N a c l v E) k) →
     rotateLeft a s = Fault (Panic "is this possible?") s)
  ∧ (Rep zero s (plug (N a c E v r) k) →
     ∃ sp, heap s !! nil_ s = Some (mkNode black sp 0 0 zero)
       ∧ rotateRight a s
         = Fault NilDeref
             (upd (upd s a (mkNode c (top k) 0 (ptr (nil_ s) r) v))
                  (nil_ s) (mkNode black sp 0 a zero))).
Proof.
  split.
  - apply rotateLeft_guard.
  - apply rotateRight_guard.
Qed.

Lemma rotation_guards_witness :
  rotateLeft 3 example_state = Fault (Panic "is this possible?") example_state
  ∧ ∃ sp, heap example_state !! nil_ example_state = Some (mkNode black sp 0 0 0%Z)
      ∧ rotateRight 3 example_state
        = Fault NilDeref
            (upd (upd example_state 3 (mkNode red 2 0 (nil_ example_state) 1%Z))
                 (nil_ example_state) (mkNode black sp 0 3 0%Z)).
Proof.
  destruct (rotation_guards 0%Z example_state 3 red E E 1%Z
              [FL 2 black 2%Z (N 4 red E 3%Z E)]) as [Hl Hr].
  split; [apply Hl|apply Hr]; exact example_Rep.
Defined.

(** ** Round trip *)

(** C9. For values that are pairwise different for the comparator,
    inserting them in any order and then deleting them in any order gives
    the empty tree: the root is the sentinel. *)
Theorem Insert_Delete_round_trip {T : Type} (compare : T → T → Z) (zero : T)
    (vs ds : list T) :
  comparator compare → distinct compare vs → ds ≡ₚ vs →
  ∃ s, run compare (map OpInsert vs ++ map OpDelete ds) (New zero) = Ok tt s
    ∧ root s = nil_ s ∧ Rep zero s E.
Proof.
  intros Hcmp Hd Hp.
  destruct (history_Good compare Hcmp zero (map OpInsert vs ++ map OpDelete ds))
    as (s & Hrun & t & m & HR & _ & _ & _ & Hperm).
  { apply valid_ops_app. split.
    - apply (inserts_valid compare); [done|]. intros ? ? _ Hu. by apply elem_of_nil in Hu.
    - apply deletes_valid. }
  exists s. split; [done|].
  unfold model in Hperm. rewrite fold_left_app in Hperm.
  rewrite (deletes_model compare Hcmp) in Hperm.
  - apply Permutation_nil_r in Hperm.
    destruct t as [|a c l x r]; [|simpl in Hperm; by destruct (elems l)].
    split; [|done]. by rewrite (rep_root _ _ _ HR).
  - intros x Hx. rewrite (inserts_model compare), app_nil_r in Hx. by rewrite Hp.
Qed.

Lemma Insert_Delete_round_trip_witness :
  ∃ s, run cmp_Compare (map OpInsert [5; 2; 8; 1; 9; 3]%Z ++ map OpDelete [9; 5; 1; 3; 8; 2]%Z)
         (New 0%Z) = Ok tt s
    ∧ root s = nil_ s ∧ Rep 0%Z s E.
Proof.
  apply (Insert_Delete_round_trip cmp_Compare 0%Z).
  - exact cmp_Compare_comparator.
  - vm_compute. repeat constructor; done.
  - apply (bool_decide_unpack _). vm_compute. exact I.
Defined.

(** ** The result of [DeleteNode] *)

(** C10, as stated: [DeleteNode] returns true for every pointer that is
    not null.  It does not: on a node that belongs to no tree, here one
    with null children, the descent to the minimum dereferences the null
    pointer. *)
Lemma DeleteNode_foreign_node_faults :
  DeleteNode 2 foreign_state = Fault NilDeref foreign_state
  ∧ ¬ (∀ (s : @RBTree Z) (a : nat),
         a ≠ 0 → is_Some (heap s !! a) → ∃ s', DeleteNode a s = Ok true s').
Proof.
  assert (DeleteNode 2 foreign_state = Fault NilDeref foreign_state) as Hrun
    by (vm_compute; reflexivity).
  split; [done|]. intros H.
  destruct (H foreign_state 2) as (s' & Hs'); [done|by eexists|].
  rewrite Hrun in Hs'. discriminate.
Qed.

(** A node that [Delete] has unlinked is not in the tree any more;
    [DeleteNode] still takes it and returns true: here the node of 2,
    at address 3, after [Insert(1); Insert(2); Delete(2)]. *)
Lemma DeleteNode_stale_node :
  ∃ s s', run cmp_Compare [OpInsert 1; OpInsert 2; OpDelete 2]%Z (New 0%Z) = Ok tt s
    ∧ Search cmp_Compare 2%Z s = Ok 0 s
    ∧ DeleteNode 3 s = Ok true s'.
Proof. eexists _, _. split_and!; vm_compute; reflexivity. Qed.

(** C10, amended: [DeleteNode] never returns false for a pointer that is
    not null, and it looks for no membership: whenever it returns, it
    returns true; it does return for every node of a red-black tree; and
    false is what it returns for the null pointer. *)
Theorem DeleteNode_true_unless_null {T : Type} (zero : T) (s : @RBTree T) (a : nat) :
  a ≠ 0 →
  (∀ b s', DeleteNode a s = Ok b s' → b = true)
  ∧ (∀ t m, Rep zero s t → rbt t m → color_of t = black → a ∈ addrs t →
       ∃ s', DeleteNode a s = Ok true s')
  ∧ DeleteNode 0 s = Ok false s.
Proof.
  intros Ha. split_and!.
  - intros b s'. by apply DeleteNode_not_false.
  - intros t m. apply DeleteNode_member.
  - done.
Qed.

Lemma DeleteNode_true_unless_null_witness :
  (∀ b s', DeleteNode 3 example_state = Ok b s' → b = true)
  ∧ (∀ t m, Rep 0%Z example_state t → rbt t m → color_of t = black → 3 ∈ addrs t →
       ∃ s', DeleteNode 3 example_state = Ok true s')
  ∧ DeleteNode 0 example_state = Ok false example_state.
Proof.
  apply (DeleteNode_true_unless_null 0%Z example_state 3). lia.
Defined.

(** * More about the methods *)

(** ** Handles: the node [Insert] returns *)

Section Handles.
Context {T : Type}.
Variable compare : T → T → Z.
Hypothesis Hcmp : comparator compare.
Variable zero : T.
Implicit Types (s : @RBTree T) (t : @tree T) (present : list T) (v u x : T).
Local Abbreviation Rep := (Rep zero).
Local Abbreviation Good := (Good compare zero).
Local Abbreviation sorted := (sorted compare).

(** [Insert] of a new value: the node it returns is new, and it sits in
    the tree where the value sits in the order. *)
Lemma Insert_Good_node v s present :
  Good s present → Forall (λ u, compare v u ≠ 0%Z) present →
  ∃ s' t' m', Insert compare v s = Ok (next s) s'
    ∧ Rep s' t' ∧ rbt t' m' ∧ color_of t' = black
    ∧ sorted (elems t') ∧ elems t' ≡ₚ v :: present
    ∧ heap s !! next s = None
    ∧ ∃ i, addrs t' !! i = Some (next s) ∧ elems t' !! i = Some v.
Proof.
  intros (t & m & HR & Hrb & Hc & Hs & Hp) Hno.
  destruct (ins_path_some compare v t []) as (k' & Hpath).
  { intros u Hu. rewrite Forall_forall in Hno. apply Hno. by rewrite <- Hp. }
  destruct (Insert_ok compare zero s t v k' m HR Hrb Hc Hpath)
    as (s' & t' & Hrun & HR' & (m' & Hrb') & Hc' & He & Ha & _).
  destruct (ins_path_sorted compare Hcmp v t k' Hpath Hs) as (Hs' & Hp').
  exists s', t', m'. rewrite He. split_and!; try done.
  - by rewrite Hp', Hp.
  - by apply (rep_next _ _ _ HR).
  - exists (length (kaddrs_l k')). split.
    + rewrite Ha. by apply list_lookup_middle.
    + rewrite <- He, He. apply list_lookup_middle. by rewrite length_kaddrs_kelems_l.
Qed.

(** [Search] finds the node at the position of the value. *)
Lemma Search_at s t i a v :
  Rep s t → sorted (elems t) → addrs t !! i = Some a → elems t !! i = Some v →
  Search compare v s = Ok a s.
Proof.
  intros HR Hs Ha Hv.
  destruct (Search_present compare Hcmp zero v v s t HR Hs)
    as (a' & c & l & r & k & Heq & HS & _).
  { by eapply list_elem_of_lookup_2. }
  { apply (compare_refl compare Hcmp). }
  rewrite HS. do 2 f_equal. subst t.
  set (j := length (kaddrs_l k ++ addrs l)).
  assert (Hj : addrs (plug (N a' c l v r) k) !! j = Some a').
  { rewrite addrs_focus. by apply list_lookup_middle. }
  assert (Hjv : elems (plug (N a' c l v r) k) !! j = Some v).
  { rewrite elems_focus. apply list_lookup_middle. unfold j.
    by rewrite !length_app, length_kaddrs_kelems_l, length_addrs_elems. }
  destruct (decide (i = j)) as [->|Hij]; [congruence|].
  destruct (sorted_distinct compare Hcmp _ i j v v Hs Hij Hv Hjv).
  apply (compare_refl compare Hcmp).
Qed.

(** [DeleteNode] of the node at a position takes the value at that
    position out. *)
Lemma DeleteNode_at s t m i a x present :
  Rep s t → rbt t m → color_of t = black → sorted (elems t) →
  addrs t !! i = Some a → elems t !! i = Some x → elems t ≡ₚ x :: present →
  ∃ s', DeleteNode a s = Ok true s' ∧ Good s' present.
Proof.
  intros HR Hrb Hc Hs Ha Hx Hp.
  destruct (node_at zero s t i a HR Ha) as (c & l & v & r & k & -> & -> & Hv).
  assert (v = x) as -> by congruence.
  destruct (DeleteNode_spec zero s a c l x r k m HR Hrb Hc)
    as (s' & t' & Hrun & HR' & (m' & Hrb') & Hc' & He & _).
  exists s'. split; [done|]. exists t', m'.
  rewrite elems_focus in Hs, Hp.
  assert (He' : elems t' = (kelems_l k ++ elems l) ++ (elems r ++ kelems_r k)).
  { rewrite He. by rewrite <- !app_assoc. }
  rewrite He'. split_and!; try done.
  - by eapply sorted_remove.
  - apply (Permutation_cons_inv (a := x)). rewrite <- Hp. by rewrite Permutation_middle.
Qed.

End Handles.

(** ** [Has], by the values the tree holds *)

Section Membership.
Context {T : Type}.
Variable compare : T → T → Z.
Hypothesis Hcmp : comparator compare.
Variable zero : T.
Implicit Types (s : @RBTree T) (t : @tree T) (present : list T) (v u w : T).
Local Abbreviation Rep := (Rep zero).
Local Abbreviation Good := (Good compare zero).

Lemma Search_Good w s present :
  Good s present →
  ∃ a, Search compare w s = Ok a s
    ∧ Has compare w s = Ok (negb (a =? 0)) s
    ∧ (a ≠ 0 ↔ Exists (λ u, compare w u = 0%Z) present).
Proof.
  intros (t & m & HR & _ & _ & Hs & Hp).
  exists (found (find_path compare w t [])). split_and!.
  - apply (Search_spec compare zero w s t HR).
  - apply (Has_spec compare zero w s t HR).
  - rewrite <- Hp. split.
    + intros Hne. destruct (find_path compare w t []) as [[t' k']|] eqn:Hf; [|done].
      destruct (find_path_plug compare _ _ _ _ _ Hf) as (Hplug & a & c & l & u & r & -> & Hu).
      apply Exists_exists. exists u. split; [|done].
      rewrite plug_nil in Hplug. rewrite <- Hplug, elems_focus.
      apply elem_of_app. right. by left.
    + intros (u & Hu & Hwu)%Exists_exists.
      destruct (Search_present compare Hcmp zero w u s t HR Hs Hu Hwu)
        as (a & c & l & r & k & _ & HS & Ha & _).
      rewrite (Search_spec compare zero w s t HR) in HS. by injection HS as ->.
Qed.

End Membership.

(** ** The height of a red-black tree *)

Section Balance.
Context {T : Type}.
Implicit Types (t l r : @tree T).

Lemma rbt_height t n :
  rbt t n → height t ≤ 2 * n + match color_of t with red => 1 | black => 0 end.
Proof.
  revert n. induction t as [|a c l IHl v r IHr]; intros n; simpl.
  { intros ->. lia. }
  destruct c.
  - destruct n as [|n]; [done|]. intros (Hl & Hr).
    specialize (IHl n Hl). specialize (IHr n Hr).
    destruct (color_of l), (color_of r); lia.
  - intros (Hcl & Hcr & Hl & Hr).
    specialize (IHl n Hl). specialize (IHr n Hr). rewrite Hcl in IHl. rewrite Hcr in IHr. lia.
Qed.

Lemma rbt_size t n : rbt t n → 2 ^ n ≤ length (elems t) + 1.
Proof.
  revert n. induction t as [|a c l IHl v r IHr]; intros n; simpl.
  { intros ->. simpl. lia. }
  rewrite length_app. simpl. destruct c.
  - destruct n as [|n]; [done|]. intros (Hl & Hr).
    specialize (IHl n Hl). specialize (IHr n Hr). rewrite Nat.pow_succ_r'. lia.
  - intros (_ & _ & Hl & Hr). specialize (IHl n Hl). specialize (IHr n Hr). lia.
Qed.

(** With a black root the height is at most twice the logarithm of the
    number of values. *)
Lemma rbt_balanced t n :
  rbt t n → color_of t = black → height t ≤ 2 * Nat.log2 (length (elems t) + 1).
Proof.
  intros Hrb Hc. pose proof (rbt_height t n Hrb) as Hh. rewrite Hc in Hh.
  pose proof (rbt_size t n Hrb) as Hs.
  assert (n ≤ Nat.log2 (length (elems t) + 1)); [|lia].
  rewrite <- (Nat.log2_pow2 n) by lia. by apply Nat.log2_le_mono.
Qed.

End Balance.

(** ** What the methods leave as it is *)

Create HintDb keeps discriminated.

Section Keeps.
Context {T : Type}.
Context (R : relation (@RBTree T)) `{!RelationClasses.PreOrder R}.
Implicit Types (s : @RBTree T).

Lemma keeps_ret {A} (a : A) : keeps R (ret a).
Proof. intros s. reflexivity. Qed.

Lemma keeps_fail {A} f : keeps R (@fail T A f).
Proof. intros s. reflexivity. Qed.

Lemma keeps_bind {A B} (m : M A) (f : A → M B) :
  keeps R m → (∀ a, keeps R (f a)) → keeps R (m ≫= f).
Proof.
  intros Hm Hf s. specialize (Hm s). unfold mbind, M_bind, bind.
  destruct (m s) as [a s1|e s1]; simpl in *; [|done].
  etrans; [exact Hm|apply Hf].
Qed.

Lemma keeps_load p : keeps R (@load T p).
Proof. intros s. unfold load. destruct (heap s !! p); simpl; reflexivity. Qed.

Lemma keeps_get_nil : keeps R (@get_nil T).
Proof. intros s. reflexivity. Qed.

Lemma keeps_get_root : keeps R (@get_root T).
Proof. intros s. reflexivity. Qed.

Lemma keeps_get_fuel : keeps R (@get_fuel T).
Proof. intros s. reflexivity. Qed.

Lemma keeps_get_color p : keeps R (@get_color T p).
Proof. apply keeps_bind; [apply keeps_load|intros; apply keeps_ret]. Qed.

Lemma keeps_get_parent p : keeps R (@get_parent T p).
Proof. apply keeps_bind; [apply keeps_load|intros; apply keeps_ret]. Qed.

Lemma keeps_get_left p : keeps R (@get_left T p).
Proof. apply keeps_bind; [apply keeps_load|intros; apply keeps_ret]. Qed.

Lemma keeps_get_right p : keeps R (@get_right T p).
Proof. apply keeps_bind; [apply keeps_load|intros; apply keeps_ret]. Qed.

Lemma keeps_get_Value p : keeps R (@get_Value T p).
Proof. apply keeps_bind; [apply keeps_load|intros; apply keeps_ret]. Qed.

Lemma keeps_getColor p : keeps R (@getColor T p).
Proof. unfold getColor. destruct (p =? 0); [apply keeps_ret|apply keeps_get_color]. Qed.

End Keeps.

#[export] Hint Resolve keeps_ret keeps_fail keeps_get_nil keeps_get_root keeps_get_fuel
  keeps_get_color keeps_get_parent keeps_get_left keeps_get_right keeps_get_Value
  keeps_getColor : keeps.

(** [keeps_go]: a program is followed along its binds, tests and case
    distinctions; what is left are its steps, looked up among the hints. *)
Ltac keeps_step :=
  lazymatch goal with
  | |- keeps ?R (_ ≫= _) => apply (keeps_bind R); [|intros ?]
  | |- keeps _ (if ?b then _ else _) => destruct b
  | |- keeps _ (match ?c with black => _ | red => _ end) => destruct c
  | |- keeps _ (match ?o with Some _ => _ | None => _ end) => destruct o
  | |- keeps _ (match ?l with [] => _ | _ :: _ => _ end) => destruct l
  | |- keeps _ (let '(_, _) := ?p in _) => destruct p
  | |- keeps _ _ => solve [auto with keeps typeclass_instances]
  end.

Ltac keeps_go := cbn zeta; repeat keeps_step.

(** *** The methods that only read *)

Section ReadOnly.
Context {T : Type}.
Variable compare : T → T → Z.
Context (R : relation (@RBTree T)) `{!RelationClasses.PreOrder R}.

Lemma keeps_Search_loop fuel : ∀ v cur, keeps R (Search_loop compare fuel v cur).
Proof.
  induction fuel as [|fuel IH]; intros v cur; cbn [Search_loop]; keeps_go.
Qed.

Lemma keeps_Search v : keeps R (Search compare v).
Proof. unfold Search. pose proof keeps_Search_loop. keeps_go. Qed.


Lemma keeps_leftmost fuel : ∀ a, keeps R (@leftmost T fuel a).
Proof. induction fuel as [|fuel IH]; intros a; cbn [leftmost]; keeps_go. Qed.






Section Iterators.
Context {C : Type}.
Variable yield : T → C → bool * C.







End Iterators.

End ReadOnly.

(** *** The methods that write *)

Section Writers.
Context {T : Type}.
Implicit Types (s : @RBTree T).

#[export] Instance same_values_PreOrder : RelationClasses.PreOrder (@same_values T).
Proof.
  split.
  - intros s Hwa. split; [done|]. split; [done|]. intros a n Ha. by exists n.
  - intros s1 s2 s3 H12 H23 Hwa.
    destruct (H12 Hwa) as (Hwa2 & Hle2 & Hv2).
    destruct (H23 Hwa2) as (Hwa3 & Hle3 & Hv3).
    split; [done|]. split; [lia|]. intros a n Ha.
    destruct (Hv2 a n Ha) as (n2 & Ha2 & E2).
    destruct (Hv3 a n2 Ha2) as (n3 & Ha3 & E3).
    exists n3. split; [done|congruence].
Qed.

Lemma keeps_store_loaded p (g : @Node T → @Node T) :
  (∀ n, Value (g n) = Value n) →
  keeps same_values (n ← load p; store p (g n)).
Proof.
  intros Hg s. unfold mbind, M_bind, bind, load, store.
  destruct (heap s !! p) as [n|] eqn:Hp; simpl; [|reflexivity].
  intros Hwa. split; [|split; [done|]]; simpl.
  - intros a Ha. simpl in *. rewrite lookup_insert_ne; [by apply Hwa|].
    intros ->. rewrite (Hwa a Ha) in Hp. done.
  - intros a m Ha. simpl. destruct (decide (p = a)) as [->|Hne].
    + rewrite lookup_insert_eq. exists (g n). split; [done|]. rewrite Hg. congruence.
    + rewrite lookup_insert_ne by done. by exists m.
Qed.

Lemma keeps_set_color p c : keeps same_values (@set_color T p c).
Proof. by apply (keeps_store_loaded p (λ n, mkNode c (parent n) (left n) (right n) (Value n))). Qed.

Lemma keeps_set_parent p q : keeps same_values (@set_parent T p q).
Proof. by apply (keeps_store_loaded p (λ n, mkNode (ncolor n) q (left n) (right n) (Value n))). Qed.

Lemma keeps_set_left p q : keeps same_values (@set_left T p q).
Proof. by apply (keeps_store_loaded p (λ n, mkNode (ncolor n) (parent n) q (right n) (Value n))). Qed.

Lemma keeps_set_right p q : keeps same_values (@set_right T p q).
Proof. by apply (keeps_store_loaded p (λ n, mkNode (ncolor n) (parent n) (left n) q (Value n))). Qed.

Lemma keeps_set_root p : keeps same_values (@set_root T p).
Proof. intros s. simpl. intros Hwa. split; [done|]. split; [done|]. intros a n Ha. by exists n. Qed.

Lemma keeps_alloc n : keeps same_values (@alloc T n).
Proof.
  intros s. simpl. intros Hwa. split; [|split; [simpl; lia|]]; simpl.
  - intros a Ha. simpl in *. rewrite lookup_insert_ne by lia. apply Hwa. lia.
  - intros a m Ha. exists m. split; [|done]. simpl.
    rewrite lookup_insert_ne; [done|]. intros <-. rewrite (Hwa (next s)) in Ha; [done|lia].
Qed.

End Writers.

#[export] Hint Resolve keeps_set_color keeps_set_parent keeps_set_left keeps_set_right
  keeps_set_root keeps_alloc : keeps.

Section Mutators.
Context {T : Type}.
Variable compare : T → T → Z.

Lemma keeps_rotateLeft n : keeps same_values (@rotateLeft T n).
Proof. unfold rotateLeft. keeps_go. Qed.

Lemma keeps_rotateRight n : keeps same_values (@rotateRight T n).
Proof. unfold rotateRight. keeps_go. Qed.

Lemma keeps_transplant u v : keeps same_values (@transplant T u v).
Proof. unfold transplant. keeps_go. Qed.

Lemma keeps_insertFixup_loop fuel : ∀ check, keeps same_values (@insertFixup_loop T fuel check).
Proof.
  pose proof keeps_rotateLeft. pose proof keeps_rotateRight.
  induction fuel as [|fuel IH]; intros check; cbn [insertFixup_loop]; keeps_go.
Qed.

Lemma keeps_insertFixup check : keeps same_values (@insertFixup T check).
Proof. pose proof keeps_insertFixup_loop. unfold insertFixup. keeps_go. Qed.

Lemma keeps_Insert_loop fuel : ∀ v ins cur, keeps same_values (Insert_loop compare fuel v ins cur).
Proof. induction fuel as [|fuel IH]; intros v ins cur; cbn [Insert_loop]; keeps_go. Qed.

Lemma keeps_Insert v : keeps same_values (Insert compare v).
Proof.
  pose proof keeps_Insert_loop. pose proof keeps_insertFixup. unfold Insert. keeps_go.
Qed.

Lemma keeps_deleteFixup_loop fuel : ∀ n, keeps same_values (@deleteFixup_loop T fuel n).
Proof.
  pose proof keeps_rotateLeft. pose proof keeps_rotateRight.
  induction fuel as [|fuel IH]; intros n; cbn [deleteFixup_loop]; keeps_go.
Qed.

Lemma keeps_deleteFixup n : keeps same_values (@deleteFixup T n).
Proof. pose proof keeps_deleteFixup_loop. unfold deleteFixup. keeps_go. Qed.

Lemma keeps_DeleteNode n : keeps same_values (@DeleteNode T n).
Proof.
  pose proof keeps_transplant. pose proof keeps_deleteFixup.
  pose proof (keeps_leftmost (T:=T) same_values).
  unfold DeleteNode. keeps_go.
Qed.

Lemma keeps_Delete v : keeps same_values (Delete compare v).
Proof.
  pose proof keeps_DeleteNode. pose proof (keeps_Search compare same_values).
  unfold Delete. keeps_go.
Qed.

Lemma keeps_run ops : keeps same_values (run compare ops).
Proof.
  pose proof keeps_Insert. pose proof keeps_Delete.
  induction ops as [|[v|v] ops IH]; cbn [run run_op]; keeps_go.
Qed.

End Mutators.

(** ** The iterators that keep a row of subtrees *)

Section Rows.
Context {T : Type}.
Implicit Types (t l r u : @tree T) (us : list (@tree T)).

Lemma preorders_nonempty u : preorders (nonempty u) = preorder u.
Proof. destruct u; [done|]. unfold preorders. simpl. by rewrite app_nil_r. Qed.

Lemma preorders_app us us' : preorders (us ++ us') = preorders us ++ preorders us'.
Proof. unfold preorders. by rewrite map_app, concat_app. Qed.

Lemma sizes_nonempty u : sizes (nonempty u) = length (addrs u).
Proof. destruct u; [done|]. simpl. lia. Qed.

Lemma sizes_app us us' : sizes (us ++ us') = sizes us + sizes us'.
Proof. induction us as [|u us IH]; simpl; [done|]. rewrite IH. lia. Qed.

Lemma sizes_cons u us : sizes (u :: us) = length (addrs u) + sizes us.
Proof. done. Qed.

Lemma sizes_children u : sizes (children u) + 1 = length (addrs u) ∨ u = E.
Proof.
  destruct u as [|a c l v r]; [by right|left]. unfold children.
  rewrite sizes_app, !sizes_nonempty. simpl. rewrite length_app. simpl. lia.
Qed.

Lemma levels_app n us us' : levels n (us ++ us') = levels n us ++ levels n us'.
Proof. unfold levels. by rewrite map_app, concat_app. Qed.

Lemma levels_nonempty n u : levels n (nonempty u) = level n u.
Proof. destruct u; [done|]. unfold levels. simpl. by rewrite app_nil_r. Qed.

Lemma levels_0 us : Forall (λ u, u ≠ E) us → levels 0 us = root_values us.
Proof.
  induction 1 as [|u us Hu _ IH]; [done|].
  unfold levels, root_values in *. simpl. rewrite IH. by destruct u.
Qed.

Lemma levels_S n us : levels (S n) us = levels n (kids us).
Proof.
  induction us as [|u us IH]; [done|].
  unfold kids. simpl. fold (kids us). rewrite levels_app, <- IH.
  change (levels (S n) (u :: us)) with (level (S n) u ++ levels (S n) us).
  f_equal. destruct u as [|a c l v r]; [done|].
  unfold children. by rewrite levels_app, !levels_nonempty.
Qed.

Lemma heights_nonempty u : heights (nonempty u) = height u.
Proof. destruct u; [done|]. simpl. lia. Qed.

Lemma heights_app us us' : heights (us ++ us') = Nat.max (heights us) (heights us').
Proof. induction us as [|u us IH]; simpl; [done|]. rewrite IH. lia. Qed.

Lemma heights_kids us :
  Forall (λ u, u ≠ E) us → us ≠ [] → heights us = S (heights (kids us)).
Proof.
  induction 1 as [|u us Hu Hus IH]; [done|]. intros _.
  unfold kids. simpl. fold (kids us). rewrite heights_app.
  change (heights (u :: us)) with (Nat.max (height u) (heights us)).
  destruct u as [|a c l v r]; [done|]. unfold children.
  rewrite heights_app, !heights_nonempty. simpl.
  destruct us as [|u' us']; [simpl; lia|].
  rewrite IH by done. lia.
Qed.

(** The traversal by levels of a row: the roots, then the traversal of
    the row of their children. *)
Lemma levelorders_unfold us :
  Forall (λ u, u ≠ E) us → levelorders us = root_values us ++ levelorders (kids us).
Proof.
  intros Hus. destruct us as [|u us]; [done|].
  unfold levelorders at 1. rewrite (heights_kids (u :: us)) by done.
  rewrite <- cons_seq. cbn [map concat].
  rewrite levels_0 by done. f_equal.
  rewrite <- fmap_S_seq. unfold levelorders. f_equal.
  rewrite <- list_fmap_compose. apply list_fmap_ext. intros i n _. simpl.
  apply levels_S.
Qed.

Lemma levelorders_nonempty t : levelorders (nonempty t) = levelorder t.
Proof.
  unfold levelorders, levelorder. rewrite heights_nonempty. f_equal.
  apply list_fmap_ext. intros i n _. simpl. apply levels_nonempty.
Qed.

Lemma root_values_app us us' : root_values (us ++ us') = root_values us ++ root_values us'.
Proof. unfold root_values. by rewrite map_app, concat_app. Qed.

Lemma kids_app us us' : kids (us ++ us') = kids us ++ kids us'.
Proof. unfold kids. by rewrite map_app, concat_app. Qed.

Lemma nonempty_ne u : Forall (λ u, u ≠ E) (nonempty u).
Proof. destruct u; [constructor|]. by repeat constructor. Qed.

Lemma children_ne u : Forall (λ u, u ≠ E) (children u).
Proof. destruct u; [constructor|]. apply Forall_app. split; apply nonempty_ne. Qed.

End Rows.

Section Located.
Context {T : Type}.
Variable zero : T.
Implicit Types (s : @RBTree T) (t l r u : @tree T) (us : list (@tree T)).
Local Abbreviation located := (located zero).

Lemma located_root s t : Rep zero s t → located s t.
Proof. intros HR. by exists []. Qed.

Lemma located_node s a c l v r :
  located s (N a c l v r) →
  (∃ par, heap s !! a = Some (mkNode c par (ptr (nil_ s) l) (ptr (nil_ s) r) v))
  ∧ located s l ∧ located s r.
Proof.
  intros [k HR]. split_and!.
  - eexists. by apply (Rep_lookup zero s a c l v r k).
  - by exists (FL a c v r :: k).
  - by exists (FR a c l v :: k).
Qed.

Lemma located_ptr s u :
  located s u → (ptr (nil_ s) u =? nil_ s) = match u with E => true | N _ _ _ _ _ => false end.
Proof.
  intros [k HR]. destruct u as [|a c l v r]; simpl; [apply Nat.eqb_refl|].
  apply Nat.eqb_neq. pose proof (Rep_footprint zero _ _ _ HR) as HND.
  apply NoDup_cons in HND as [Hnil _]. intros ->. apply Hnil.
  apply elem_of_cons. right. apply elem_of_app. left. simpl.
  apply elem_of_app. right. by left.
Qed.

(** Pushing a child that is not the sentinel. *)
Lemma push_child s u (st : list nat) :
  located s u →
  (if negb (ptr (nil_ s) u =? nil_ s) then st ++ [ptr (nil_ s) u] else st)
  = st ++ map (ptr (nil_ s)) (nonempty u).
Proof.
  intros Hu. rewrite (located_ptr s u Hu). destruct u; simpl; [by rewrite app_nil_r|done].
Qed.

Lemma located_nonempty s u :
  located s u → Forall (λ u, u ≠ E ∧ located s u) (nonempty u).
Proof. intros Hu. destruct u; [constructor|]. by repeat constructor. Qed.

Lemma located_children s u :
  located s u → Forall (λ u, u ≠ E ∧ located s u) (children u).
Proof.
  intros Hu. destruct u as [|a c l v r]; [constructor|].
  destruct (located_node s a c l v r Hu) as (_ & Hl & Hr).
  apply Forall_app. split; by apply located_nonempty.
Qed.

End Located.

Section PreOrder.
Context {T C : Type}.
Variable zero : T.
Variable yield : T → C → bool * C.
Implicit Types (s : @RBTree T) (t l r u : @tree T) (us : list (@tree T)) (c : C).
Local Abbreviation located := (located zero).
Local Abbreviation visit := (visit yield).

(** The loop of the pre-order iterator: the stack holds the roots of a
    row of subtrees, the next one on top. *)
Lemma preOrder_loop_spec : ∀ fuel us s c,
  Forall (λ u, u ≠ E ∧ located s u) us → sizes us < fuel →
  preOrder_loop yield fuel (reverse (map (ptr (nil_ s)) us)) c s
  = Ok (visit (preorders us) c) s.
Proof.
  induction fuel as [|fuel IH]; intros us s c Hus Hfuel; [lia|].
  cbn [preOrder_loop]. destruct us as [|u us]; [done|].
  apply Forall_cons in Hus as [[Hne Hu] Hus].
  destruct u as [|a co l v r]; [done|].
  destruct (located_node zero s a co l v r Hu) as ([par Ha] & Hl & Hr).
  cbn [map ptr]. rewrite reverse_cons, last_snoc, removelast_last.
  rewrite (bind_ok _ _ _ _ _ (get_Value_ok _ _ _ Ha)). cbn [Value].
  change (preorders (N a co l v r :: us)) with (v :: (preorder l ++ preorder r) ++ preorders us).
  cbn [visit]. destruct (yield v c) as [[] c']; [|done].
  change ((get_nil ≫= ?f) s) with (f (nil_ s) s). cbn beta.
  rewrite (bind_ok _ _ _ _ _ (get_right_ok _ _ _ Ha)). cbn [right].
  rewrite (bind_ok _ _ _ _ _ (get_left_ok _ _ _ Ha)). cbn [left].
  rewrite (push_child zero s r _ Hr), (push_child zero s l _ Hl).
  assert (Hst : (reverse (map (ptr (nil_ s)) us) ++ map (ptr (nil_ s)) (nonempty r))
                  ++ map (ptr (nil_ s)) (nonempty l)
                = reverse (map (ptr (nil_ s)) (nonempty l ++ nonempty r ++ us))).
  { rewrite !map_app, !reverse_app, <- !app_assoc.
    by destruct l, r. }
  rewrite Hst, IH.
  - by rewrite !preorders_app, !preorders_nonempty, app_assoc.
  - apply Forall_app. split; [by apply located_nonempty|].
    apply Forall_app. split; [by apply located_nonempty|done].
  - rewrite !sizes_app, !sizes_nonempty. rewrite sizes_cons in Hfuel.
    simpl in Hfuel. rewrite length_app in Hfuel. simpl in Hfuel. lia.
Qed.

Lemma preOrderIter_spec s t c :
  Rep zero s t → preOrderIter yield c s = Ok (visit (preorder t) c) s.
Proof.
  intros HR. unfold preOrderIter.
  change ((get_root ≫= ?f) s) with (f (root s) s). cbn beta.
  change ((get_nil ≫= ?f) s) with (f (nil_ s) s). cbn beta.
  rewrite (rep_root _ _ _ HR), (located_ptr zero s t (located_root zero s t HR)).
  destruct t as [|a co l v r]; [done|].
  change ((get_fuel ≫= ?f) s) with (f (next s) s). cbn beta.
  pose proof (preOrder_loop_spec (next s) [N a co l v r] s c) as H.
  unfold preorders in H. cbn [map concat] in H. rewrite app_nil_r in H.
  apply H.
  - repeat constructor; [done|]. by apply located_root.
  - pose proof (Rep_size _ _ _ HR). simpl in *. lia.
Qed.

End PreOrder.

Section LevelOrder.
Context {T C : Type}.
Variable zero : T.
Variable yield : T → C → bool * C.
Implicit Types (s : @RBTree T) (t l r u : @tree T) (us : list (@tree T)) (c : C).
Local Abbreviation located := (located zero).
Local Abbreviation visit := (visit yield).

(** The loop of the level-order iterator: the queue holds what is left of
    one level and, behind it, the children of the nodes of that level
    that have been visited. *)
Lemma levelOrder_loop_spec : ∀ fuel us us' s c,
  Forall (λ u, u ≠ E ∧ located s u) (us ++ us') → sizes (us ++ us') < fuel →
  levelOrder_loop yield fuel (map (ptr (nil_ s)) (us ++ us')) c s
  = Ok (visit (root_values us ++ levelorders (us' ++ kids us)) c) s.
Proof.
  induction fuel as [|fuel IH]; intros us us' s c Hus Hfuel; [lia|].
  (* a level that is used up is replaced by the next one *)
  assert (Hne : Forall (λ u, u ≠ E) (us ++ us')).
  { eapply Forall_impl; [exact Hus|]. by intros ? [? _]. }
  assert ((∃ u vs vs', us ++ us' = u :: vs ++ vs'
            ∧ root_values us ++ levelorders (us' ++ kids us)
              = root_value u ++ root_values vs ++ levelorders ((vs' ++ children u) ++ kids vs))
          ∨ (us ++ us' = [] ∧ root_values us ++ levelorders (us' ++ kids us) = []))
    as [(u & vs & vs' & Heq & Hout)|[Heq Hout]].
  { destruct us as [|u us].
    - destruct us' as [|u us'].
      + by right.
      + left. exists u, us', []. split; [by rewrite app_nil_r|].
        cbn [app]. unfold kids at 1. cbn [map concat]. rewrite app_nil_r.
        rewrite levelorders_unfold by done.
        change (root_values (u :: us')) with (root_value u ++ root_values us').
        by rewrite <- app_assoc.
    - left. exists u, us, us'. split; [done|].
      change (root_values (u :: us)) with (root_value u ++ root_values us).
      change (kids (u :: us)) with (children u ++ kids us).
      by rewrite <- !app_assoc. }
  - rewrite Heq in Hus, Hfuel |- *. rewrite Hout. clear Heq Hout Hne us us'.
    cbn [levelOrder_loop map].
    apply Forall_cons in Hus as [[Hne Hu] Hus].
    destruct u as [|a co l v r]; [done|].
    destruct (located_node zero s a co l v r Hu) as ([par Ha] & Hl & Hr).
    cbn [ptr]. rewrite (bind_ok _ _ _ _ _ (get_Value_ok _ _ _ Ha)). cbn [Value].
    cbn [root_value app visit]. destruct (yield v c) as [[] c']; [|done].
    change ((get_nil ≫= ?f) s) with (f (nil_ s) s). cbn beta.
    rewrite (bind_ok _ _ _ _ _ (get_left_ok _ _ _ Ha)). cbn [left].
    rewrite (bind_ok _ _ _ _ _ (get_right_ok _ _ _ Ha)). cbn [right].
    rewrite (push_child zero s l _ Hl), (push_child zero s r _ Hr).
    rewrite <- !map_app, <- !app_assoc.
    change (nonempty l ++ nonempty r) with (children (N a co l v r)).
    rewrite (app_assoc vs' (children _)).
    apply IH.
    + apply Forall_app in Hus as [H1 H2].
      apply Forall_app. split; [done|]. apply Forall_app. split; [done|].
      by apply located_children.
    + rewrite sizes_cons, sizes_app in Hfuel. rewrite !sizes_app.
      destruct (sizes_children (N a co l v r)) as [H|H]; [|done]. lia.
  - rewrite Heq, Hout. done.
Qed.

Lemma levelOrderIter_spec s t c :
  Rep zero s t → levelOrderIter yield c s = Ok (visit (levelorder t) c) s.
Proof.
  intros HR. unfold levelOrderIter.
  change ((get_root ≫= ?f) s) with (f (root s) s). cbn beta.
  change ((get_nil ≫= ?f) s) with (f (nil_ s) s). cbn beta.
  rewrite (rep_root _ _ _ HR), (located_ptr zero s t (located_root zero s t HR)).
  destruct t as [|a co l v r]; [done|].
  change ((get_fuel ≫= ?f) s) with (f (next s) s). cbn beta.
  pose proof (levelOrder_loop_spec (next s) [] [N a co l v r] s c) as H.
  cbn [app root_values kids map concat] in H.
  rewrite <- levelorders_nonempty. cbn [nonempty]. apply H.
  - repeat constructor; [done|]. by apply located_root.
  - pose proof (Rep_size _ _ _ HR). simpl in *. lia.
Qed.

End LevelOrder.

(** ** The post-order iterator *)

Section PostOrder.
Context {T C : Type}.
Variable zero : T.
Variable yield : T → C → bool * C.
Implicit Types (s : @RBTree T) (t l r u : @tree T) (k : list (@frame T)) (c : C).
Local Abbreviation Rep := (Rep zero).
Local Abbreviation visit := (visit yield).

Lemma pending_kaddrs k a : a ∈ pending k → a ∈ kaddrs k.
Proof.
  unfold kaddrs. induction k as [|[p pc pv r|p pc l pv] k IH]; simpl; intros Ha.
  - done.
  - apply elem_of_app. apply elem_of_cons in Ha as [->|Ha]; [right; by left|].
    apply elem_of_app in Ha as [Ha|Ha].
    + right. right. apply elem_of_app. by left.
    + apply IH, elem_of_app in Ha as [Ha|Ha]; [by left|].
      right. right. apply elem_of_app. by right.
  - apply elem_of_app. apply elem_of_cons in Ha as [->|Ha].
    + left. rewrite !elem_of_app. right. right. by left.
    + apply IH, elem_of_app in Ha as [Ha|Ha]; [|by right].
      left. apply elem_of_app. by left.
Qed.

Lemma postOrder_loop_spec : ∀ fuel,
  (∀ u k s lv c,
     Rep s (plug u k) → left_behind u k lv → rounds k < fuel →
     postOrder_loop yield fuel (nil_ s) (reverse (map faddr k)) lv c s
     = Ok (visit (postorder_rest k) c) s)
  ∧ (∀ t k s lv c,
     Rep s (plug t k) → lv ∉ addrs t ++ pending k →
     3 * length (addrs t) + rounds k < fuel →
     postOrder_loop yield fuel (ptr (nil_ s) t) (reverse (map faddr k)) lv c s
     = Ok (visit (postorder t ++ postorder_rest k) c) s).
Proof.
  induction fuel as [|fuel [IHB IHA]]; [split; intros; lia|].
  assert (HB : ∀ u k s lv c,
     Rep s (plug u k) → left_behind u k lv → rounds k < S fuel →
     postOrder_loop yield (S fuel) (nil_ s) (reverse (map faddr k)) lv c s
     = Ok (visit (postorder_rest k) c) s).
  { intros u k s lv c HR Hlv Hfuel. cbn [postOrder_loop].
    change ((get_nil ≫= ?f) s) with (f (nil_ s) s). cbn beta.
    rewrite Nat.eqb_refl. cbn [negb].
    destruct k as [|f k]; [done|].
    cbn [map]. rewrite reverse_cons, length_app. cbn [length].
    replace (0 <? length (reverse (map faddr k)) + 1) with true
      by (symmetry; apply Nat.ltb_lt; lia).
    cbn [orb]. rewrite last_snoc, removelast_last.
    pose proof (Rep_footprint zero _ _ _ HR) as HND.
    destruct f as [p pc pv r|p pc l pv]; cbn [faddr plug fill rounds postorder_rest] in *.
    - (* the left subtree is done *)
      pose proof (Rep_lookup zero s p pc u pv r k HR) as Hp.
      rewrite (bind_ok _ _ _ _ _ (get_right_ok _ _ _ Hp)). cbn [right].
      assert (Hr : located zero s r) by (by exists (FR p pc u pv :: k)).
      rewrite (located_ptr zero s r Hr).
      destruct r as [|b bc bl bv br].
      + cbn [negb andb]. rewrite (bind_ok _ _ _ _ _ (get_Value_ok _ _ _ Hp)). cbn [Value].
        cbn [postorder app visit]. destruct (yield pv c) as [[] c']; [|done].
        apply (IHB (N p pc u pv E) k); [done|done|simpl in Hfuel; lia].
      + cbn [negb andb ptr].
        assert (lv ∉ pending (FL p pc pv (N b bc bl bv br) :: k)) as Hlv'.
        { destruct u as [|ub uc ul uv ur]; simpl in Hlv; [done|]. subst lv.
          intros Hin%pending_kaddrs.
          apply NoDup_cons in HND as [_ HND]. apply NoDup_cons in HND as [_ HND].
          apply NoDup_app in HND as (_ & HND & _). apply (HND ub); [|done].
          simpl. apply elem_of_app. right. by left. }
        assert (lv ≠ b) as Hne.
        { intros ->. apply Hlv'. simpl. right. apply elem_of_app. left.
          apply elem_of_app. right. by left. }
        rewrite (proj2 (Nat.eqb_neq lv b) Hne). cbn [negb].
        change b with (ptr (nil_ s) (N b bc bl bv br)).
        change (reverse (map faddr k) ++ [p])
          with (reverse (map faddr k) ++ [faddr (FR p pc u pv)]).
        rewrite <- reverse_cons.
        change (faddr (FR p pc u pv) :: map faddr k) with (map faddr (FR p pc u pv :: k)).
        rewrite (IHA (N b bc bl bv br) (FR p pc u pv :: k) s lv c).
        * done.
        * done.
        * cbn [pending] in Hlv' |- *. intros Hin. apply Hlv'.
          repeat (rewrite elem_of_app in Hin || rewrite elem_of_cons in Hin).
          repeat (rewrite elem_of_app || rewrite elem_of_cons). tauto.
        * cbn [rounds]. lia.
    - (* the right subtree is done *)
      pose proof (Rep_lookup zero s p pc l pv u k HR) as Hp.
      rewrite (bind_ok _ _ _ _ _ (get_right_ok _ _ _ Hp)). cbn [right].
      assert (Hu : located zero s u) by (by exists (FR p pc l pv :: k)).
      rewrite (located_ptr zero s u Hu).
      assert ((match u with E => false | N _ _ _ _ _ => true end)
              && negb (lv =? ptr (nil_ s) u) = false) as Hcond.
      { destruct u as [|ub uc ul uv ur]; [done|]. simpl in Hlv. subst lv.
        simpl. by rewrite Nat.eqb_refl. }
      replace (negb match u with E => true | N _ _ _ _ _ => false end)
        with (match u with E => false | N _ _ _ _ _ => true end) by (by destruct u).
      rewrite Hcond.
      rewrite (bind_ok _ _ _ _ _ (get_Value_ok _ _ _ Hp)). cbn [Value].
      cbn [visit]. destruct (yield pv c) as [[] c']; [|done].
      apply (IHB (N p pc l pv u) k); [done|done|lia]. }
  split; [exact HB|].
  intros t k s lv c HR Hlv Hfuel.
  destruct t as [|a co l v r].
  - cbn [ptr postorder app]. apply (HB E k); [done| |simpl in Hfuel; lia].
    simpl in Hlv |- *. done.
  - cbn [postOrder_loop ptr].
    change ((get_nil ≫= ?f) s) with (f (nil_ s) s). cbn beta.
    assert (Ht : located zero s (N a co l v r)) by (by exists k).
    pose proof (located_ptr zero s _ Ht) as Hap. cbn [ptr] in Hap. rewrite Hap.
    cbn [negb]. rewrite orb_true_r.
    pose proof (Rep_lookup zero s a co l v r k HR) as Ha.
    rewrite (bind_ok _ _ _ _ _ (get_left_ok _ _ _ Ha)). cbn [left].
    change (reverse (map faddr k) ++ [a])
      with (reverse (map faddr k) ++ [faddr (FL a co v r)]).
    rewrite <- reverse_cons.
    change (faddr (FL a co v r) :: map faddr k) with (map faddr (FL a co v r :: k)).
    rewrite (IHA l (FL a co v r :: k) s lv c).
    + cbn [postorder postorder_rest]. by rewrite <- !app_assoc.
    + done.
    + cbn [pending addrs] in Hlv |- *. intros Hin. apply Hlv.
      repeat (rewrite elem_of_app in Hin || rewrite elem_of_cons in Hin).
      repeat (rewrite elem_of_app || rewrite elem_of_cons). tauto.
    + cbn [rounds addrs] in Hfuel |- *. rewrite length_app in Hfuel. simpl in Hfuel. lia.
Qed.

Lemma postOrderIter_spec s t c :
  Rep s t → postOrderIter yield c s = Ok (visit (postorder t) c) s.
Proof.
  intros HR. unfold postOrderIter.
  change ((get_root ≫= ?f) s) with (f (root s) s). cbn beta.
  change ((get_nil ≫= ?f) s) with (f (nil_ s) s). cbn beta.
  rewrite (rep_root _ _ _ HR), (located_ptr zero s t (located_root zero s t HR)).
  destruct t as [|a co l v r]; [done|].
  change ((get_fuel ≫= ?f) s) with (f (next s) s). cbn beta.
  destruct (postOrder_loop_spec (3 * next s)) as [_ HA].
  pose proof (HA (N a co l v r) [] s 0 c) as H.
  cbn [map reverse postorder_rest pending rounds] in H. rewrite !app_nil_r in H.
  apply H.
  - done.
  - intros Hin. by apply (Rep_addr_neq0 zero s _ 0 HR) in Hin.
  - pose proof (Rep_size _ _ _ HR). lia.
Qed.

End PostOrder.

(** ** Every traversal visits every value once *)

Section Permutations.
Context {T : Type}.
Implicit Types (t l r u : @tree T) (us : list (@tree T)).

Lemma preorder_elems t : preorder t ≡ₚ elems t.
Proof.
  induction t as [|a c l IHl v r IHr]; [done|]. simpl. rewrite IHl, IHr.
  solve_Permutation.
Qed.

Lemma postorder_elems t : postorder t ≡ₚ elems t.
Proof.
  induction t as [|a c l IHl v r IHr]; [done|]. simpl. rewrite IHl, IHr.
  solve_Permutation.
Qed.

Lemma elems_children u :
  elems u ≡ₚ root_value u ++ concat (map elems (children u)).
Proof.
  destruct u as [|a c l v r]; [done|]. unfold children.
  rewrite map_app, concat_app. simpl.
  assert (∀ w : @tree T, concat (map elems (nonempty w)) = elems w) as H.
  { intros [|]; [done|]. simpl. by rewrite app_nil_r. }
  rewrite !H. solve_Permutation.
Qed.

Lemma elems_kids us :
  concat (map elems us) ≡ₚ root_values us ++ concat (map elems (kids us)).
Proof.
  induction us as [|u us IH]; [done|].
  change (kids (u :: us)) with (children u ++ kids us).
  change (root_values (u :: us)) with (root_value u ++ root_values us).
  rewrite map_app, concat_app. cbn [map concat].
  rewrite IH, (elems_children u). solve_Permutation.
Qed.

Lemma kids_ne us : Forall (λ u, u ≠ E) (kids us).
Proof.
  induction us as [|u us IH]; [constructor|].
  change (kids (u :: us)) with (children u ++ kids us).
  apply Forall_app. split; [apply children_ne|done].
Qed.

Lemma sizes_kids us : Forall (λ u, u ≠ E) us → sizes (kids us) + length us = sizes us.
Proof.
  induction 1 as [|u us Hu _ IH]; [done|].
  change (kids (u :: us)) with (children u ++ kids us).
  rewrite sizes_app, sizes_cons. simpl.
  destruct (sizes_children u) as [H|H]; [lia|done].
Qed.

Lemma levelorders_elems us :
  Forall (λ u, u ≠ E) us → levelorders us ≡ₚ concat (map elems us).
Proof.
  remember (sizes us) as n eqn:Hn. revert us Hn.
  induction n as [n IH] using lt_wf_ind. intros us -> Hus.
  destruct us as [|u us]; [done|].
  rewrite levelorders_unfold by done. rewrite (elems_kids (u :: us)).
  f_equiv. apply (IH (sizes (kids (u :: us)))); [|done|apply kids_ne].
  pose proof (sizes_kids (u :: us) Hus). simpl in *. lia.
Qed.

Lemma levelorder_elems t : levelorder t ≡ₚ elems t.
Proof.
  rewrite <- levelorders_nonempty, levelorders_elems by apply nonempty_ne.
  destruct t; [done|]. simpl. by rewrite app_nil_r.
Qed.

End Permutations.

(** ** Values that are equal for the comparator *)

Section Equal.
Context {T : Type}.
Variable compare : T → T → Z.
Hypothesis Hcmp : comparator compare.

Lemma compare_0_trans x y z :
  compare x y = 0%Z → compare y z = 0%Z → compare x z = 0%Z.
Proof.
  intros Hxy Hyz.
  pose proof (compare_sym_0 compare Hcmp _ _ Hxy) as Hyx.
  pose proof (compare_sym_0 compare Hcmp _ _ Hyz) as Hzy.
  pose proof (compare_trans _ Hcmp x y z). pose proof (compare_trans _ Hcmp z y x).
  pose proof (compare_anti _ Hcmp x z). pose proof (compare_anti _ Hcmp z x). lia.
Qed.

(** Taking out what is equal to [v] changes nothing for a value that is
    not equal to [v]. *)
Lemma Exists_filter_other v w (present : list T) :
  compare v w ≠ 0%Z →
  Exists (λ u, compare w u = 0%Z) (filter (λ x, compare v x ≠ 0%Z) present)
  ↔ Exists (λ u, compare w u = 0%Z) present.
Proof.
  intros Hvw. rewrite !Exists_exists. split.
  - intros (u & Hu & Hwu). apply list_elem_of_filter in Hu as [_ Hu]. by exists u.
  - intros (u & Hu & Hwu). exists u. split; [|done].
    apply list_elem_of_filter. split; [|done].
    intros Hvu. apply Hvw. apply (compare_0_trans v u w); [done|].
    by apply (compare_sym_0 compare Hcmp).
Qed.

Lemma Exists_filter_self v (present : list T) :
  ¬ Exists (λ u, compare v u = 0%Z) (filter (λ x, compare v x ≠ 0%Z) present).
Proof.
  rewrite Exists_exists. intros (u & Hu & Hvu).
  by apply list_elem_of_filter in Hu as [Hne _].
Qed.

End Equal.

(** ** The state a new tree starts in *)

Lemma well_allocated_New {T : Type} (zero : T) : well_allocated (New zero).
Proof. intros a Ha. simpl in *. apply lookup_singleton_ne. lia. Qed.

(** ** The in-order iterator, run again *)

Section Resume.
Context {T C : Type}.
Variable zero : T.
Implicit Types (s : @RBTree T) (t l r u : @tree T) (ps : list (@tree T)) (c : C).
Local Abbreviation located := (located zero).

Lemma pendings_app ps ps' : pendings (ps ++ ps') = pendings ps ++ pendings ps'.
Proof. unfold pendings. by rewrite map_app, concat_app. Qed.

Lemma pendings_left_spine u : pendings (left_spine u) = elems u.
Proof.
  induction u as [|a co l IHl v r _]; [done|]. simpl.
  rewrite pendings_app, IHl. unfold pendings. simpl. by rewrite app_nil_r.
Qed.

Lemma located_left_spine s u :
  located s u → Forall (λ p, p ≠ E ∧ located s p) (left_spine u).
Proof.
  induction u as [|a co l IHl v r _]; intros Hu; [constructor|]. simpl.
  destruct (located_node zero s a co l v r Hu) as (_ & Hl & _).
  apply Forall_app. split; [by apply IHl|]. by repeat constructor.
Qed.

Lemma located_height s u : located s u → height u < next s.
Proof.
  intros [k HR]. pose proof (Rep_fuel_path zero s u k HR).
  pose proof (height_le_size u). lia.
Qed.

Lemma located_size s t u : Rep zero s t → located s u → length (elems u) + 2 ≤ next s.
Proof.
  intros _ [k HR]. pose proof (Rep_fuel_path zero s u k HR).
  pose proof (Rep_nil_lt zero _ _ HR). rewrite <- length_addrs_elems.
  pose proof (Rep_size zero _ _ HR) as Hsz.
  rewrite (Permutation_length (addrs_plug_perm u k)), length_app in Hsz. lia.
Qed.

(** The inner loop pushes the leftmost branch of the current subtree on
    whatever the stack holds. *)
Lemma inOrder_descend_row u : ∀ s fuel (st : list nat),
  located s u → height u < fuel →
  inOrder_descend fuel (ptr (nil_ s) u) st s
  = Ok (st ++ reverse (map (ptr (nil_ s)) (left_spine u))) s.
Proof.
  induction u as [|a co l IHl v r _]; intros s fuel st Hu Hfuel;
    (destruct fuel as [|fuel]; [simpl in Hfuel; lia|]); simpl in Hfuel;
    cbn [inOrder_descend].
  - change ((get_nil ≫= ?f) s) with (f (nil_ s) s). cbn beta.
    simpl. by rewrite Nat.eqb_refl, app_nil_r.
  - change ((get_nil ≫= ?f) s) with (f (nil_ s) s). cbn beta.
    rewrite (located_ptr zero s _ Hu).
    destruct (located_node zero s a co l v r Hu) as ([par Ha] & Hl & _).
    cbn [ptr]. rewrite (bind_ok _ _ _ _ _ (get_left_ok _ _ _ Ha)). cbn [left].
    rewrite (IHl s fuel (st ++ [a]) Hl) by lia.
    cbn [left_spine]. rewrite map_app, reverse_app. simpl.
    by rewrite <- app_assoc.
Qed.

Section Loop.
Variable yield : T → C → bool * C.
Local Abbreviation visit := (visit yield).

(** The loop on any stack of nodes of the tree: it yields the values of
    the current subtree and then what the stack stands for; the stack it
    ends on holds nodes of the tree again, none when the consumer has
    not stopped it. *)
Lemma inOrder_resume_spec : ∀ fuel u ps s c,
  located s u → Forall (λ p, p ≠ E ∧ located s p) ps →
  length (elems u ++ pendings ps) < fuel →
  ∃ ps', Forall (λ p, p ≠ E ∧ located s p) ps'
    ∧ (stops yield (elems u ++ pendings ps) c = false → ps' = [])
    ∧ (∀ v vs, elems u ++ pendings ps = v :: vs → (yield v c).1 = false →
         ps' = tail (left_spine u ++ ps))
    ∧ inOrder_resume yield fuel (ptr (nil_ s) u) (reverse (map (ptr (nil_ s)) ps)) c s
      = Ok (reverse (map (ptr (nil_ s)) ps'), visit (elems u ++ pendings ps) c) s.
Proof.
  induction fuel as [|fuel IH]; intros u ps s c Hu Hps Hfuel; [lia|].
  cbn [inOrder_resume].
  change ((get_nil ≫= ?f) s) with (f (nil_ s) s). cbn beta.
  rewrite (located_ptr zero s u Hu).
  rewrite <- (pendings_left_spine u), <- pendings_app in Hfuel |- *.
  pose proof (inOrder_descend_row u s (next s) (reverse (map (ptr (nil_ s)) ps)) Hu
                (located_height s u Hu)) as Hd.
  rewrite <- reverse_app, <- map_app in Hd.
  assert (Hall : Forall (λ p, p ≠ E ∧ located s p) (left_spine u ++ ps)).
  { apply Forall_app. split; [by apply located_left_spine|done]. }
  assert (Hcond : negb (match u with E => true | N _ _ _ _ _ => false end)
                  || (0 <? length (reverse (map (ptr (nil_ s)) ps)))
                  = match left_spine u ++ ps with [] => false | _ :: _ => true end).
  { rewrite length_reverse, length_map. destruct u as [|a co l v r]; simpl.
    - by destruct ps.
    - by destruct (left_spine l). }
  rewrite Hcond. clear Hcond.
  destruct (left_spine u ++ ps) as [|p rest] eqn:Hrow.
  { apply app_eq_nil in Hrow as [_ ->]. exists []. split; [constructor|]. by split_and!. }
  change ((get_fuel ≫= ?f) s) with (f (next s) s). cbn beta.
  rewrite (bind_ok _ _ _ _ _ Hd). clear Hd.
  apply Forall_cons in Hall as [[Hne Hp] Hrest].
  destruct p as [|a co l v r]; [done|].
  destruct (located_node zero s a co l v r Hp) as ([par Ha] & _ & Hr).
  cbn [map ptr]. rewrite reverse_cons, last_snoc, removelast_last.
  rewrite (bind_ok _ _ _ _ _ (get_Value_ok _ _ _ Ha)). cbn [Value].
  change (pendings (N a co l v r :: rest)) with ((v :: elems r) ++ pendings rest) in Hfuel |- *.
  cbn [app stops visit]. destruct (yield v c) as [[] c'] eqn:Hy.
  - rewrite (bind_ok _ _ _ _ _ (get_right_ok _ _ _ Ha)). cbn [right].
    destruct (IH r rest s c' Hr Hrest) as (ps' & H1 & H2 & _ & H4).
    { simpl in Hfuel. lia. }
    exists ps'. split_and!; [done|done| |done].
    intros w ws [= <- _]. by rewrite Hy.
  - exists rest. by split_and!.
Qed.

(** One run of the function that [Iterate(InOrder)] has returned, on the
    stack [ps] that the run before has left. *)
Lemma inOrderIter_stack_spec s t ps c :
  Rep zero s t → Forall (λ p, p ≠ E ∧ located s p) ps →
  ∃ ps', Forall (λ p, p ≠ E ∧ located s p) ps'
    ∧ (stops yield (elems t ++ pendings ps) c = false → ps' = [])
    ∧ (∀ v vs, elems t ++ pendings ps = v :: vs → (yield v c).1 = false →
         ps' = tail (left_spine t ++ ps))
    ∧ inOrderIter_stack yield (reverse (map (ptr (nil_ s)) ps)) c s
      = Ok (reverse (map (ptr (nil_ s)) ps'), visit (elems t ++ pendings ps) c) s.
Proof.
  intros HR Hps. unfold inOrderIter_stack.
  change ((get_root ≫= ?f) s) with (f (root s) s). cbn beta.
  change ((get_fuel ≫= ?f) s) with (f (next s) s). cbn beta.
  rewrite (rep_root _ _ _ HR).
  apply inOrder_resume_spec; [by apply located_root|done|].
  rewrite length_reverse, length_map, length_app.
  pose proof (located_size s t t HR (located_root zero s t HR)) as Ht.
  assert (length (pendings ps) ≤ length ps * next s) as Hlen.
  { clear -Hps HR. induction Hps as [|p ps [Hne Hp] _ IH]; [simpl; lia|].
    change (pendings (p :: ps)) with (pending_values p ++ pendings ps).
    rewrite length_app. simpl.
    pose proof (located_size s t p HR Hp) as Hsz.
    destruct p as [|a co l v r]; [done|]. simpl in *.
    rewrite length_app in Hsz. simpl in Hsz. lia. }
  lia.
Qed.

End Loop.

End Resume.

(** * Further properties of the methods *)

(** ** The node of a value *)

(** X1. After every history of calls, [Insert] of a value that the tree
    does not hold returns a pointer that is not null and was not
    allocated before; the node at that pointer holds the value; and a
    [Search] for the value returns this very pointer, [Has] true. *)
Theorem Insert_returns_node {T : Type} (compare : T → T → Z) (zero : T)
    (ops : list (op T)) (v : T) :
  comparator compare → valid_ops compare [] (ops ++ [OpInsert v]) →
  ∃ s0 a s, run compare ops (New zero) = Ok tt s0
    ∧ Insert compare v s0 = Ok a s
    ∧ a ≠ 0 ∧ heap s0 !! a = None
    ∧ (∃ n, heap s !! a = Some n ∧ Value n = v)
    ∧ Search compare v s = Ok a s
    ∧ Has compare v s = Ok true s.
Proof.
  intros Hcmp Hv. apply valid_ops_app in Hv as [Hv [Hnew _]].
  destruct (history_Good compare Hcmp zero ops Hv) as (s0 & Hrun & HG).
  destruct (Insert_Good_node compare Hcmp zero v s0 _ HG Hnew)
    as (s & t & m & HI & HR & _ & _ & Hs & _ & Hfresh & i & Ha & Hx).
  assert (next s0 ≠ 0) as Hne.
  { destruct HG as (t0 & _ & HR0 & _). pose proof (Rep_size zero _ _ HR0). lia. }
  pose proof (Search_at compare Hcmp zero s t i _ v HR Hs Ha Hx) as HS.
  exists s0, (next s0), s. split_and!; [done..| | |].
  - by destruct (node_at_holds zero s t i _ v HR Ha Hx) as [_ Hn].
  - done.
  - unfold Has. rewrite (bind_ok _ _ _ _ _ HS). by rewrite (eqb_false _ 0 Hne).
Qed.

Lemma Insert_returns_node_witness :
  ∃ s0 a s, run cmp_Compare [OpInsert 4; OpInsert 9; OpDelete 4; OpInsert 6]%Z (New 0%Z)
              = Ok tt s0
    ∧ Insert cmp_Compare 7%Z s0 = Ok a s
    ∧ a ≠ 0 ∧ heap s0 !! a = None
    ∧ (∃ n, heap s !! a = Some n ∧ Value n = 7%Z)
    ∧ Search cmp_Compare 7%Z s = Ok a s
    ∧ Has cmp_Compare 7%Z s = Ok true s.
Proof.
  apply (Insert_returns_node cmp_Compare 0%Z
           [OpInsert 4; OpInsert 9; OpDelete 4; OpInsert 6]%Z 7%Z).
  - exact cmp_Compare_comparator.
  - vm_compute. repeat constructor; done.
Defined.

(** X2. After every history of calls: when [Insert] of a new value has
    returned a node, [DeleteNode] of that node returns true and undoes
    the insertion: the invariants hold, [Has] does not find the value,
    and the in-order traversal yields what it yielded before the
    insertion. *)
Theorem DeleteNode_undoes_Insert {T : Type} (compare : T → T → Z) (zero : T)
    (ops : list (op T)) (v : T) :
  comparator compare → valid_ops compare [] (ops ++ [OpInsert v]) →
  ∃ s0 a s1 s2 out, run compare ops (New zero) = Ok tt s0
    ∧ Insert compare v s0 = Ok a s1
    ∧ DeleteNode a s1 = Ok true s2
    ∧ invariants compare zero s2
    ∧ Has compare v s2 = Ok false s2
    ∧ Iterate collect InOrder [] s0 = Ok out s0
    ∧ Iterate collect InOrder [] s2 = Ok out s2.
Proof.
  intros Hcmp Hv. apply valid_ops_app in Hv as [Hv [Hnew _]].
  destruct (history_Good compare Hcmp zero ops Hv) as (s0 & Hrun & HG).
  destruct (Insert_Good_node compare Hcmp zero v s0 _ HG Hnew)
    as (s1 & t1 & m1 & HI & HR1 & Hrb1 & Hc1 & Hs1 & Hp1 & _ & i & Ha & Hx).
  destruct (DeleteNode_at compare zero s1 t1 m1 i _ v _ HR1 Hrb1 Hc1 Hs1 Ha Hx Hp1)
    as (s2 & HD & HG2).
  destruct (Search_Good compare Hcmp zero v s2 _ HG2) as (b & _ & HH & Hb).
  assert (b = 0) as ->.
  { destruct (decide (b = 0)) as [|Hne]; [done|].
    apply Hb in Hne. apply Exists_exists in Hne as (u & Hu & Hvu).
    change (fold_left (model_step compare) ops []) with (model compare ops) in Hnew.
    rewrite Forall_forall in Hnew. by destruct (Hnew u Hu). }
  pose proof (Good_invariants compare Hcmp zero s2 _ HG2) as Hinv.
  destruct HG as (t0 & m0 & HR0 & _ & _ & Hs0 & Hp0).
  destruct HG2 as (t2 & m2 & HR2 & _ & _ & Hs2 & Hp2).
  exists s0, (next s0), s1, s2, (elems t0). split_and!; [done..| |].
  - by rewrite (Iterate_InOrder_spec zero collect s0 t0 [] HR0), visit_collect.
  - rewrite (Iterate_InOrder_spec zero collect s2 t2 [] HR2), visit_collect.
    do 2 f_equal. apply (sorted_unique compare Hcmp); [done..|]. by rewrite Hp2, Hp0.
Qed.

Lemma DeleteNode_undoes_Insert_witness :
  ∃ s0 a s1 s2 out,
    run cmp_Compare [OpInsert 4; OpInsert 9; OpDelete 4; OpInsert 6]%Z (New 0%Z) = Ok tt s0
    ∧ Insert cmp_Compare 7%Z s0 = Ok a s1
    ∧ DeleteNode a s1 = Ok true s2
    ∧ invariants cmp_Compare 0%Z s2
    ∧ Has cmp_Compare 7%Z s2 = Ok false s2
    ∧ Iterate collect InOrder [] s0 = Ok out s0
    ∧ Iterate collect InOrder [] s2 = Ok out s2.
Proof.
  apply (DeleteNode_undoes_Insert cmp_Compare 0%Z
           [OpInsert 4; OpInsert 9; OpDelete 4; OpInsert 6]%Z 7%Z).
  - exact cmp_Compare_comparator.
  - vm_compute. repeat constructor; done.
Defined.

(** X3. After every history of calls [DeleteNode] takes any node of the
    tree: it returns true, the invariants hold afterwards, and the
    in-order traversal yields what it yielded before without the value
    of that node, the one at the position of the node. *)
Theorem DeleteNode_removes_its_value {T : Type} (compare : T → T → Z) (zero : T)
    (ops : list (op T)) :
  comparator compare → valid_ops compare [] ops →
  ∃ s t, run compare ops (New zero) = Ok tt s
    ∧ Rep zero s t
    ∧ Iterate collect InOrder [] s = Ok (elems t) s
    ∧ ∀ i a, addrs t !! i = Some a →
        ∃ s', DeleteNode a s = Ok true s'
          ∧ invariants compare zero s'
          ∧ Iterate collect InOrder [] s' = Ok (delete i (elems t)) s'.
Proof.
  intros Hcmp Hv.
  destruct (history_Good compare Hcmp zero ops Hv)
    as (s & Hrun & t & m & HR & Hrb & Hc & Hs & _).
  exists s, t. split_and!; [done|done| |].
  { by rewrite (Iterate_InOrder_spec zero collect s t [] HR), visit_collect. }
  intros i a Ha.
  destruct (node_at zero s t i a HR Ha) as (c & l & x & r & k & _ & _ & Hx).
  destruct (DeleteNode_at compare zero s t m i a x (delete i (elems t)) HR Hrb Hc Hs Ha Hx)
    as (s' & HD & HG); [by apply delete_Permutation|].
  exists s'. split; [done|]. split; [by eapply Good_invariants|].
  destruct HG as (t' & m' & HR' & _ & _ & Hs' & Hp').
  rewrite (Iterate_InOrder_spec zero collect s' t' [] HR'), visit_collect.
  do 2 f_equal. apply (sorted_unique compare Hcmp); [done| |done].
  rewrite <- (take_drop_middle _ _ _ Hx) in Hs.
  rewrite delete_take_drop. by apply sorted_remove in Hs.
Qed.

Lemma DeleteNode_removes_its_value_witness :
  ∃ s t, run cmp_Compare [OpInsert 4; OpInsert 9; OpDelete 4; OpInsert 6]%Z (New 0%Z) = Ok tt s
    ∧ Rep 0%Z s t
    ∧ Iterate collect InOrder [] s = Ok (elems t) s
    ∧ ∀ i a, addrs t !! i = Some a →
        ∃ s', DeleteNode a s = Ok true s'
          ∧ invariants cmp_Compare 0%Z s'
          ∧ Iterate collect InOrder [] s' = Ok (delete i (elems t)) s'.
Proof.
  apply (DeleteNode_removes_its_value cmp_Compare 0%Z).
  - exact cmp_Compare_comparator.
  - vm_compute. repeat constructor; done.
Defined.

(** ** What [Delete] returns *)

(** X4. After every history of calls, [Delete] of any value returns what
    [Has] returned just before it: true exactly when the tree held a
    value equal to it; when the result is false, the state is left as it
    was.  After the call [Has] does not find the value, and
    for every value that is not equal to it [Has] returns what it
    returned before. *)
Theorem Delete_returns_Has {T : Type} (compare : T → T → Z) (zero : T)
    (ops : list (op T)) (v : T) :
  comparator compare → valid_ops compare [] ops →
  ∃ s b s', run compare ops (New zero) = Ok tt s
    ∧ Has compare v s = Ok b s
    ∧ Delete compare v s = Ok b s'
    ∧ (b = true ↔ Exists (λ u, compare v u = 0%Z) (model compare ops))
    ∧ (b = false → s' = s)
    ∧ Has compare v s' = Ok false s'
    ∧ (∀ w, compare v w ≠ 0%Z →
         ∃ b', Has compare w s = Ok b' s ∧ Has compare w s' = Ok b' s').
Proof.
  intros Hcmp Hv.
  destruct (history_Good compare Hcmp zero ops Hv) as (s & Hrun & HG).
  destruct (Search_Good compare Hcmp zero v s _ HG) as (a & HS & HH & Ha).
  destruct (Delete_Good compare Hcmp zero v s _ HG) as (b & s' & HD & HG' & Hsame).
  assert (b = negb (a =? 0)) as ->.
  { unfold Delete in HD. rewrite (bind_ok _ _ _ _ _ HS) in HD.
    destruct (decide (a = 0)) as [->|Hne].
    - rewrite DeleteNode_nil in HD. by injection HD as <- _.
    - rewrite (eqb_false a 0 Hne). by apply (DeleteNode_not_false s a b s' Hne). }
  exists s, (negb (a =? 0)), s'. split_and!; [done|done|done| |done| |].
  - rewrite <- Ha. destruct (Nat.eqb_spec a 0); simpl; split; done.
  - destruct (Search_Good compare Hcmp zero v s' _ HG') as (a' & _ & HH' & Ha').
    assert (a' = 0) as ->; [|done].
    destruct (decide (a' = 0)) as [|Hne]; [done|].
    apply Ha' in Hne. by apply (Exists_filter_self compare) in Hne.
  - intros w Hvw.
    destruct (Search_Good compare Hcmp zero w s _ HG) as (c & _ & HHw & Hc).
    destruct (Search_Good compare Hcmp zero w s' _ HG') as (c' & _ & HHw' & Hc').
    exists (negb (c =? 0)). split; [done|]. rewrite HHw'. do 2 f_equal.
    rewrite (Exists_filter_other compare Hcmp v w _ Hvw), <- Hc in Hc'.
    destruct (Nat.eqb_spec c 0), (Nat.eqb_spec c' 0); tauto.
Qed.

Lemma Delete_returns_Has_witness :
  ∃ s b s', run cmp_Compare [OpInsert 4; OpInsert 9; OpDelete 4; OpInsert 6]%Z (New 0%Z)
              = Ok tt s
    ∧ Has cmp_Compare 9%Z s = Ok b s
    ∧ Delete cmp_Compare 9%Z s = Ok b s'
    ∧ (b = true ↔ Exists (λ u, cmp_Compare 9%Z u = 0%Z)
                    (model cmp_Compare [OpInsert 4; OpInsert 9; OpDelete 4; OpInsert 6]%Z))
    ∧ (b = false → s' = s)
    ∧ Has cmp_Compare 9%Z s' = Ok false s'
    ∧ (∀ w, cmp_Compare 9%Z w ≠ 0%Z →
         ∃ b', Has cmp_Compare w s = Ok b' s ∧ Has cmp_Compare w s' = Ok b' s').
Proof.
  apply (Delete_returns_Has cmp_Compare 0%Z
           [OpInsert 4; OpInsert 9; OpDelete 4; OpInsert 6]%Z 9%Z).
  - exact cmp_Compare_comparator.
  - vm_compute. repeat constructor; done.
Defined.

(** ** The four traversals *)

(** X5. After every history of calls the in-order traversal feeds any
    consumer the values the tree holds, each once and in ascending
    order, for as long as the consumer goes on, and returns what the
    consumer has made of them; the tree is left as it was. *)
Theorem InOrder_after_history {T : Type} (compare : T → T → Z) (zero : T)
    (ops : list (op T)) :
  comparator compare → valid_ops compare [] ops →
  ∃ s out, run compare ops (New zero) = Ok tt s
    ∧ sorted compare out ∧ out ≡ₚ model compare ops
    ∧ ∀ (C : Type) (yield : T → C → bool * C) (c : C),
        Iterate yield InOrder c s = Ok (visit yield out c) s.
Proof.
  intros Hcmp Hv.
  destruct (history_Good compare Hcmp zero ops Hv) as (s & Hrun & t & m & HR & _ & _ & Hs & Hp).
  exists s, (elems t). split_and!; [done..|].
  intros C yield c. by apply (Iterate_InOrder_spec zero).
Qed.

Lemma InOrder_after_history_witness :
  ∃ s out, run cmp_Compare [OpInsert 4; OpInsert 9; OpDelete 4; OpInsert 6]%Z (New 0%Z)
             = Ok tt s
    ∧ sorted cmp_Compare out
    ∧ out ≡ₚ model cmp_Compare [OpInsert 4; OpInsert 9; OpDelete 4; OpInsert 6]%Z
    ∧ ∀ (C : Type) (yield : Z → C → bool * C) (c : C),
        Iterate yield InOrder c s = Ok (visit yield out c) s.
Proof.
  apply (InOrder_after_history cmp_Compare 0%Z).
  - exact cmp_Compare_comparator.
  - vm_compute. repeat constructor; done.
Defined.

(** X6. In a state that holds the tree [t], the pre-order traversal
    feeds the consumer the value of a node before the values of its left
    subtree, and these before the values of its right subtree, for as
    long as the consumer goes on; every value of the tree comes once; the
    tree is left as it was. *)
Theorem PreOrder_visits {T C : Type} (zero : T) (yield : T → C → bool * C)
    (s : @RBTree T) (t : @tree T) (c : C) :
  Rep zero s t →
  Iterate yield PreOrder c s = Ok (visit yield (preorder t) c) s
  ∧ preorder t ≡ₚ elems t.
Proof.
  intros HR. split; [|apply preorder_elems].
  by apply (preOrderIter_spec zero).
Qed.

Lemma PreOrder_visits_witness :
  Iterate collect PreOrder [] example_state
    = Ok (visit collect (preorder example_tree) []) example_state
  ∧ preorder example_tree ≡ₚ elems example_tree.
Proof. apply (PreOrder_visits 0%Z collect example_state example_tree []). exact example_Rep. Defined.

(** X7. In a state that holds the tree [t], the post-order traversal
    feeds the consumer the values of the left subtree of a node, then
    those of its right subtree, then the value of the node, for as long
    as the consumer goes on; every value of the tree comes once; the tree
    is left as it was. *)
Theorem PostOrder_visits {T C : Type} (zero : T) (yield : T → C → bool * C)
    (s : @RBTree T) (t : @tree T) (c : C) :
  Rep zero s t →
  Iterate yield PostOrder c s = Ok (visit yield (postorder t) c) s
  ∧ postorder t ≡ₚ elems t.
Proof.
  intros HR. split; [|apply postorder_elems].
  by apply (postOrderIter_spec zero).
Qed.

Lemma PostOrder_visits_witness :
  Iterate collect PostOrder [] example_state
    = Ok (visit collect (postorder example_tree) []) example_state
  ∧ postorder example_tree ≡ₚ elems example_tree.
Proof. apply (PostOrder_visits 0%Z collect example_state example_tree []). exact example_Rep. Defined.

(** X8. In a state that holds the tree [t], the level-order traversal
    feeds the consumer the values depth by depth from the root down, and
    from left to right within a depth, for as long as the consumer goes
    on; every value of the tree comes once; the tree is left as it was. *)
Theorem LevelOrder_visits {T C : Type} (zero : T) (yield : T → C → bool * C)
    (s : @RBTree T) (t : @tree T) (c : C) :
  Rep zero s t →
  Iterate yield LevelOrder c s = Ok (visit yield (levelorder t) c) s
  ∧ levelorder t ≡ₚ elems t.
Proof.
  intros HR. split; [|apply levelorder_elems].
  by apply (levelOrderIter_spec zero).
Qed.

Lemma LevelOrder_visits_witness :
  Iterate collect LevelOrder [] example_state
    = Ok (visit collect (levelorder example_tree) []) example_state
  ∧ levelorder example_tree ≡ₚ elems example_tree.
Proof. apply (LevelOrder_visits 0%Z collect example_state example_tree []). exact example_Rep. Defined.

(** ** What the methods leave alone *)

(** X9. No call moves a value: in a state whose allocation counter is
    past every node, after any sequence of [Insert] and [Delete] calls
    and after [DeleteNode] of any pointer, whether the call returns or
    panics on the way, every node that was allocated is still allocated
    and holds the value it held.  A pointer that [Insert] or [Search]
    has returned keeps pointing at its value. *)
Theorem values_stay_in_their_nodes {T : Type} (compare : T → T → Z)
    (s : @RBTree T) (ops : list (op T)) (v : T) (p : nat) :
  well_allocated s →
  values_kept s (final (run compare ops s))
  ∧ values_kept s (final (Insert compare v s))
  ∧ values_kept s (final (Delete compare v s))
  ∧ values_kept s (final (DeleteNode p s)).
Proof.
  intros Hwa. split_and!.
  - by apply (keeps_run compare ops s).
  - by apply (keeps_Insert compare v s).
  - by apply (keeps_Delete compare v s).
  - by apply (keeps_DeleteNode p s).
Qed.

Lemma values_stay_in_their_nodes_witness :
  values_kept example_state
    (final (run cmp_Compare [OpInsert 7; OpDelete 2; OpInsert 1]%Z example_state))
  ∧ values_kept example_state (final (Insert cmp_Compare 2%Z example_state))
  ∧ values_kept example_state (final (Delete cmp_Compare 2%Z example_state))
  ∧ values_kept example_state (final (DeleteNode 2 example_state)).
Proof.
  apply (values_stay_in_their_nodes cmp_Compare example_state
           [OpInsert 7; OpDelete 2; OpInsert 1]%Z 2%Z 2).
  intros a Ha. apply (rep_next _ _ _ example_Rep a Ha).
Defined.


(** ** Balance *)

(** X11. After every history of calls the tree is no higher than twice
    the binary logarithm of the number of its values plus one, and the
    descent of [Search] ends within that many rounds, plus the one that
    meets the sentinel. *)
Theorem Search_logarithmic {T : Type} (compare : T → T → Z) (zero : T)
    (ops : list (op T)) (v : T) :
  comparator compare → valid_ops compare [] ops →
  ∃ s t a, run compare ops (New zero) = Ok tt s
    ∧ Rep zero s t
    ∧ height t ≤ 2 * Nat.log2 (length (model compare ops) + 1)
    ∧ Search compare v s = Ok a s
    ∧ Search_loop compare (2 * Nat.log2 (length (model compare ops) + 1) + 1) v (root s) s
      = Ok a s.
Proof.
  intros Hcmp Hv.
  destruct (history_Good compare Hcmp zero ops Hv) as (s & Hrun & t & m & HR & Hrb & Hc & _ & Hp).
  pose proof (rbt_balanced t m Hrb Hc) as Hh. rewrite Hp in Hh.
  exists s, t, (found (find_path compare v t [])). split_and!; [done..| |].
  - apply (Search_spec compare zero v s t HR).
  - rewrite (rep_root _ _ _ HR).
    apply (Search_loop_spec compare zero v t [] s); [done|lia].
Qed.

Lemma Search_logarithmic_witness :
  ∃ s t a, run cmp_Compare (map OpInsert [1; 2; 3; 4; 5; 6; 7; 8; 9; 10]%Z) (New 0%Z) = Ok tt s
    ∧ Rep 0%Z s t
    ∧ height t ≤ 2 * Nat.log2
        (length (model cmp_Compare (map OpInsert [1; 2; 3; 4; 5; 6; 7; 8; 9; 10]%Z)) + 1)
    ∧ Search cmp_Compare 10%Z s = Ok a s
    ∧ Search_loop cmp_Compare
        (2 * Nat.log2
           (length (model cmp_Compare (map OpInsert [1; 2; 3; 4; 5; 6; 7; 8; 9; 10]%Z)) + 1) + 1)
        10%Z (root s) s = Ok a s.
Proof.
  apply (Search_logarithmic cmp_Compare 0%Z).
  - exact cmp_Compare_comparator.
  - vm_compute. repeat constructor; done.
Defined.

(** ** Rotations *)

(** X12. On a node with a right child [rotateLeft] returns and makes the
    child the root of the subtree; the values keep their order from left
    to right; and [rotateRight] on that child gives the tree back. *)
Theorem rotateRight_undoes_rotateLeft {T : Type} (zero : T) (s : @RBTree T)
    (a b : nat) (c cb : color) (l bl br : @tree T) (v bv : T) (k : list (@frame T)) :
  Rep zero s (plug (N a c l v (N b cb bl bv br)) k) →
  ∃ s1 s2, rotateLeft a s = Ok tt s1
    ∧ Rep zero s1 (plug (N b cb (N a c l v bl) bv br) k)
    ∧ elems (plug (N b cb (N a c l v bl) bv br) k)
      = elems (plug (N a c l v (N b cb bl bv br)) k)
    ∧ rotateRight b s1 = Ok tt s2
    ∧ Rep zero s2 (plug (N a c l v (N b cb bl bv br)) k).
Proof.
  intros HR.
  destruct (rotateLeft_Rep zero s a c l v b cb bl bv br k HR) as (s1 & H1 & HR1 & _).
  destruct (rotateRight_Rep zero s1 b cb a c l v bl bv br k HR1) as (s2 & H2 & HR2 & _).
  exists s1, s2. split_and!; [done|done| |done|done].
  apply elems_plug_eq. simpl. by rewrite <- !app_assoc.
Qed.

Lemma rotateRight_undoes_rotateLeft_witness :
  ∃ s1 s2, rotateLeft 2 example_state = Ok tt s1
    ∧ Rep 0%Z s1 (plug (N 4 red (N 2 black (N 3 red E 1%Z E) 2%Z E) 3%Z E) [])
    ∧ elems (plug (N 4 red (N 2 black (N 3 red E 1%Z E) 2%Z E) 3%Z E) [])
      = elems (plug (N 2 black (N 3 red E 1%Z E) 2%Z (N 4 red E 3%Z E)) [])
    ∧ rotateRight 4 s1 = Ok tt s2
    ∧ Rep 0%Z s2 (plug (N 2 black (N 3 red E 1%Z E) 2%Z (N 4 red E 3%Z E)) []).
Proof.
  apply (rotateRight_undoes_rotateLeft 0%Z example_state 2 4 black red
           (N 3 red E 1%Z E) E E 2%Z 3%Z []).
  exact example_Rep.
Defined.

(** ** The function that [Iterate] returns, called again *)

(** X13. The function that [Iterate(InOrder)] returns keeps its stack
    from one call to the next.  Its first run yields the values in
    ascending order, as [Iterate] is known to do, and leaves a stack of
    nodes of the tree: none when the consumer has let it finish, and when
    the consumer has stopped it at the first value, the leftmost branch
    of the tree without its lowest node.  The next run starts at the root
    on top of that stack: it yields all the values of the tree and then,
    for each node left on the stack, the value of the node and the values
    of its right subtree once more. *)
Theorem InOrder_function_keeps_its_stack {T C C' : Type} (zero : T)
    (yield : T → C → bool * C) (yield' : T → C' → bool * C')
    (s : @RBTree T) (t : @tree T) (c : C) (c' : C') :
  Rep zero s t →
  ∃ ps st',
    Forall (λ p, p ≠ E ∧ located zero s p) ps
    ∧ inOrderIter_stack yield [] c s
      = Ok (reverse (map (ptr (nil_ s)) ps), visit yield (elems t) c) s
    ∧ Iterate yield InOrder c s = Ok (visit yield (elems t) c) s
    ∧ (stops yield (elems t) c = false → ps = [])
    ∧ (∀ v vs, elems t = v :: vs → (yield v c).1 = false → ps = tail (left_spine t))
    ∧ inOrderIter_stack yield' (reverse (map (ptr (nil_ s)) ps)) c' s
      = Ok (st', visit yield' (elems t ++ pendings ps) c') s.
Proof.
  intros HR.
  destruct (inOrderIter_stack_spec zero yield s t [] c HR) as (ps & Hps & H1 & H2 & H3);
    [constructor|].
  change (pendings []) with (@nil T) in H1, H2, H3.
  change (reverse (map (ptr (nil_ s)) [])) with (@nil nat) in H3.
  rewrite (app_nil_r (elems t)) in H1, H2, H3. rewrite (app_nil_r (left_spine t)) in H2.
  destruct (inOrderIter_stack_spec zero yield' s t ps c' HR Hps) as (ps' & _ & _ & _ & H4).
  exists ps, (reverse (map (ptr (nil_ s)) ps')). split_and!; [done|done| |done|done|done].
  by apply (Iterate_InOrder_spec zero).
Qed.

Lemma InOrder_function_keeps_its_stack_witness :
  ∃ ps st',
    Forall (λ p, p ≠ E ∧ located 0%Z example_state p) ps
    ∧ inOrderIter_stack (λ (v : Z) (out : list Z), (false, out ++ [v])) [] [] example_state
      = Ok (reverse (map (ptr (nil_ example_state)) ps),
            visit (λ (v : Z) (out : list Z), (false, out ++ [v])) (elems example_tree) [])
           example_state
    ∧ Iterate (λ (v : Z) (out : list Z), (false, out ++ [v])) InOrder [] example_state
      = Ok (visit (λ (v : Z) (out : list Z), (false, out ++ [v])) (elems example_tree) [])
           example_state
    ∧ (stops (λ (v : Z) (out : list Z), (false, out ++ [v])) (elems example_tree) [] = false
       → ps = [])
    ∧ (∀ v vs, elems example_tree = v :: vs →
         ((λ (v : Z) (out : list Z), (false, out ++ [v])) v []).1 = false →
         ps = tail (left_spine example_tree))
    ∧ inOrderIter_stack collect (reverse (map (ptr (nil_ example_state)) ps)) [] example_state
      = Ok (st', visit collect (elems example_tree ++ pendings ps) []) example_state.
Proof.
  apply (InOrder_function_keeps_its_stack 0%Z
           (λ (v : Z) (out : list Z), (false, out ++ [v])) collect
           example_state example_tree [] []).
  exact example_Rep.
Defined.

(** On the tree of 1, 2 and 3: a first run that is stopped at 1 leaves
    the root on the stack, and the next run of the same function yields
    1, 2, 3 and then 2 and 3 again. *)
Lemma InOrder_second_run_repeats :
  ∃ st, inOrderIter_stack (λ (v : Z) (out : list Z), (false, out ++ [v])) [] [] example_state
        = Ok (st, [1%Z]) example_state
    ∧ st = [2]
    ∧ value_of (inOrderIter_stack collect st [] example_state)
      = Some ([], [1; 2; 3; 2; 3]%Z).
Proof. eexists. split_and!; vm_compute; reflexivity. Qed.
